(** * ws-transcription: overlap stitching, session handlers, retry policy,
      final-sweep merge and audio cache keys.

    A shallow embedding of the TypeScript sources (transcription.ts,
    parse-gpt.ts, the audio cache and the WebSocket session handler) together
    with the properties stated about them.  The first part of the file holds
    the embedding, the second part the theorems, and the third part further
    properties of the handlers, the service clients and the transcription
    cache of the earlier server. *)

From Stdlib Require Import NArith ZArith Lia.
From Stdlib Require Import Strings.String Strings.Ascii Strings.Byte.
From Stdlib Require Import Numbers.DecimalString.
From stdpp Require Import gmap list strings.

Local Open Scope nat_scope.
Set Warnings "-abstract-large-number".

(* ===================================================================== *)
(** * Part I: the embedding                                               *)
(* ===================================================================== *)

(** ** JavaScript strings

    A JavaScript string is a sequence of UTF-16 code units; [length],
    [slice], [endsWith], [includes] and [trim] all work on code units.  A code
    unit is a natural number below 65536. *)

Abbreviation jsstring := (list N).

(** String literals of the source, written as Rocq strings. *)
Definition js (s : string) : jsstring :=
  (fun c => N_of_ascii c) <$> list_ascii_of_string s.

Module JsString.

(** Relative index of [String.prototype.slice]: a negative index counts from
    the end, and everything is clamped to [0, len]. *)
Definition clampIndex (len : nat) (i : Z) : nat :=
  if (i <? 0)%Z then Z.to_nat (Z.max (Z.of_nat len + i) 0)
  else Nat.min (Z.to_nat i) len.

(** [s.slice(start, end)]; [end_ = None] is the one-argument call. *)
Definition slice (s : jsstring) (start : Z) (end_ : option Z) : jsstring :=
  let len := length s in
  let from := clampIndex len start in
  let to := match end_ with
            | None => len
            | Some e => clampIndex len e
            end in
  take (to - from) (drop from s).

(** [s.endsWith(search)]. *)
Definition endsWith (s search : jsstring) : bool :=
  let start := (Z.of_nat (length s) - Z.of_nat (length search))%Z in
  if (start <? 0)%Z then false
  else bool_decide (drop (Z.to_nat start) s = search).

(** White space and line terminators of ECMAScript: what [trim] strips and
    what the regular expression class [\s] matches. *)
Definition isWhiteSpace (c : N) : bool :=
  ((9 <=? c) && (c <=? 13) || (c =? 32) || (c =? 160) || (c =? 5760)
   || (8192 <=? c) && (c <=? 8202) || (c =? 8232) || (c =? 8233)
   || (c =? 8239) || (c =? 8287) || (c =? 12288) || (c =? 65279))%N.

Fixpoint trimStart (s : jsstring) : jsstring :=
  match s with
  | [] => []
  | c :: s' => if isWhiteSpace c then trimStart s' else s
  end.

(** [s.trim()]. *)
Definition trim (s : jsstring) : jsstring :=
  reverse (trimStart (reverse (trimStart s))).

(** [s.split(/\s+/)]: the pieces between maximal runs of white space.
    [inGap] tells that the previous code unit was white space, [cur] holds the
    piece being read, in reverse. *)
Fixpoint splitWhiteSpace (inGap : bool) (cur : jsstring) (s : jsstring)
  : list jsstring :=
  match s with
  | [] => [reverse cur]
  | c :: s' =>
      if isWhiteSpace c
      then (if inGap then splitWhiteSpace true cur s'
            else reverse cur :: splitWhiteSpace true [] s')
      else splitWhiteSpace false (c :: cur) s'
  end.

(** [s.trim().split(/\s+/).length], the word count of the session handler. *)
Definition wordCount (s : jsstring) : nat :=
  length (splitWhiteSpace false [] (trim s)).

(** [s.includes(search)]. *)
Fixpoint includes (s search : jsstring) : bool :=
  if bool_decide (search `prefix_of` s) then true
  else match s with
       | [] => false
       | _ :: s' => includes s' search
       end.

End JsString.

(** ** transcription.ts: the overlap stitcher *)

Module Stitcher.
Import JsString.

(** The loop [for (let i = max; i > 0; i--)] of [appendWithOverlap]. *)
Fixpoint overlapLoop (base addition : jsstring) (additionSize i : nat)
  : jsstring * nat :=
  match i with
  | O => (base ++ addition, additionSize)
  | S i' =>
      if endsWith base (slice addition 0 (Some (Z.of_nat i)))
      then (base ++ slice addition (Z.of_nat i) None, additionSize - i)
      else overlapLoop base addition additionSize i'
  end.

Definition appendWithOverlap (base addition : jsstring) : jsstring * nat :=
  let additionSize := length addition in
  let max := Nat.min (length base) additionSize in
  overlapLoop base addition additionSize max.

(** [k] is an overlap of [base] and [addition]: the last [k] code units of
    [base] are the first [k] code units of [addition]. *)
Definition overlap (base addition : jsstring) (k : nat) : Prop :=
  k ≤ Nat.min (length base) (length addition) ∧
  drop (length base - k) base = take k addition.

End Stitcher.

(** ** Buffers and the audio cache key *)

Abbreviation Buffer := (list byte).

Module AudioCache.
Import JsString.

Definition base64Alphabet : jsstring :=
  js "ABCDEFGHIJKLMNOPQRSTUVWXYZabcdefghijklmnopqrstuvwxyz0123456789+/".

Definition base64Digit (i : N) : N := nth (N.to_nat i) base64Alphabet 0%N.

Definition base64Pad : N := 61%N.

(** [buffer.toString('base64')]: three bytes give four digits; one or two
    trailing bytes are padded with [=]. *)
Fixpoint base64 (b : Buffer) : jsstring :=
  match b with
  | [] => []
  | x :: [] =>
      let n := Byte.to_N x in
      [base64Digit (N.shiftr n 2);
       base64Digit (N.shiftl (N.land n 3) 4);
       base64Pad; base64Pad]
  | x :: y :: [] =>
      let n := Byte.to_N x in
      let m := Byte.to_N y in
      [base64Digit (N.shiftr n 2);
       base64Digit (N.lor (N.shiftl (N.land n 3) 4) (N.shiftr m 4));
       base64Digit (N.shiftl (N.land m 15) 2);
       base64Pad]
  | x :: y :: z :: rest =>
      let n := Byte.to_N x in
      let m := Byte.to_N y in
      let o := Byte.to_N z in
      base64Digit (N.shiftr n 2)
      :: base64Digit (N.lor (N.shiftl (N.land n 3) 4) (N.shiftr m 4))
      :: base64Digit (N.lor (N.shiftl (N.land m 15) 2) (N.shiftr o 6))
      :: base64Digit (N.land o 63)
      :: base64 rest
  end.

(** audio-cache.ts: [buffer.toString('base64').slice(0, 64)]. *)
Definition createAudioKey (buffer : Buffer) : jsstring :=
  slice (base64 buffer) 0 (Some 64%Z).

(** The in-file helper of the earlier server, same body. *)
Definition createCacheKey (buffer : Buffer) : jsstring :=
  slice (base64 buffer) 0 (Some 64%Z).

(** The audio-to-transcript store is a QuickLRU instance keyed by the string
    above.  Within its capacity and age bounds it is a finite map, which is
    all the session handlers rely on. *)
Definition cacheAudio (cacheKey transcription : jsstring)
  (cache : gmap jsstring jsstring) : gmap jsstring jsstring :=
  <[cacheKey := transcription]> cache.

Definition getCachedAudio (cacheKey : jsstring)
  (cache : gmap jsstring jsstring) : option jsstring :=
  cache !! cacheKey.

(** Two recordings used below: 48 equal bytes followed by a different tail. *)
Definition sampleAudioA : Buffer := repeat "065"%byte 48 ++ ["001"%byte].
Definition sampleAudioB : Buffer :=
  repeat "065"%byte 48 ++ ["002"%byte; "003"%byte].

End AudioCache.

(** ** JavaScript objects used as string maps

    [obj[key] = value] on an object whose prototype is [Object.prototype]
    creates or overwrites the own property [key], with one exception: for
    the key ["__proto__"], unless the object already has an own property of
    that name, the assignment reaches the setter of [Object.prototype],
    which ignores a string, and the object is left as it is.  Object spread,
    [Object.fromEntries] and [JSON.parse] define own properties and have no
    such exception. *)

Definition protoKey : jsstring := js "__proto__".

Definition objectAssign (key value : jsstring)
  (obj : gmap jsstring jsstring) : gmap jsstring jsstring :=
  if bool_decide (key = protoKey) && negb (bool_decide (is_Some (obj !! key)))
  then obj
  else <[key := value]> obj.

(** The object after [obj[name] = ""] for each of [names] in turn, as the
    [start] handler does on [state.currAttributes]. *)
Definition startAttributes (names : list jsstring)
  (attributes : gmap jsstring jsstring) : gmap jsstring jsstring :=
  foldl (λ attrs name, objectAssign name [] attrs) attributes names.

(** ** Session data (util.ts) and the events a handler produces *)

Record FieldDef := mkFieldDef {
  block_name : jsstring;
  field_name : jsstring
}.

Record WSState := mkWSState {
  nchunks : nat;
  audioBuffer : Buffer;
  transcript : jsstring;
  currAttributes : gmap jsstring jsstring;
  template : list FieldDef;
  webmHeader : option Buffer;
  currTranscriptSize : nat
}.

(** The state every connection starts from. *)
Definition initialState : WSState :=
  {| nchunks := 0; audioBuffer := []; transcript := [];
     currAttributes := ∅; template := []; webmHeader := None;
     currTranscriptSize := 0 |}.

Definition set_nchunks (n : nat) (s : WSState) : WSState :=
  {| nchunks := n; audioBuffer := audioBuffer s; transcript := transcript s;
     currAttributes := currAttributes s; template := template s;
     webmHeader := webmHeader s; currTranscriptSize := currTranscriptSize s |}.

Definition set_audioBuffer (b : Buffer) (s : WSState) : WSState :=
  {| nchunks := nchunks s; audioBuffer := b; transcript := transcript s;
     currAttributes := currAttributes s; template := template s;
     webmHeader := webmHeader s; currTranscriptSize := currTranscriptSize s |}.

Definition set_transcript (t : jsstring) (s : WSState) : WSState :=
  {| nchunks := nchunks s; audioBuffer := audioBuffer s; transcript := t;
     currAttributes := currAttributes s; template := template s;
     webmHeader := webmHeader s; currTranscriptSize := currTranscriptSize s |}.

Definition set_currAttributes (a : gmap jsstring jsstring) (s : WSState)
  : WSState :=
  {| nchunks := nchunks s; audioBuffer := audioBuffer s;
     transcript := transcript s; currAttributes := a; template := template s;
     webmHeader := webmHeader s; currTranscriptSize := currTranscriptSize s |}.

Definition set_template (t : list FieldDef) (s : WSState) : WSState :=
  {| nchunks := nchunks s; audioBuffer := audioBuffer s;
     transcript := transcript s; currAttributes := currAttributes s;
     template := t; webmHeader := webmHeader s;
     currTranscriptSize := currTranscriptSize s |}.

Definition set_webmHeader (h : option Buffer) (s : WSState) : WSState :=
  {| nchunks := nchunks s; audioBuffer := audioBuffer s;
     transcript := transcript s; currAttributes := currAttributes s;
     template := template s; webmHeader := h;
     currTranscriptSize := currTranscriptSize s |}.

Definition set_currTranscriptSize (n : nat) (s : WSState) : WSState :=
  {| nchunks := nchunks s; audioBuffer := audioBuffer s;
     transcript := transcript s; currAttributes := currAttributes s;
     template := template s; webmHeader := webmHeader s;
     currTranscriptSize := n |}.

(** The constants imported from util.ts. *)
Record Config := mkConfig {
  MIN_CHUNK_NUM : nat;
  MIN_WORD_COUNT : nat;
  MAX_AUDIO_BUFFER_SIZE : nat
}.

Inductive ErrorCode :=
| bad_json
| bad_start_payload
| audio_buffer_overflow
| transcription_failed
| final_processing_failed.

(** What the server writes to the socket. *)
Inductive ServerMsg :=
| MsgError (error : ErrorCode)
| MsgStarted (template_size : nat)
| MsgUpdate (corrected_audio : jsstring)
    (attributes : gmap jsstring jsstring) (error : option ErrorCode).

(** Observable steps of a handler, in program order. *)
Inductive Event :=
| Send (m : ServerMsg)                       (* socket.send *)
| QueueAdd (captureBuffer : Buffer)          (* queue.add *)
| SetAudioBuffer (b : Buffer)                (* state.audioBuffer = b *)
| WhisperFetch (attempt : nat) (b : Buffer)  (* fetch(WHISPER_API_URL) *)
| Sleep (ms : nat)                           (* setTimeout *)
| ReviseRequest (rawText : jsstring)
| ExtractRequest (tpl : list FieldDef)
    (current_values : gmap jsstring jsstring) (transcript_segment : jsstring)
| FinalSweep (fullTranscript : jsstring) (tpl : list FieldDef)
    (candidateAttributes : gmap jsstring jsstring)
                                   (* parseFinalAttributes is entered *)
| FinalRequest (tpl : list FieldDef)
    (current_values : gmap jsstring jsstring) (full_transcript : jsstring).

(** ** The outside world

    Answers of the two external services, as the code sees them.  An answer
    is a function of the request (and, for the speech service, of the attempt
    number); the theorems below hold for every such function.  The answers
    have the types the code declares for them: a transcription, a corrected
    text and an attribute value are strings. *)

Inductive JsonBody :=
| JsonRejects (message : jsstring)           (* res.json() rejects *)
| JsonText (text : option jsstring).         (* payload.text *)

Inductive FetchOutcome :=
| FetchRejects (message : jsstring)          (* network failure *)
| Response (status : nat) (body : jsstring) (payload : JsonBody).

(** A chat completion: the call rejects, there is no content, the content is
    not JSON, or it parses to an object whose well-known key holds [a]. *)
Inductive Completion (A : Type) :=
| CallRejects (message : jsstring)
| NoContent
| BadJson
| Parsed (a : A).
Arguments CallRejects {A} message.
Arguments NoContent {A}.
Arguments BadJson {A}.
Arguments Parsed {A} a.

Record Services := mkServices {
  (** the variance test of [hasVoiceActivity], computed in floating point *)
  varianceAbove100 : Buffer → bool;
  (** the speech-to-text service, per buffer and attempt number *)
  whisperFetch : Buffer → nat → FetchOutcome;
  (** [correctedText] of the correction prompt *)
  reviseModel : jsstring → Completion (option jsstring);
  (** [parsedAttributes] of the incremental extraction prompt *)
  extractModel : list FieldDef → gmap jsstring jsstring → jsstring →
                 Completion (option (gmap jsstring jsstring));
  (** [finalAttributes] of the final extraction prompt *)
  finalModel : list FieldDef → gmap jsstring jsstring → jsstring →
               Completion (option (gmap jsstring jsstring))
}.

(** ** Handlers as state-and-trace computations that may throw *)

Inductive Result (A : Type) :=
| Ok (a : A)
| Throw (message : jsstring).
Arguments Ok {A} a.
Arguments Throw {A} message.

Definition M (A : Type) : Type := WSState → Result A * WSState * list Event.

Global Instance M_ret : MRet M := λ A (a : A) s, (Ok a, s, []).

Global Instance M_bind : MBind M := λ A B (k : A → M B) (m : M A) s,
  match m s with
  | (Ok a, s1, t1) => let '(r, s2, t2) := k a s1 in (r, s2, t1 ++ t2)
  | (Throw e, s1, t1) => (Throw e, s1, t1)
  end.

Definition throw {A} (message : jsstring) : M A := λ s, (Throw message, s, []).

(** [try { body } catch { handler }]. *)
Definition tryCatch {A} (body : M A) (handler : jsstring → M A) : M A := λ s,
  match body s with
  | (Ok a, s1, t1) => (Ok a, s1, t1)
  | (Throw e, s1, t1) => let '(r, s2, t2) := handler e s1 in (r, s2, t1 ++ t2)
  end.

Definition getState : M WSState := λ s, (Ok s, s, []).
Definition modify (f : WSState → WSState) : M unit := λ s, (Ok tt, f s, []).
Definition emit (e : Event) : M unit := λ s, (Ok tt, s, [e]).
Definition send (m : ServerMsg) : M unit := emit (Send m).

(** Assignments to [state.audioBuffer] are logged. *)
Definition assignAudioBuffer (b : Buffer) : M unit := λ s,
  (Ok tt, set_audioBuffer b s, [SetAudioBuffer b]).

(** ** transcription.ts: header check, voice gate, transcription client *)

Module Transcription.
Import JsString.

Definition MIN_AUDIO_SIZE_BYTES : nat := 1000.
Definition MAX_RETRIES : nat := 2.

(** [data.readUInt32BE(0)], defined when four bytes are there. *)
Definition readUInt32BE (data : Buffer) : option N :=
  match data with
  | b0 :: b1 :: b2 :: b3 :: _ =>
      Some (N.lor (N.shiftl (Byte.to_N b0) 24)
             (N.lor (N.shiftl (Byte.to_N b1) 16)
               (N.lor (N.shiftl (Byte.to_N b2) 8) (Byte.to_N b3))))
  | _ => None
  end.

Definition checkWebMIntegrity (data : Buffer) : bool :=
  (4 <=? length data) &&
  match readUInt32BE data with
  | Some v => (v =? 0x1a45dfa3)%N
  | None => false
  end.

(** The size test is as in the source; the variance test on the first 1000
    bytes is floating-point arithmetic and is taken from [Services]. *)
Definition hasVoiceActivity (svc : Services) (buffer : Buffer) : bool :=
  if length buffer <? MIN_AUDIO_SIZE_BYTES then false
  else varianceAbove100 svc buffer.

Definition decimal (n : nat) : jsstring :=
  js (NilZero.string_of_uint (Nat.to_uint n)).

(** The message of [new Error(`Whisper API error ${res.status}: ${err}`)]. *)
Definition whisperErrorMessage (status : nat) (err : jsstring) : jsstring :=
  js "Whisper API error " ++ decimal status ++ js ": " ++ err.

(** [res.ok] *)
Definition responseOk (status : nat) : bool :=
  (200 <=? status) && (status <=? 299).

(** One pass through the [try] block: the transcription, or the message of
    the error that reaches the [catch]. *)
Definition whisperAttempt (out : FetchOutcome) : jsstring + jsstring :=
  match out with
  | FetchRejects message => inr message
  | Response status body payload =>
      if negb (responseOk status) then inr (whisperErrorMessage status body)
      else match payload with
           | JsonRejects message => inr message
           | JsonText text => inl (default [] text)
           end
  end.

(** The retry loop [for (let attempt = 1; attempt <= MAX_RETRIES; attempt++)];
    [remaining] counts the iterations left. *)
Fixpoint whisperLoop (svc : Services) (buffer : Buffer)
  (attempt remaining : nat) (lastError : option jsstring) : M jsstring :=
  match remaining with
  | O => throw (default (js "All transcription attempts failed") lastError)
  | S remaining' =>
      emit (WhisperFetch attempt buffer);;
      match whisperAttempt (whisperFetch svc buffer attempt) with
      | inl transcription => mret transcription
      | inr message =>
          if includes message (js "400") then throw message
          else
            (if attempt <? MAX_RETRIES
             then emit (Sleep (2 ^ attempt * 1000))
             else mret tt);;
            whisperLoop svc buffer (S attempt) remaining' (Some message)
      end
  end.

Definition runWhisperOnBuffer (svc : Services) (buffer : Buffer) : M jsstring :=
  if negb (hasVoiceActivity svc buffer) then mret []
  else whisperLoop svc buffer 1 MAX_RETRIES None.

End Transcription.

(** ** parse-gpt.ts: correction, incremental extraction, final sweep *)

Module ParseGpt.
Import JsString.

(** [v && v !== "N/A" && v.trim() !== ""] *)
Definition isInformative (value : jsstring) : bool :=
  negb (bool_decide (value = []))
  && negb (bool_decide (value = js "N/A"))
  && negb (bool_decide (trim value = [])).

Definition newline : N := 10%N.

Definition omittedMarker : jsstring :=
  [newline; newline] ++ js "[... middle section omitted for length ...]"
  ++ [newline; newline].

Definition truncateTranscript (text : jsstring) (maxChars : nat) : jsstring :=
  if length text <=? maxChars then text
  else
    let half := maxChars / 2 in
    let start := slice text 0 (Some (Z.of_nat half)) in
    let end_ := slice text (- Z.of_nat half) None in
    start ++ omittedMarker ++ end_.

Definition reviseTranscription (svc : Services) (rawText : jsstring)
  : M jsstring :=
  if length (trim rawText) <? 15 then mret rawText
  else
    emit (ReviseRequest rawText);;
    match reviseModel svc rawText with
    | CallRejects message => throw message
    | NoContent => mret rawText
    | BadJson => mret rawText
    | Parsed None => mret rawText
    | Parsed (Some correctedText) =>
        let revised := trim correctedText in
        if bool_decide (revised = []) then mret rawText else mret revised
    end.

Definition extractAttributesFromText (svc : Services)
  (correctedText : jsstring) (tpl : list FieldDef)
  (currAttrs : gmap jsstring jsstring) : M (gmap jsstring jsstring) :=
  if (length (trim correctedText) <? 20) || (length tpl =? 0) then mret ∅
  else
    emit (ExtractRequest tpl currAttrs correctedText);;
    match extractModel svc tpl currAttrs correctedText with
    | CallRejects message => throw message
    | NoContent => mret ∅
    | BadJson => mret ∅
    | Parsed parsedAttributes =>
        mret (filter (λ kv : jsstring * jsstring, isInformative kv.2)
                (default ∅ parsedAttributes))
    end.

(** The merge loop of [parseFinalAttributes] over
    [Object.entries(finalAttrs)], starting from a copy of the candidates. *)
Definition mergeFinalAttributes
  (candidateAttributes finalAttrs : gmap jsstring jsstring)
  : gmap jsstring jsstring :=
  map_fold
    (λ field value merged,
       if isInformative value
       then (if bool_decide (merged !! field = Some value) then merged
             else objectAssign field value merged)
       else merged)
    candidateAttributes finalAttrs.

Definition parseFinalAttributes (svc : Services) (fullTranscript : jsstring)
  (tpl : list FieldDef) (candidateAttributes : gmap jsstring jsstring)
  : M (gmap jsstring jsstring) :=
  emit (FinalSweep fullTranscript tpl candidateAttributes);;
  if length (trim fullTranscript) <? 30 then mret candidateAttributes
  else
    let truncated := truncateTranscript fullTranscript 6000 in
    emit (FinalRequest tpl candidateAttributes truncated);;
    match finalModel svc tpl candidateAttributes truncated with
    | CallRejects _ => mret candidateAttributes
    | NoContent => mret candidateAttributes
    | BadJson => mret candidateAttributes
    | Parsed finalAttributes =>
        mret (mergeFinalAttributes candidateAttributes
                (default ∅ finalAttributes))
    end.

(** [candidateAttributes] is a reference to the object the session holds,
    and the function reads it twice: for the request, before the model call
    is awaited, and for [{ ...candidateAttributes }] or
    [return candidateAttributes], after it.  A [start] handled in between
    assigns [""] under [names] in that very object.  This is the function
    with those assignments made while it waits; with no name assigned it is
    [parseFinalAttributes]. *)
Definition parseFinalAttributesAmid (svc : Services) (names : list jsstring)
  (fullTranscript : jsstring) (tpl : list FieldDef)
  (candidateAttributes : gmap jsstring jsstring)
  : M (gmap jsstring jsstring) :=
  let laterCandidates := startAttributes names candidateAttributes in
  emit (FinalSweep fullTranscript tpl candidateAttributes);;
  if length (trim fullTranscript) <? 30 then mret laterCandidates
  else
    let truncated := truncateTranscript fullTranscript 6000 in
    emit (FinalRequest tpl candidateAttributes truncated);;
    match finalModel svc tpl candidateAttributes truncated with
    | CallRejects _ => mret laterCandidates
    | NoContent => mret laterCandidates
    | BadJson => mret laterCandidates
    | Parsed finalAttributes =>
        mret (mergeFinalAttributes laterCandidates
                (default ∅ finalAttributes))
    end.

End ParseGpt.

(** The earlier revision of parse-gpt.ts that is still in the tree: it sends
    [fullTranscript.slice(-2000)] and merges with the test
    [val && val !== "N/A" && val.trim() && val !== merged[attr]]. *)

Module ParseGptEarlier.
Import JsString.

Definition mergeFinalAttributes
  (candidateAttributes finalAttrs : gmap jsstring jsstring)
  : gmap jsstring jsstring :=
  map_fold
    (λ attr val merged,
       if negb (bool_decide (val = []))
          && negb (bool_decide (val = js "N/A"))
          && negb (bool_decide (trim val = []))
          && negb (bool_decide (merged !! attr = Some val))
       then objectAssign attr val merged
       else merged)
    candidateAttributes finalAttrs.

Definition parseFinalAttributes (svc : Services) (fullTranscript : jsstring)
  (tpl : list FieldDef) (candidateAttributes : gmap jsstring jsstring)
  : M (gmap jsstring jsstring) :=
  emit (FinalSweep fullTranscript tpl candidateAttributes);;
  if length (trim fullTranscript) <? 50 then mret candidateAttributes
  else
    let text := slice fullTranscript (-2000) None in
    emit (FinalRequest tpl candidateAttributes text);;
    match finalModel svc tpl candidateAttributes text with
    | CallRejects _ => mret candidateAttributes
    | NoContent => mret candidateAttributes
    | BadJson => mret candidateAttributes
    | Parsed finalAttributes =>
        mret (mergeFinalAttributes candidateAttributes
                (default ∅ finalAttributes))
    end.

End ParseGptEarlier.

(** ** app.ts: the per-connection message handler *)

Module App.
Import JsString Stitcher Transcription ParseGpt.

(** A parsed client frame.  The value of a block in a [start] message is
    [Some fields] when it is an array and [None] when it is anything else.
    An element of the array is [Some name] when [String(field)] returns
    [name], and [None] when [String(field)] throws (an object whose
    [toString] is not callable).  [TextNull] is the JSON text [null], the
    one parsed value on which reading [msg.action] throws; [TextOther] is
    any other text that is neither a [start] nor a [stop]. *)
Inductive ClientFrame :=
| TextBadJson
| TextNull
| TextStart (blocks : list (jsstring * option (list (option jsstring))))
| TextStop
| TextOther
| Binary (chunk : Buffer).

(** [state.template.push(...); state.currAttributes[name] = ""] for every
    field of one block. *)
Fixpoint initFields (temp_block : jsstring) (block : list (option jsstring))
  : M unit :=
  match block with
  | [] => mret tt
  | None :: _ => throw (js "Cannot convert object to primitive value")
  | Some name :: rest =>
      modify (λ s, set_template
                     (template s ++ [mkFieldDef temp_block name]) s);;
      modify (λ s, set_currAttributes
                     (objectAssign name [] (currAttributes s)) s);;
      initFields temp_block rest
  end.

(** The loop over [Object.keys(msg.blocks ?? {})]. *)
Fixpoint initBlocks
  (blocks : list (jsstring * option (list (option jsstring)))) : M unit :=
  match blocks with
  | [] => mret tt
  | (_, None) :: rest => initBlocks rest
  | (temp_block, Some block) :: rest =>
      initFields temp_block block;; initBlocks rest
  end.

Definition handleStart
  (blocks : list (jsstring * option (list (option jsstring)))) : M unit :=
  tryCatch
    (s ← getState;
     (if length (template s) =? 0 then initBlocks blocks else mret tt);;
     s ← getState;
     send (MsgStarted (length (template s))))
    (λ _, send (MsgError bad_start_payload)).

(** [!checkWebMIntegrity(data) && state.webmHeader ? concat : data] *)
Definition repairHeader (header : option Buffer) (data : Buffer) : Buffer :=
  match header with
  | Some h => if negb (checkWebMIntegrity data) then h ++ data else data
  | None => data
  end.

(** The [stop] branch, entered once [queue.onIdle()] has resolved. *)
Definition handleStop (cfg : Config) (svc : Services) : M unit :=
  s ← getState;
  let remainingData := audioBuffer s in
  if length remainingData =? 0
  then send (MsgUpdate (transcript s) (currAttributes s) None)
  else
    let remainingData := repairHeader (webmHeader s) remainingData in
    assignAudioBuffer [];;
    modify (set_nchunks 0);;
    modify (set_webmHeader None);;
    tryCatch
      ((if negb (hasVoiceActivity svc remainingData) then mret tt
        else
          rawFinalTranscription ← runWhisperOnBuffer svc remainingData;
          if MIN_WORD_COUNT cfg <=? wordCount rawFinalTranscription
          then
            finalTranscription ←
              reviseTranscription svc rawFinalTranscription;
            s ← getState;
            let '(merged, growth) :=
              appendWithOverlap (transcript s) finalTranscription in
            modify (set_transcript merged);;
            modify (set_currTranscriptSize growth)
          else mret tt);;
       s ← getState;
       attrs ← parseFinalAttributes svc (transcript s) (template s)
                 (currAttributes s);
       modify (set_currAttributes attrs);;
       s ← getState;
       send (MsgUpdate (transcript s) (currAttributes s) None))
      (λ _,
         s ← getState;
         send (MsgUpdate (transcript s) (currAttributes s)
                 (Some final_processing_failed))).

(** The blocks of the [try] statement of [handleStop], named for the proofs:
    the body is [transcribeResidue] followed by [sweepAndRespond], the
    [catch] is [respondFailed]. *)
Definition sweepAndRespond (svc : Services) : M unit :=
  s ← getState;
  attrs ← parseFinalAttributes svc (transcript s) (template s)
            (currAttributes s);
  modify (set_currAttributes attrs);;
  s ← getState;
  send (MsgUpdate (transcript s) (currAttributes s) None).

Definition respondFailed : jsstring → M unit := λ _,
  s ← getState;
  send (MsgUpdate (transcript s) (currAttributes s)
          (Some final_processing_failed)).

Definition transcribeResidue (cfg : Config) (svc : Services)
  (remainingData : Buffer) : M unit :=
  if negb (hasVoiceActivity svc remainingData) then mret tt
  else
    rawFinalTranscription ← runWhisperOnBuffer svc remainingData;
    if MIN_WORD_COUNT cfg <=? wordCount rawFinalTranscription
    then
      finalTranscription ← reviseTranscription svc rawFinalTranscription;
      s ← getState;
      let '(merged, growth) :=
        appendWithOverlap (transcript s) finalTranscription in
      modify (set_transcript merged);;
      modify (set_currTranscriptSize growth)
    else mret tt.

(** The callback handed to [queue.add]. *)
Definition transcriptionJob (cfg : Config) (svc : Services)
  (captureBuffer : Buffer) : M unit :=
  tryCatch
    (transcription ← runWhisperOnBuffer svc captureBuffer;
     revisedTranscript ← reviseTranscription svc transcription;
     if wordCount revisedTranscript <? MIN_WORD_COUNT cfg then mret tt
     else
       s ← getState;
       let prevTranscriptSize := currTranscriptSize s in
       let '(merged, growth) :=
         appendWithOverlap (transcript s) revisedTranscript in
       modify (set_transcript merged);;
       modify (set_currTranscriptSize growth);;
       s ← getState;
       let currTranscript :=
         slice (transcript s)
           (- Z.of_nat (prevTranscriptSize + currTranscriptSize s)) None in
       extractedAttributes ←
         extractAttributesFromText svc currTranscript (template s)
           (currAttributes s);
       modify (λ s, set_currAttributes
                      (extractedAttributes ∪ currAttributes s) s);;
       s ← getState;
       send (MsgUpdate currTranscript (currAttributes s) None))
    (λ _, send (MsgError transcription_failed)).

(** *** Awaits

    [handleStop] and [transcriptionJob] above are the handlers when nothing
    else runs while they wait.  In the server a handler that awaits gives
    way: further frames are handled and other jobs run (the queue runs four
    at a time), and when the handler resumes the session state is what they
    left.  An [Interference] says, for each await of a handler, what
    happened to the state in the meantime; a statement proved for every
    interference holds for every interleaving.  The awaited calls do not
    read the session state, so it is enough to apply the interference when
    the call has returned or thrown.

    One object is shared across an await: [stop] passes
    [state.currAttributes] itself to the final sweep, which reads it again
    when the model has answered.  The only code that writes into that
    object, rather than replacing it, is the loop of [start]; [inPlace] are
    the names it assigned there in the meantime. *)

Record Interference := {
  between :> nat → WSState → WSState;
  inPlace : list jsstring
}.

Definition undisturbed : Interference :=
  {| between := λ _ s, s; inPlace := [] |}.

Definition await {A} (ι : Interference) (k : nat) (m : M A) : M A := λ s,
  let '(r, s1, t) := m s in (r, ι k s1, t).

(** The [try] block of [stop] up to the final sweep; awaits 0 and 1. *)
Definition transcribeResidueAmid (ι : Interference) (cfg : Config)
  (svc : Services) (remainingData : Buffer) : M unit :=
  if negb (hasVoiceActivity svc remainingData) then mret tt
  else
    rawFinalTranscription ← await ι 0 (runWhisperOnBuffer svc remainingData);
    if MIN_WORD_COUNT cfg <=? wordCount rawFinalTranscription
    then
      finalTranscription ←
        await ι 1 (reviseTranscription svc rawFinalTranscription);
      s ← getState;
      let '(merged, growth) :=
        appendWithOverlap (transcript s) finalTranscription in
      modify (set_transcript merged);;
      modify (set_currTranscriptSize growth)
    else mret tt.

(** The final sweep and the response; await 2.  The arguments of the sweep
    are read before the await, its result is stored after it. *)
Definition sweepAndRespondAmid (ι : Interference) (svc : Services) : M unit :=
  s ← getState;
  attrs ← await ι 2 (parseFinalAttributesAmid svc (inPlace ι) (transcript s)
                       (template s) (currAttributes s));
  modify (set_currAttributes attrs);;
  s ← getState;
  send (MsgUpdate (transcript s) (currAttributes s) None).

(** The [stop] branch among other handlers. *)
Definition handleStopAmid (ι : Interference) (cfg : Config) (svc : Services)
  : M unit :=
  s ← getState;
  let remainingData := audioBuffer s in
  if length remainingData =? 0
  then send (MsgUpdate (transcript s) (currAttributes s) None)
  else
    let remainingData := repairHeader (webmHeader s) remainingData in
    assignAudioBuffer [];;
    modify (set_nchunks 0);;
    modify (set_webmHeader None);;
    tryCatch
      (transcribeResidueAmid ι cfg svc remainingData;;
       sweepAndRespondAmid ι svc)
      respondFailed.

(** The callback handed to [queue.add], among other handlers; awaits 0, 1
    and 2. *)
Definition transcriptionJobAmid (ι : Interference) (cfg : Config)
  (svc : Services) (captureBuffer : Buffer) : M unit :=
  tryCatch
    (transcription ← await ι 0 (runWhisperOnBuffer svc captureBuffer);
     revisedTranscript ← await ι 1 (reviseTranscription svc transcription);
     if wordCount revisedTranscript <? MIN_WORD_COUNT cfg then mret tt
     else
       s ← getState;
       let prevTranscriptSize := currTranscriptSize s in
       let '(merged, growth) :=
         appendWithOverlap (transcript s) revisedTranscript in
       modify (set_transcript merged);;
       modify (set_currTranscriptSize growth);;
       s ← getState;
       let currTranscript :=
         slice (transcript s)
           (- Z.of_nat (prevTranscriptSize + currTranscriptSize s)) None in
       extractedAttributes ←
         await ι 2 (extractAttributesFromText svc currTranscript (template s)
                      (currAttributes s));
       modify (λ s, set_currAttributes
                      (extractedAttributes ∪ currAttributes s) s);;
       s ← getState;
       send (MsgUpdate currTranscript (currAttributes s) None))
    (λ _, send (MsgError transcription_failed)).

(** A binary frame. *)
Definition handleBinary (cfg : Config) (svc : Services) (chunk : Buffer)
  : M unit :=
  s ← getState;
  if MAX_AUDIO_BUFFER_SIZE cfg <? length (audioBuffer s) + length chunk
  then send (MsgError audio_buffer_overflow)
  else
    (if negb (bool_decide (is_Some (webmHeader s))) && checkWebMIntegrity chunk
     then modify (set_webmHeader (Some chunk))
     else mret tt);;
    s ← getState;
    assignAudioBuffer (audioBuffer s ++ chunk);;
    modify (λ s, set_nchunks (S (nchunks s)) s);;
    s ← getState;
    if nchunks s <? MIN_CHUNK_NUM cfg then mret tt
    else if negb (hasVoiceActivity svc (audioBuffer s))
    then assignAudioBuffer [];; modify (set_nchunks 0)
    else
      (match webmHeader s with
       | Some h =>
           if negb (checkWebMIntegrity (audioBuffer s))
           then assignAudioBuffer (h ++ audioBuffer s)
           else mret tt
       | None => mret tt
       end);;
      s ← getState;
      let captureBuffer := audioBuffer s in
      assignAudioBuffer [];;
      modify (set_nchunks 0);;
      emit (QueueAdd captureBuffer).

(** [socket.on("message", ...)] up to the [await queue.onIdle()] of [stop],
    which the session below resolves.  On [TextNull] the handler throws at
    [msg.action], outside every [try]: nothing is sent and the state is left
    as it is.  The rejection is unhandled; if the runtime ends the process
    on it, the connection ends with that frame. *)
Definition onMessage (cfg : Config) (svc : Services) (frame : ClientFrame)
  : M unit :=
  match frame with
  | TextBadJson => send (MsgError bad_json)
  | TextNull => throw (js "Cannot read properties of null (reading 'action')")
  | TextStart blocks => handleStart blocks
  | TextStop => handleStop cfg svc
  | TextOther => mret tt
  | Binary chunk => handleBinary cfg svc chunk
  end.

(** *** A connection

    Frames are handled in arrival order.  A queued job runs to completion at
    some later step; [stop] first waits for every queued job.  Each handler
    and each job is one step: the interleaving of two jobs inside their
    awaits is not part of this model, it is what [handleStopAmid] and
    [transcriptionJobAmid] above are for.  A run of the server that ends at
    a frame is a run of this model cut at that step. *)

Record Session := mkSession {
  state : WSState;
  pending : list Buffer;          (* jobs added to the queue, not yet run *)
  log : list Event
}.

Definition newSession : Session :=
  {| state := initialState; pending := []; log := [] |}.

Inductive Step :=
| Deliver (frame : ClientFrame)
| Complete (job : nat).           (* the job at this position of the queue *)

Definition queued (tr : list Event) : list Buffer :=
  omap (λ e, match e with QueueAdd b => Some b | _ => None end) tr.

Definition runHandler (m : M unit) (σ : Session) : Session :=
  let '(_, s, tr) := m (state σ) in
  {| state := s; pending := pending σ ++ queued tr; log := log σ ++ tr |}.

(** [await queue.onIdle()]: the queued jobs, oldest first. *)
Definition drain (cfg : Config) (svc : Services) (σ : Session) : Session :=
  let σ' := foldl (λ acc job, runHandler (transcriptionJob cfg svc job) acc)
              σ (pending σ) in
  {| state := state σ'; pending := []; log := log σ' |}.

Definition step (cfg : Config) (svc : Services) (σ : Session) (st : Step)
  : Session :=
  match st with
  | Deliver TextStop => runHandler (handleStop cfg svc) (drain cfg svc σ)
  | Deliver frame => runHandler (onMessage cfg svc frame) σ
  | Complete i =>
      match pending σ !! i with
      | Some job =>
          runHandler (transcriptionJob cfg svc job)
            {| state := state σ; pending := delete i (pending σ);
               log := log σ |}
      | None => σ
      end
  end.

Definition run (cfg : Config) (svc : Services) (steps : list Step) : Session :=
  foldl (step cfg svc) newSession steps.

End App.

(** ** Statements used in Part II *)

(** The merge policy of the final sweep, for one candidate map, one map
    returned by the model and one result: a value replaces the candidate only
    if it is non-empty and not ["N/A"]; a field that is absent from the model
    output, empty or ["N/A"] keeps its candidate. *)
Definition mergePolicy (candidateAttributes finalAttrs merged
  : gmap jsstring jsstring) : Prop :=
  ∀ field : jsstring,
    (merged !! field ≠ candidateAttributes !! field →
     ∃ value, finalAttrs !! field = Some value ∧ value ≠ [] ∧
              value ≠ js "N/A" ∧ merged !! field = Some value)
    ∧ (finalAttrs !! field = None ∨ finalAttrs !! field = Some [] ∨
       finalAttrs !! field = Some (js "N/A") →
       merged !! field = candidateAttributes !! field).

(** A transcript whose opening sentence is followed by 2000 further code
    units. *)
Definition longTranscript : jsstring :=
  js "My name is Ann Lee. " ++ repeat 120%N 2000.

(** Projections of the result of running a handler. *)
Definition resultOf {A} (x : Result A * WSState * list Event) : Result A :=
  x.1.1.
Definition stateOf {A} (x : Result A * WSState * list Event) : WSState :=
  x.1.2.
Definition traceOf {A} (x : Result A * WSState * list Event) : list Event :=
  x.2.

(** The messages written to the socket, in order. *)
Definition sent (tr : list Event) : list ServerMsg :=
  omap (λ e, match e with Send m => Some m | _ => None end) tr.

(** Requests to the two external services (and the waits between them). *)
Definition isServiceCall (e : Event) : bool :=
  match e with
  | WhisperFetch _ _ | Sleep _ | ReviseRequest _
  | ExtractRequest _ _ _ | FinalRequest _ _ _ => true
  | _ => false
  end.

Definition fetches (tr : list Event) : list nat :=
  omap (λ e, match e with
             | WhisperFetch attempt _ => Some attempt
             | _ => None
             end) tr.

(** [m] leaves the component [f] of the session state as it found it. *)
Definition preserves {A X} (f : WSState → X) (m : M A) : Prop :=
  ∀ s, f (stateOf (m s)) = f s.

(** Every event of [m] satisfies [P]. *)
Definition emitsOnly {A} (P : Event → bool) (m : M A) : Prop :=
  ∀ s, forallb P (traceOf (m s)) = true.

(** The variance test of [hasVoiceActivity] in exact arithmetic, for the
    recordings used below.  With [n] the sample size, [sum] the sum of the
    sampled bytes and [sq] the sum of their squares, the variance
    [(sq - sum * sum / n) / n] exceeds 100 exactly when
    [n * sq - sum * sum > 100 * n * n].  The code computes it in double
    precision; the recordings below are far from the threshold. *)
Definition sampleBytes (buffer : Buffer) : list Z :=
  (λ b, Z.of_N (Byte.to_N b)) <$> take 1000 buffer.

Definition varianceAbove100Exact (buffer : Buffer) : bool :=
  let sample := sampleBytes buffer in
  let n := Z.of_nat (length sample) in
  let sum := foldr Z.add 0%Z sample in
  let sq := foldr (λ b acc, b * b + acc)%Z 0%Z sample in
  (100 * n * n <? n * sq - sum * sum)%Z.

(** Test data for the transcription client: a second of loud audio, and a
    speech service that answers 401 to every request. *)
Definition loudAudio : Buffer := repeat "255"%byte 500 ++ repeat "000"%byte 500.

Definition unauthorizedServices : Services :=
  {| varianceAbove100 := varianceAbove100Exact;
     whisperFetch := λ _ _, Response 401 (js "Unauthorized") (JsonRejects []);
     reviseModel := λ _, NoContent;
     extractModel := λ _ _ _, NoContent;
     finalModel := λ _ _ _, NoContent |}.

(** *** Shapes of a [stop] trace *)

(** Every message on the socket is preceded by a run of the final sweep. *)
Definition sweepBeforeEveryResponse (tr : list Event) : Prop :=
  ∀ pre m post, tr = pre ++ Send m :: post →
    ∃ t tpl c, FinalSweep t tpl c ∈ pre.

(** What [stop] does after the residue was processed without an exception,
    leaving state [s1] and having made the service calls [calls]: it runs
    the final sweep over the transcript, the template and the attributes the
    session holds at that moment, and when the sweep has returned it stores
    the result and sends the one response, without an error marker.  The
    result is that of the sweep on an attributes object in which the names
    [inPlace ι] were assigned while the model was awaited. *)
Definition sweptResponse (svc : Services) (ι : App.Interference)
  (s1 : WSState) (calls : list Event)
  (out : Result unit * WSState * list Event) : Prop :=
  ∃ result post,
    resultOf (ParseGpt.parseFinalAttributesAmid svc (App.inPlace ι)
                (transcript s1) (template s1) (currAttributes s1) s1)
    = Ok result
    ∧ out = (Ok tt, set_currAttributes result (App.between ι 2 s1),
             SetAudioBuffer [] :: calls
             ++ FinalSweep (transcript s1) (template s1) (currAttributes s1)
                :: post
             ++ [Send (MsgUpdate (transcript (App.between ι 2 s1)) result
                         None)])
    ∧ forallb isServiceCall post = true.

(** What [stop] does after processing the residue threw, in state [s1] and
    after the service calls [calls]: no sweep, and the one response carries
    the marker [final-processing-failed]. *)
Definition failedResponse (s1 : WSState) (calls : list Event)
  (out : Result unit * WSState * list Event) : Prop :=
  out = (Ok tt, s1,
         SetAudioBuffer [] :: calls
         ++ [Send (MsgUpdate (transcript s1) (currAttributes s1)
                     (Some final_processing_failed))]).

(** Processing the residue [d] fails with [e]: the voice gate lets it pass
    and the transcription call throws [e], or the transcription has enough
    words and the correction call throws [e]. *)
Definition residueFails (cfg : Config) (svc : Services) (d : Buffer)
  (e : jsstring) : Prop :=
  Transcription.hasVoiceActivity svc d = true
  ∧ (resultOf (Transcription.runWhisperOnBuffer svc d initialState) = Throw e
     ∨ ∃ raw,
         resultOf (Transcription.runWhisperOnBuffer svc d initialState)
         = Ok raw
         ∧ MIN_WORD_COUNT cfg ≤ JsString.wordCount raw
         ∧ resultOf (ParseGpt.reviseTranscription svc raw initialState)
           = Throw e).

(** *** A small configuration and a cooperative outside world, for running
    sessions *)

Definition testConfig : Config :=
  {| MIN_CHUNK_NUM := 1; MIN_WORD_COUNT := 3; MAX_AUDIO_BUFFER_SIZE := 1000 |}.

Definition spokenText : jsstring :=
  js "my name is Ann Lee and I was born in Perth".

Definition answeringServices : Services :=
  {| varianceAbove100 := varianceAbove100Exact;
     whisperFetch := λ _ _, Response 200 [] (JsonText (Some spokenText));
     reviseModel := λ _, NoContent;
     extractModel := λ _ _ _, NoContent;
     finalModel := λ _ _ _, NoContent |}.

(** Blocks whose fields all have a string form, as a [start] payload. *)
Definition plainBlocks (blocks : list (jsstring * option (list jsstring)))
  : list (jsstring * option (list (option jsstring))) :=
  (λ b : jsstring * option (list jsstring),
     (b.1, match b.2 with
           | Some block => Some (fmap (M:=list) Some block)
           | None => None
           end)) <$> blocks.

Definition startBlocks : list (jsstring * option (list jsstring)) :=
  [(js "id", Some [js "name"; js "dob"])].

Definition startFrame : App.ClientFrame :=
  App.TextStart (plainBlocks startBlocks).

(** A first chunk that carries the container header, 1000 bytes long.  Its
    bytes vary too little for the voice gate (variance 49.2). *)
Definition webmChunk : Buffer := [x1a; x45; xdf; xa3] ++ repeat "200"%byte 996.

(** A first chunk with the container header that passes the voice gate. *)
Definition voicedChunk : Buffer :=
  [x1a; x45; xdf; xa3] ++ repeat "255"%byte 498 ++ repeat "000"%byte 498.

(** The state of a connection after [start], one voiced chunk, and the job
    that transcribes it. *)
Definition sessionBeforeStop : App.Session :=
  App.drain testConfig answeringServices
    (App.run testConfig answeringServices
       [App.Deliver startFrame; App.Deliver (App.Binary voicedChunk)]).

(** The state of a connection whose first voiced chunk has been cut off as a
    segment: the header is stored and the buffer is empty again. *)
Definition headerKnownState : WSState :=
  App.state (App.run testConfig answeringServices
               [App.Deliver (App.Binary voicedChunk)]).

(** A configuration that cuts a segment after two chunks, and a connection
    under it: [start], two chunks, the job that transcribes them, and a
    third chunk that is still in the buffer. *)
Definition pairConfig : Config :=
  {| MIN_CHUNK_NUM := 2; MIN_WORD_COUNT := 3; MAX_AUDIO_BUFFER_SIZE := 3000 |}.

Definition sessionWithResidue : App.Session :=
  App.run pairConfig answeringServices
    [App.Deliver startFrame; App.Deliver (App.Binary voicedChunk);
     App.Deliver (App.Binary loudAudio); App.Complete 0;
     App.Deliver (App.Binary loudAudio)].

(** *** The buffer bound, as a property of a log *)

(** No assignment to [state.audioBuffer] stores more than the limit. *)
Definition bufferAlwaysWithinLimit (cfg : Config) (tr : list Event) : Prop :=
  ∀ b, SetAudioBuffer b ∈ tr → length b ≤ MAX_AUDIO_BUFFER_SIZE cfg.

(** A full buffer, for the overflow case. *)
Definition fullBufferState : WSState := set_audioBuffer webmChunk initialState.

(** *** The template a [start] message describes *)

(** The fields of the array-valued blocks, in message order. *)
Definition fieldsOf (blocks : list (jsstring * option (list jsstring)))
  : list FieldDef :=
  flat_map (λ b : jsstring * option (list jsstring),
              match b.2 with
              | Some block => mkFieldDef b.1 <$> block
              | None => []
              end) blocks.

(** What [initFields] and [initBlocks] do to the state. *)
Definition startedFrom (s s' : WSState) (fields : list FieldDef) : Prop :=
  template s' = template s ++ fields
  ∧ currAttributes s'
    = startAttributes (field_name <$> fields) (currAttributes s)
  ∧ nchunks s' = nchunks s ∧ audioBuffer s' = audioBuffer s
  ∧ transcript s' = transcript s ∧ webmHeader s' = webmHeader s
  ∧ currTranscriptSize s' = currTranscriptSize s.

(** A [start] payload with a field named ["__proto__"]:
    [{"action": "start", "blocks": {"id": ["__proto__", "name"]}}]. *)
Definition protoBlocks : list (jsstring * option (list jsstring)) :=
  [(js "id", Some [protoKey; js "name"])].

(** A [start] payload whose second field has no string form:
    [{"action": "start", "blocks": {"id": ["name", {"toString": 1}]}}]. *)
Definition brokenBlocks : list (jsstring * option (list (option jsstring))) :=
  [(js "id", Some [Some (js "name"); None])].

(** *** The word-count gate of a transcription job *)

(** The gate as stated for the raw transcription [raw] of a job that took the
    state from [s] to [s'] with trace [tr]: below the minimum nothing grows
    and nothing is sent, and the correction service is asked only at or above
    the minimum. *)
Definition gatedOnRawWordCount (cfg : Config) (raw : jsstring)
  (s s' : WSState) (tr : list Event) : Prop :=
  (JsString.wordCount raw < MIN_WORD_COUNT cfg →
   transcript s' = transcript s ∧ currAttributes s' = currAttributes s
   ∧ sent tr = [])
  ∧ (ReviseRequest raw ∈ tr →
     MIN_WORD_COUNT cfg ≤ JsString.wordCount raw).

(** What a job does once transcription gave [raw] (trace [tw]) and correction
    gave [revised] (trace [trv]): the gate is on the corrected text. *)
Definition gatedOnRevisedWordCount (cfg : Config) (svc : Services)
  (job : Buffer) (s : WSState) (raw : jsstring) (tw : list Event)
  (revised : jsstring) (trv : list Event) : Prop :=
  (15 ≤ length (JsString.trim raw) → ReviseRequest raw ∈ trv)
  ∧ (JsString.wordCount revised < MIN_WORD_COUNT cfg →
     App.transcriptionJob cfg svc job s = (Ok tt, s, tw ++ trv))
  ∧ (MIN_WORD_COUNT cfg ≤ JsString.wordCount revised →
     ∃ merged growth,
       Stitcher.appendWithOverlap (transcript s) revised = (merged, growth)
       ∧ let window :=
           JsString.slice merged
             (- Z.of_nat (currTranscriptSize s + growth)) None in
         let s1 := set_currTranscriptSize growth (set_transcript merged s) in
         ∀ extracted te,
           ParseGpt.extractAttributesFromText svc window (template s)
             (currAttributes s) s1 = (Ok extracted, s1, te) →
           App.transcriptionJob cfg svc job s
           = (Ok tt, set_currAttributes (extracted ∪ currAttributes s) s1,
              tw ++ trv ++ te
              ++ [Send (MsgUpdate window (extracted ∪ currAttributes s)
                          None)])).

(** A speech service that hears two words, and a correction service that
    returns four. *)
Definition mumbledText : jsstring := js "transcription wrld".

Definition rewordingServices : Services :=
  {| varianceAbove100 := varianceAbove100Exact;
     whisperFetch := λ _ _, Response 200 [] (JsonText (Some mumbledText));
     reviseModel := λ _, Parsed (Some (js "transcription of the world"));
     extractModel := λ _ _ _, NoContent;
     finalModel := λ _ _ _, NoContent |}.

(** The job for a chunk of loud audio on a fresh connection, in that world. *)
Definition mumbledJob : Result unit * WSState * list Event :=
  App.transcriptionJob testConfig rewordingServices loudAudio initialState.

(** *** What a transcription job does to the session *)

(** The state once a job has stitched [revised] into the transcript, and the
    window of the transcript its update reports:
    [state.transcript.slice(-(prevTranscriptSize +
    state.currTranscriptSize))]. *)
Definition stitched (s : WSState) (revised : jsstring) : WSState :=
  let '(merged, growth) := Stitcher.appendWithOverlap (transcript s) revised in
  set_currTranscriptSize growth (set_transcript merged s).

Definition updateWindow (s : WSState) (revised : jsstring) : jsstring :=
  let s1 := stitched s revised in
  JsString.slice (transcript s1)
    (- Z.of_nat (currTranscriptSize s + currTranscriptSize s1)) None.

(** A session that has recorded a name, for the attribute properties. *)
Definition namedState : WSState :=
  set_currAttributes {[ js "name" := js "Ann" ]}
    (set_template [mkFieldDef (js "id") (js "name")] initialState).

(** The stored container header, if there is one, passes the header check. *)
Definition headerValid (s : WSState) : Prop :=
  ∀ header, webmHeader s = Some header →
    Transcription.checkWebMIntegrity header = true.

(** *** What a binary frame does to the session *)

(** The state once a chunk that fits has been appended: the header is
    captured from the first chunk that carries one, the chunk joins the
    buffer and the chunk count goes up. *)
Definition bufferedState (s : WSState) (chunk : Buffer) : WSState :=
  let s1 :=
    if negb (bool_decide (is_Some (webmHeader s)))
       && Transcription.checkWebMIntegrity chunk
    then set_webmHeader (Some chunk) s else s in
  set_nchunks (S (nchunks s1)) (set_audioBuffer (audioBuffer s1 ++ chunk) s1).

(** The capture state after a segment has been cut off. *)
Definition resetCapture (s : WSState) : WSState :=
  set_nchunks 0 (set_audioBuffer [] s).

(** ** The transcription cache of the earlier server

    The earlier app.ts keeps finished transcriptions in a [Map] from cache
    key to transcription and time stamp.  A [Map] iterates in insertion
    order and [set] on a key it holds keeps the key's place, so the map is a
    list of entries, one per key; [Date.now()] is an argument. *)

Module AppEarlier.

Definition TRANSCRIPTION_CACHE_TTL : Z := 60000.

Record Cached := mkCached {
  transcription : jsstring;
  timestamp : Z
}.

Abbreviation JsMap := (list (jsstring * Cached)).

(** [map.get(key)] *)
Fixpoint mapGet (key : jsstring) (m : JsMap) : option Cached :=
  match m with
  | [] => None
  | (k, v) :: rest => if bool_decide (k = key) then Some v else mapGet key rest
  end.

(** [map.delete(key)] *)
Definition mapDelete (key : jsstring) (m : JsMap) : JsMap :=
  filter (λ kv : jsstring * Cached, kv.1 ≠ key) m.

(** [map.set(key, value)] *)
Fixpoint mapSet (key : jsstring) (value : Cached) (m : JsMap) : JsMap :=
  match m with
  | [] => [(key, value)]
  | (k, v) :: rest =>
      if bool_decide (k = key) then (k, value) :: rest
      else (k, v) :: mapSet key value rest
  end.

(** The result and the map afterwards. *)
Definition getCachedTranscription (now : Z) (cacheKey : jsstring)
  (transcriptionCache : JsMap) : option jsstring * JsMap :=
  match mapGet cacheKey transcriptionCache with
  | Some cached =>
      if (now - timestamp cached <? TRANSCRIPTION_CACHE_TTL)%Z
      then (Some (transcription cached), transcriptionCache)
      else (None, mapDelete cacheKey transcriptionCache)
  | None => (None, transcriptionCache)
  end.

(** [if (oldestKey)] is false for the empty string. *)
Definition cacheTranscription (now : Z) (cacheKey transcription : jsstring)
  (transcriptionCache : JsMap) : JsMap :=
  let evicted :=
    if 100 <? length transcriptionCache
    then match transcriptionCache with
         | (oldestKey, _) :: _ =>
             if bool_decide (oldestKey ≠ [])
             then mapDelete oldestKey transcriptionCache
             else transcriptionCache
         | [] => transcriptionCache
         end
    else transcriptionCache in
  mapSet cacheKey (mkCached transcription now) evicted.

(** The calls the server makes on the cache, each at its own time, and the
    map after a sequence of them from the empty map. *)
Inductive CacheCall :=
| Store (now : Z) (cacheKey transcription : jsstring)
| Lookup (now : Z) (cacheKey : jsstring).

Definition cacheCall (m : JsMap) (c : CacheCall) : JsMap :=
  match c with
  | Store now cacheKey text => cacheTranscription now cacheKey text m
  | Lookup now cacheKey => (getCachedTranscription now cacheKey m).2
  end.

Definition cacheAfter (calls : list CacheCall) : JsMap :=
  foldl cacheCall [] calls.

(** No transcription is stored under the empty key. *)
Definition storesNamed (calls : list CacheCall) : Prop :=
  ∀ now text, Store now [] text ∉ calls.

(** The [start] branch of the earlier server.  It sends nothing and catches
    nothing: [Object.keys(msg.blocks)] throws when the message has no
    blocks, [block.forEach] when a block is not an array, and
    [field.toString()] when the field has no such method.  The body of the
    loop is the one of the server above.  On a template that is set the
    frame falls through to the final [return]. *)
Fixpoint initBlocks
  (blocks : list (jsstring * option (list (option jsstring)))) : M unit :=
  match blocks with
  | [] => mret tt
  | (_, None) :: _ => throw (js "block.forEach is not a function")
  | (temp_block, Some block) :: rest =>
      App.initFields temp_block block;; initBlocks rest
  end.

Definition handleStart
  (blocks : option (list (jsstring * option (list (option jsstring)))))
  : M unit :=
  s ← getState;
  if length (template s) =? 0
  then match blocks with
       | Some blocks => initBlocks blocks
       | None => throw (js "Cannot convert undefined or null to object")
       end
  else mret tt.

End AppEarlier.

(** A full cache whose oldest key is the empty string. *)
Definition staleCache : AppEarlier.JsMap :=
  ([], AppEarlier.mkCached (js "first") 0)
  :: ((λ i : nat, (Transcription.decimal i,
                   AppEarlier.mkCached (js "later") 0)) <$> seq 0 100).

(** A session whose transcript already ends with what the speech service
    will return, and whose last job added nothing. *)
Definition repeatedState : WSState := set_transcript spokenText initialState.

(** An outside world in which transcription and correction answer and the
    incremental extraction call is rejected. *)
Definition extractionFailsServices : Services :=
  {| varianceAbove100 := varianceAbove100Exact;
     whisperFetch := λ _ _, Response 200 [] (JsonText (Some spokenText));
     reviseModel := λ _, NoContent;
     extractModel := λ _ _ _, CallRejects (js "rate limited");
     finalModel := λ _ _ _, NoContent |}.

(** *** Attributes through a job and a [stop] *)

(** Every entry of [a] is an entry of [a'], and a non-empty value stays
    non-empty. *)
Definition keepsAttributes (a a' : gmap jsstring jsstring) : Prop :=
  ∀ field value, a !! field = Some value →
    ∃ value', a' !! field = Some value' ∧ (value ≠ [] → value' ≠ []).

(** Another handler records a name while a [stop] awaits its final sweep. *)
Definition lateWrite : App.Interference :=
  {| App.between := λ k s,
       if k =? 2
       then set_currAttributes (<[js "name" := js "Bob"]> (currAttributes s)) s
       else s;
     App.inPlace := [] |}.

(** A connection that never got a [start]: two chunks, the job that
    transcribes them, and a third chunk that is still in the buffer. *)
Definition sessionWithoutStart : App.Session :=
  App.run pairConfig answeringServices
    [App.Deliver (App.Binary voicedChunk);
     App.Deliver (App.Binary loudAudio); App.Complete 0;
     App.Deliver (App.Binary loudAudio)].

(** The [start] frame arrives while a [stop] awaits its final sweep: the
    handler runs on the state, and its assignments go into the object that
    the sweep holds. *)
Definition lateStart : App.Interference :=
  {| App.between := λ k s,
       if k =? 2
       then stateOf (App.handleStart (plainBlocks startBlocks) s)
       else s;
     App.inPlace := [js "name"; js "dob"] |}.

(* ===================================================================== *)
(** * Part II: the properties                                             *)
(* ===================================================================== *)

Section JsStringFacts.
Import JsString.

Lemma slice_prefix (s : jsstring) (i : nat) :
  slice s 0 (Some (Z.of_nat i)) = take i s.
Proof.
  unfold slice, clampIndex. simpl.
  destruct (Z.ltb_spec (Z.of_nat i) 0) as [Hneg|_]; [lia|].
  rewrite Nat2Z.id, Nat.sub_0_r, drop_0.
  destruct (Nat.le_gt_cases i (length s)) as [Hle|Hgt].
  - by rewrite Nat.min_l.
  - rewrite Nat.min_r by lia. rewrite !take_ge; [done|lia|lia].
Qed.

Lemma slice_from (s : jsstring) (i : nat) :
  slice s (Z.of_nat i) None = drop i s.
Proof.
  unfold slice, clampIndex.
  destruct (Z.ltb_spec (Z.of_nat i) 0) as [Hneg|_]; [lia|].
  rewrite Nat2Z.id.
  destruct (Nat.le_gt_cases i (length s)) as [Hle|Hgt].
  - rewrite Nat.min_l by done. apply take_ge. rewrite length_drop. lia.
  - rewrite Nat.min_r by lia. rewrite Nat.sub_diag. simpl.
    rewrite (drop_ge s i) by lia. done.
Qed.

Lemma endsWith_true (s search : jsstring) :
  endsWith s search = true ↔
  length search ≤ length s ∧ drop (length s - length search) s = search.
Proof.
  unfold endsWith.
  destruct (Z.ltb_spec (Z.of_nat (length s) - Z.of_nat (length search)) 0)
    as [Hneg|Hpos].
  - split; [done|]. intros [Hle _]. lia.
  - rewrite bool_decide_eq_true.
    replace (Z.to_nat (Z.of_nat (length s) - Z.of_nat (length search)))
      with (length s - length search) by lia.
    split; [intros Heq; split; [lia|done] | by intros [_ Heq]].
Qed.

End JsStringFacts.

(** ** The overlap stitcher *)

Section StitcherFacts.
Import JsString Stitcher.

Lemma overlap_zero (base addition : jsstring) : overlap base addition 0.
Proof.
  split; [lia|]. rewrite Nat.sub_0_r, drop_all. done.
Qed.

(** The test of the loop body decides whether [i] is an overlap. *)
Lemma endsWith_overlap (base addition : jsstring) (i : nat) :
  i ≤ Nat.min (length base) (length addition) →
  endsWith base (slice addition 0 (Some (Z.of_nat i))) = true ↔
  overlap base addition i.
Proof.
  intros Hi. rewrite slice_prefix, endsWith_true.
  rewrite length_take, Nat.min_l by lia. unfold overlap.
  split; [intros [_ Heq]; by split | intros [_ Heq]; split; [lia|done]].
Qed.

(** Loop invariant: when no index above [i] is an overlap, the loop started at
    [i] returns the stitch at the largest overlap. *)
Lemma overlapLoop_largest (base addition : jsstring) (i : nat) :
  i ≤ Nat.min (length base) (length addition) →
  (∀ j, i < j → ¬ overlap base addition j) →
  ∃ k, overlap base addition k ∧
       (∀ j, overlap base addition j → j ≤ k) ∧
       overlapLoop base addition (length addition) i
       = (base ++ drop k addition, length addition - k).
Proof.
  induction i as [|i IH]; intros Hi Habove.
  - exists 0. split; [apply overlap_zero|]. split.
    + intros j Hj. destruct j as [|j]; [lia|].
      exfalso. apply (Habove (S j)); [lia|done].
    + simpl. by rewrite Nat.sub_0_r.
  - cbn [overlapLoop].
    destruct (endsWith base (slice addition 0 (Some (Z.of_nat (S i)))))
      eqn:Hends.
    + apply endsWith_overlap in Hends; [|done].
      exists (S i). split; [done|]. split.
      * intros j Hj. destruct (Nat.le_gt_cases j (S i)) as [|Hgt]; [done|].
        exfalso. by apply (Habove j).
      * by rewrite slice_from.
    + apply IH; [lia|]. intros j Hj Hov.
      destruct (decide (j = S i)) as [->|Hne].
      * apply endsWith_overlap in Hov; [congruence|done].
      * apply (Habove j); [lia|done].
Qed.

(** The stitch is taken at the largest overlap. *)
Lemma appendWithOverlap_at_largest (base addition : jsstring) :
  ∃ k, overlap base addition k ∧
       (∀ j, overlap base addition j → j ≤ k) ∧
       appendWithOverlap base addition
       = (base ++ drop k addition, length addition - k).
Proof.
  unfold appendWithOverlap. apply overlapLoop_largest; [done|].
  intros j Hj [Hle _]. lia.
Qed.

(** C1. For all strings [base] and [addition], [appendWithOverlap] returns
    [(base ++ addition[k:], len(addition) - k)] where [k] is the largest
    number between 0 and [min(len(base), len(addition))] such that the last
    [k] code units of [base] are the first [k] code units of [addition]; and
    [appendWithOverlap(base, "")] is [(base, 0)]. *)
Theorem appendWithOverlap_largest_overlap (base addition : jsstring) :
  (∃ k, overlap base addition k ∧
        (∀ j, overlap base addition j → j ≤ k) ∧
        appendWithOverlap base addition
        = (base ++ drop k addition, length addition - k)) ∧
  appendWithOverlap base [] = (base, 0).
Proof.
  split; [apply appendWithOverlap_at_largest|].
  unfold appendWithOverlap. simpl. rewrite Nat.min_0_r. simpl.
  by rewrite app_nil_r.
Qed.

(** C9. The stitched string starts with [base] and ends with [addition]; its
    length is [len(base)] plus the returned growth, and the growth is at most
    [len(addition)]. *)
Theorem appendWithOverlap_prefix_suffix_growth (base addition : jsstring) :
  let '(merged, growth) := appendWithOverlap base addition in
  base `prefix_of` merged ∧
  addition `suffix_of` merged ∧
  length merged = length base + growth ∧
  0 ≤ growth ≤ length addition.
Proof.
  destruct (appendWithOverlap_at_largest base addition)
    as (k & [Hk Heq] & _ & ->).
  split; [by apply prefix_app_r|]. split.
  - exists (take (length base - k) base).
    rewrite <- (take_drop k addition) at 2. rewrite <- Heq.
    by rewrite app_assoc, take_drop.
  - rewrite length_app, length_drop. lia.
Qed.

End StitcherFacts.

(** ** The audio cache key *)

Section AudioCacheFacts.
Import JsString AudioCache.

Example base64_Man :
  base64 ["M"%byte; "a"%byte; "n"%byte] = js "TWFu"
  ∧ base64 ["M"%byte; "a"%byte] = js "TWE="
  ∧ base64 ["M"%byte] = js "TQ==".
Proof. by vm_compute. Qed.

(** Whole groups of three bytes are encoded independently of what follows. *)
Lemma base64_app_groups (k : nat) (p r : Buffer) :
  length p = 3 * k →
  base64 (p ++ r) = base64 p ++ base64 r ∧ length (base64 p) = 4 * k.
Proof.
  revert p. induction k as [|k IH]; intros p Hp.
  - destruct p; [done|simpl in Hp; lia].
  - destruct p as [|x [|y [|z p]]]; simpl in Hp; try lia.
    destruct (IH p) as [Happ Hlen]; [lia|].
    cbn [base64 app]. cbn [base64] in Happ. rewrite Happ.
    split; [done|]. cbn [length]. rewrite Hlen. lia.
Qed.

Lemma createAudioKey_take48 (b : Buffer) :
  48 ≤ length b → createAudioKey b = base64 (take 48 b).
Proof.
  intros Hb. unfold createAudioKey.
  change 64%Z with (Z.of_nat 64). rewrite slice_prefix.
  rewrite <- (take_drop 48 b) at 1.
  destruct (base64_app_groups 16 (take 48 b) (drop 48 b)) as [-> Hlen].
  { rewrite length_take. lia. }
  rewrite take_app_length'; [done|]. by rewrite Hlen.
Qed.

(** C10. Two buffers of at least 48 bytes with the same first 48 bytes get
    the same cache key from [createAudioKey] and from [createCacheKey], so a
    transcript stored for one of them is returned for the other. *)
Theorem createAudioKey_shared_prefix (b1 b2 : Buffer) :
  48 ≤ length b1 → 48 ≤ length b2 → take 48 b1 = take 48 b2 →
  createAudioKey b1 = createAudioKey b2 ∧
  createCacheKey b1 = createCacheKey b2 ∧
  ∀ cache transcription,
    getCachedAudio (createAudioKey b2)
      (cacheAudio (createAudioKey b1) transcription cache)
    = Some transcription.
Proof.
  intros H1 H2 Heq.
  assert (Hkey : createAudioKey b1 = createAudioKey b2).
  { by rewrite !createAudioKey_take48, Heq. }
  split; [done|]. split; [exact Hkey|].
  intros cache transcription. unfold getCachedAudio, cacheAudio.
  rewrite Hkey. apply lookup_insert_eq.
Qed.

Lemma createAudioKey_shared_prefix_witness :
  sampleAudioA ≠ sampleAudioB ∧
  createAudioKey sampleAudioA = createAudioKey sampleAudioB ∧
  getCachedAudio (createAudioKey sampleAudioB)
    (cacheAudio (createAudioKey sampleAudioA) (js "first recording") ∅)
  = Some (js "first recording").
Proof.
  split; [discriminate|].
  destruct (createAudioKey_shared_prefix sampleAudioA sampleAudioB)
    as (Hkey & _ & Hhit).
  - vm_compute. lia.
  - vm_compute. lia.
  - reflexivity.
  - split; [exact Hkey | apply Hhit].
Defined.

End AudioCacheFacts.

(** ** The final attribute sweep *)

Section FinalSweepFacts.
Import JsString ParseGpt.

Lemma slice_last (s : jsstring) (n : nat) :
  0 < n → slice s (- Z.of_nat n) None = drop (length s - n) s.
Proof.
  intros Hn. unfold slice, clampIndex.
  destruct (Z.ltb_spec (- Z.of_nat n) 0) as [_|Hge]; [|lia].
  replace (Z.to_nat (Z.max (Z.of_nat (length s) + - Z.of_nat n) 0))
    with (length s - n) by lia.
  apply take_ge. rewrite length_drop. lia.
Qed.

(** The entry under [k] after [obj[key] = value]. *)
Lemma objectAssign_lookup (key value : jsstring)
  (obj : gmap jsstring jsstring) (k : jsstring) :
  objectAssign key value obj !! k
  = if bool_decide (k = key)
       && negb (bool_decide (key = protoKey)
                && negb (bool_decide (is_Some (obj !! key))))
    then Some value else obj !! k.
Proof.
  unfold objectAssign.
  destruct (bool_decide (key = protoKey)
            && negb (bool_decide (is_Some (obj !! key)))); cbn [negb].
  - by rewrite andb_false_r.
  - rewrite andb_true_r. case_bool_decide as Hk.
    + subst k. apply lookup_insert_eq.
    + by apply lookup_insert_ne.
Qed.

(** What a merge loop leaves under each key: the value of the model where
    it is informative and the assignment takes effect, the candidate
    otherwise. *)
Lemma merge_loop_lookup
  (step : jsstring → jsstring → gmap jsstring jsstring →
          gmap jsstring jsstring)
  (candidateAttributes finalAttrs : gmap jsstring jsstring) :
  (∀ field value merged,
     step field value merged
     = if isInformative value
       then (if bool_decide (merged !! field = Some value) then merged
             else objectAssign field value merged)
       else merged) →
  ∀ field,
    map_fold step candidateAttributes finalAttrs !! field =
    match finalAttrs !! field with
    | Some value =>
        if isInformative value
           && negb (bool_decide (field = protoKey)
                    && negb (bool_decide
                               (is_Some (candidateAttributes !! field))))
        then Some value
        else candidateAttributes !! field
    | None => candidateAttributes !! field
    end.
Proof.
  intros Hstep.
  apply (map_fold_weak_ind (λ merged m, ∀ field,
    merged !! field =
    match m !! field with
    | Some value =>
        if isInformative value
           && negb (bool_decide (field = protoKey)
                    && negb (bool_decide
                               (is_Some (candidateAttributes !! field))))
        then Some value
        else candidateAttributes !! field
    | None => candidateAttributes !! field
    end)).
  - intros field. by rewrite lookup_empty.
  - intros i x m r Hfresh IH field. rewrite Hstep.
    assert (Hri : r !! i = candidateAttributes !! i)
      by (by rewrite IH, Hfresh).
    destruct (decide (i = field)) as [->|Hne].
    + rewrite lookup_insert_eq. destruct (isInformative x); cbn [andb].
      * destruct (bool_decide (r !! field = Some x)) eqn:Hsame.
        -- apply bool_decide_eq_true in Hsame. rewrite Hsame.
           rewrite <- Hri, Hsame.
           rewrite (bool_decide_eq_true_2 (is_Some (Some x))) by eauto.
           cbn [negb]. by rewrite andb_false_r.
        -- rewrite objectAssign_lookup, Hri.
           by rewrite (bool_decide_eq_true_2 (field = field)).
      * done.
    + rewrite lookup_insert_ne by done. rewrite <- IH.
      destruct (isInformative x); [|done].
      destruct (bool_decide (r !! i = Some x)); [done|].
      rewrite objectAssign_lookup.
      by rewrite (bool_decide_eq_false_2 (field = i)).
Qed.

Lemma mergeFinalAttributes_lookup
  (candidateAttributes finalAttrs : gmap jsstring jsstring) (field : jsstring) :
  mergeFinalAttributes candidateAttributes finalAttrs !! field =
  match finalAttrs !! field with
  | Some value =>
      if isInformative value
         && negb (bool_decide (field = protoKey)
                  && negb (bool_decide
                             (is_Some (candidateAttributes !! field))))
      then Some value
      else candidateAttributes !! field
  | None => candidateAttributes !! field
  end.
Proof. by apply merge_loop_lookup. Qed.

Lemma earlier_mergeFinalAttributes_lookup
  (candidateAttributes finalAttrs : gmap jsstring jsstring) (field : jsstring) :
  ParseGptEarlier.mergeFinalAttributes candidateAttributes finalAttrs !! field =
  match finalAttrs !! field with
  | Some value =>
      if isInformative value
         && negb (bool_decide (field = protoKey)
                  && negb (bool_decide
                             (is_Some (candidateAttributes !! field))))
      then Some value
      else candidateAttributes !! field
  | None => candidateAttributes !! field
  end.
Proof.
  apply merge_loop_lookup. intros attr val merged. unfold isInformative.
  destruct (negb (bool_decide (val = []))
            && negb (bool_decide (val = js "N/A"))
            && negb (bool_decide (trim val = []))); cbn [andb]; [|done].
  by destruct (bool_decide (merged !! attr = Some val)).
Qed.

Lemma isInformative_true (value : jsstring) :
  isInformative value = true → value ≠ [] ∧ value ≠ js "N/A".
Proof.
  unfold isInformative. intros H.
  apply andb_true_iff in H as [H _]. apply andb_true_iff in H as [H1 H2].
  apply negb_true_iff, bool_decide_eq_false in H1.
  apply negb_true_iff, bool_decide_eq_false in H2. done.
Qed.

Lemma mergePolicy_of_lookup
  (candidateAttributes finalAttrs merged : gmap jsstring jsstring) :
  (∀ field, merged !! field =
     match finalAttrs !! field with
     | Some value =>
         if isInformative value
            && negb (bool_decide (field = protoKey)
                     && negb (bool_decide
                                (is_Some (candidateAttributes !! field))))
         then Some value
         else candidateAttributes !! field
     | None => candidateAttributes !! field
     end) →
  mergePolicy candidateAttributes finalAttrs merged.
Proof.
  intros Hlook field. rewrite Hlook. split.
  - destruct (finalAttrs !! field) as [value|]; [|done].
    destruct (isInformative value) eqn:Hinf; [|done].
    destruct (negb _); [|done].
    intros _. exists value. by destruct (isInformative_true value Hinf).
  - intros [->|[->| ->]]; done.
Qed.

(** C6. In the merge of the final sweep a value returned by the model
    replaces the candidate only if it is non-empty and not the marker
    ["N/A"]; for a field that is absent from the model output, empty or the
    marker, the candidate is kept.  This holds for the merge loop of both
    revisions of [parseFinalAttributes]. *)
Theorem final_merge_policy
  (candidateAttributes finalAttrs : gmap jsstring jsstring) :
  mergePolicy candidateAttributes finalAttrs
    (ParseGpt.mergeFinalAttributes candidateAttributes finalAttrs)
  ∧ mergePolicy candidateAttributes finalAttrs
      (ParseGptEarlier.mergeFinalAttributes candidateAttributes finalAttrs).
Proof.
  split; apply mergePolicy_of_lookup; intros field.
  - apply mergeFinalAttributes_lookup.
  - apply earlier_mergeFinalAttributes_lookup.
Qed.

(** What [parseFinalAttributes] returns is the candidate map itself or the
    merge of the candidates with the map the model returned. *)
Lemma parseFinalAttributes_merges svc t tpl cand s :
  resultOf (parseFinalAttributes svc t tpl cand s) = Ok cand
  ∨ ∃ finalAttributes,
      finalModel svc tpl cand (truncateTranscript t 6000)
      = Parsed finalAttributes
      ∧ resultOf (parseFinalAttributes svc t tpl cand s)
        = Ok (mergeFinalAttributes cand (default ∅ finalAttributes)).
Proof.
  unfold parseFinalAttributes, mbind, M_bind, emit, mret, M_ret, resultOf.
  destruct (_ <? _); [by left|].
  destruct (finalModel svc tpl cand _) as [e| | |fa] eqn:Hmodel;
    [by left|by left|by left|].
  right. by exists fa.
Qed.

(** A value of white space only is neither empty nor the marker, and is not
    taken either. *)
Example final_merge_blank_value :
  mergeFinalAttributes {[ js "name" := js "Ann" ]} {[ js "name" := js "  " ]}
  = {[ js "name" := js "Ann" ]}.
Proof. by vm_compute. Qed.

End FinalSweepFacts.

(** ** The text handed to the final extraction call *)

Section FinalRequestFacts.
Import JsString ParseGpt.

(** [truncateTranscript] returns a text that fits unchanged and otherwise
    keeps both ends. *)
Lemma truncateTranscript_keeps_both_ends (text : jsstring) (maxChars : nat) :
  2 ≤ maxChars →
  (length text ≤ maxChars → truncateTranscript text maxChars = text) ∧
  (maxChars < length text →
   truncateTranscript text maxChars
   = take (maxChars / 2) text ++ omittedMarker
     ++ drop (length text - maxChars / 2) text).
Proof.
  intros Hmax. unfold truncateTranscript.
  destruct (Nat.leb_spec (length text) maxChars) as [Hle|Hgt].
  - split; [done|lia].
  - split; [lia|]. intros _. rewrite slice_prefix, slice_last; [done|].
    apply Nat.div_str_pos. lia.
Qed.

(** The later revision of [parseFinalAttributes] sends the whole transcript
    up to 6000 code units, and its first and last 3000 code units beyond. *)
Lemma final_request_covers_transcript (svc : Services) (t : jsstring)
  (tpl : list FieldDef) (cand : gmap jsstring jsstring) (s : WSState) :
  30 ≤ length (trim t) →
  ∃ result text,
    parseFinalAttributes svc t tpl cand s
    = (Ok result, s, [FinalSweep t tpl cand; FinalRequest tpl cand text])
    ∧ (length t ≤ 6000 → text = t)
    ∧ (6000 < length t →
       text = take 3000 t ++ omittedMarker ++ drop (length t - 3000) t).
Proof.
  intros Hlen. unfold parseFinalAttributes.
  destruct (truncateTranscript_keeps_both_ends t 6000) as [Hfit Hcut].
  { apply (Nat.leb_le 2 6000). by vm_compute. }
  assert (Hhalf : 6000 / 2 = 3000) by (by vm_compute).
  rewrite Hhalf in Hcut.
  unfold mbind, M_bind, emit, mret, M_ret.
  destruct (Nat.ltb_spec (length (trim t)) 30) as [Hlt|_]; [lia|].
  destruct (finalModel svc tpl cand (truncateTranscript t 6000));
    eexists _, (truncateTranscript t 6000); (split; [reflexivity|done]).
Qed.

(** The earlier revision sends one contiguous slice, the last 2000 code
    units, whatever came before. *)
Lemma earlier_final_request_is_tail (svc : Services) (t : jsstring)
  (tpl : list FieldDef) (cand : gmap jsstring jsstring) (s : WSState) :
  50 ≤ length (trim t) →
  ∃ result,
    ParseGptEarlier.parseFinalAttributes svc t tpl cand s
    = (Ok result, s,
       [FinalSweep t tpl cand;
        FinalRequest tpl cand (drop (length t - 2000) t)]).
Proof.
  intros Hlen. unfold ParseGptEarlier.parseFinalAttributes.
  unfold mbind, M_bind, emit, mret, M_ret.
  destruct (Nat.ltb_spec (length (trim t)) 50) as [Hlt|_]; [lia|].
  change (-2000)%Z with (- Z.of_nat 2000)%Z.
  rewrite slice_last by (apply (Nat.ltb_lt 0 2000); by vm_compute).
  destruct (finalModel svc tpl cand (drop (length t - 2000) t));
    eexists; reflexivity.
Qed.

(** C7, on the earlier revision of parse-gpt.ts: for a transcript of 2020
    code units the final extraction call receives the last 2000 only; the
    opening sentence is not part of the request. *)
Theorem earlier_final_request_drops_opening (svc : Services)
  (tpl : list FieldDef) (cand : gmap jsstring jsstring) (s : WSState) :
  traceOf (ParseGptEarlier.parseFinalAttributes svc longTranscript tpl cand s)
  = [FinalSweep longTranscript tpl cand;
     FinalRequest tpl cand (repeat 120%N 2000)].
Proof.
  destruct (earlier_final_request_is_tail svc longTranscript tpl cand s)
    as [result ->].
  { apply (Nat.leb_le 50). by vm_compute. }
  by vm_compute.
Qed.

End FinalRequestFacts.

(** ** Reasoning about handlers *)

Section HandlerFacts.

Lemma preserves_mret {A X} (f : WSState → X) (a : A) : preserves f (mret a).
Proof. by intros s. Qed.

Lemma preserves_throw {A X} (f : WSState → X) (e : jsstring) :
  preserves f (throw e : M A).
Proof. by intros s. Qed.

Lemma preserves_emit {X} (f : WSState → X) (e : Event) : preserves f (emit e).
Proof. by intros s. Qed.

Lemma preserves_getState {X} (f : WSState → X) : preserves f getState.
Proof. by intros s. Qed.

Lemma preserves_modify {X} (f : WSState → X) (g : WSState → WSState) :
  (∀ s, f (g s) = f s) → preserves f (modify g).
Proof. intros Hg s. apply Hg. Qed.

Lemma preserves_bind {A B X} (f : WSState → X) (m : M A) (k : A → M B) :
  preserves f m → (∀ a, preserves f (k a)) → preserves f (m ≫= k).
Proof.
  intros Hm Hk s. unfold mbind, M_bind, stateOf.
  specialize (Hm s). unfold stateOf in Hm.
  destruct (m s) as [[[a|e] s1] t1]; simpl in *; [|done].
  specialize (Hk a s1). unfold stateOf in Hk.
  destruct (k a s1) as [[r s2] t2]; simpl in *. congruence.
Qed.

Lemma preserves_tryCatch {A X} (f : WSState → X) (m : M A)
  (h : jsstring → M A) :
  preserves f m → (∀ e, preserves f (h e)) → preserves f (tryCatch m h).
Proof.
  intros Hm Hh s. unfold tryCatch, stateOf.
  specialize (Hm s). unfold stateOf in Hm.
  destruct (m s) as [[[a|e] s1] t1]; simpl in *; [done|].
  specialize (Hh e s1). unfold stateOf in Hh.
  destruct (h e s1) as [[r s2] t2]; simpl in *. congruence.
Qed.

Lemma emitsOnly_mret {A} (P : Event → bool) (a : A) : emitsOnly P (mret a).
Proof. by intros s. Qed.

Lemma emitsOnly_throw {A} (P : Event → bool) (e : jsstring) :
  emitsOnly P (throw e : M A).
Proof. by intros s. Qed.

Lemma emitsOnly_emit (P : Event → bool) (e : Event) :
  P e = true → emitsOnly P (emit e).
Proof. intros HP s. simpl. by rewrite HP. Qed.

Lemma emitsOnly_bind {A B} (P : Event → bool) (m : M A) (k : A → M B) :
  emitsOnly P m → (∀ a, emitsOnly P (k a)) → emitsOnly P (m ≫= k).
Proof.
  intros Hm Hk s. unfold mbind, M_bind, traceOf.
  specialize (Hm s). unfold traceOf in Hm.
  destruct (m s) as [[[a|e] s1] t1]; simpl in *; [|done].
  specialize (Hk a s1). unfold traceOf in Hk.
  destruct (k a s1) as [[r s2] t2]; simpl in *.
  rewrite forallb_app. by rewrite Hm, Hk.
Qed.

Lemma sent_app (t1 t2 : list Event) : sent (t1 ++ t2) = sent t1 ++ sent t2.
Proof. apply omap_app. Qed.

Lemma serviceCalls_sent (tr : list Event) :
  forallb isServiceCall tr = true → sent tr = [].
Proof.
  induction tr as [|e tr IH]; [done|]. simpl. intros H.
  apply andb_true_iff in H as [He Htr]. unfold sent in *. simpl.
  destruct e; try done; by apply IH.
Qed.

Lemma serviceCalls_no_sweep (tr : list Event) t tpl c :
  forallb isServiceCall tr = true → FinalSweep t tpl c ∉ tr.
Proof.
  intros H Hin. rewrite forallb_forall in H.
  apply list_elem_of_In, H in Hin. done.
Qed.

End HandlerFacts.

Create HintDb handlers discriminated.
#[export] Hint Resolve preserves_mret preserves_throw preserves_emit
  preserves_getState preserves_bind preserves_tryCatch
  emitsOnly_mret emitsOnly_throw emitsOnly_bind : handlers.

(** ** The transcription client *)

Section TranscriptionFacts.
Import JsString Transcription.

Lemma whisperLoop_preserves {X} (f : WSState → X) svc buffer attempt remaining
  lastError :
  preserves f (whisperLoop svc buffer attempt remaining lastError).
Proof.
  revert attempt lastError.
  induction remaining as [|n IH]; intros attempt lastError; simpl.
  - auto with handlers.
  - apply preserves_bind; [auto with handlers|]. intros _.
    destruct (whisperAttempt _); [auto with handlers|].
    destruct (includes _ _); [auto with handlers|].
    apply preserves_bind; [|auto].
    destruct (_ <? _); auto with handlers.
Qed.

Lemma runWhisperOnBuffer_preserves {X} (f : WSState → X) svc buffer :
  preserves f (runWhisperOnBuffer svc buffer).
Proof.
  unfold runWhisperOnBuffer.
  destruct (negb _); [auto with handlers | apply whisperLoop_preserves].
Qed.

Lemma whisperLoop_emitsOnly svc buffer attempt remaining lastError :
  emitsOnly isServiceCall (whisperLoop svc buffer attempt remaining lastError).
Proof.
  revert attempt lastError.
  induction remaining as [|n IH]; intros attempt lastError; simpl.
  - auto with handlers.
  - apply emitsOnly_bind; [by apply emitsOnly_emit|]. intros _.
    destruct (whisperAttempt _); [auto with handlers|].
    destruct (includes _ _); [auto with handlers|].
    apply emitsOnly_bind; [|auto].
    destruct (_ <? _); [by apply emitsOnly_emit | auto with handlers].
Qed.

Lemma runWhisperOnBuffer_emitsOnly svc buffer :
  emitsOnly isServiceCall (runWhisperOnBuffer svc buffer).
Proof.
  unfold runWhisperOnBuffer.
  destruct (negb _); [auto with handlers | apply whisperLoop_emitsOnly].
Qed.

(** The number of requests is bounded by the number of iterations left. *)
Lemma whisperLoop_fetch_bound svc buffer attempt remaining lastError s :
  length (fetches (traceOf
    (whisperLoop svc buffer attempt remaining lastError s))) ≤ remaining.
Proof.
  revert attempt lastError s.
  induction remaining as [|n IH]; intros attempt lastError s; simpl.
  - done.
  - unfold mbind, M_bind, emit, traceOf. simpl.
    destruct (whisperAttempt _) as [text|message]; simpl; [lia|].
    destruct (includes _ _); simpl; [lia|].
    specialize (IH (S attempt) (Some message) s). unfold traceOf in IH.
    destruct (_ <? _); simpl;
      destruct (whisperLoop svc buffer (S attempt) n (Some message) s)
        as [[r s2] t2]; simpl in *; lia.
Qed.

(** At most [MAX_RETRIES] requests are made for one buffer. *)
Lemma runWhisperOnBuffer_bounded svc buffer s :
  length (fetches (traceOf (runWhisperOnBuffer svc buffer s))) ≤ MAX_RETRIES.
Proof.
  unfold runWhisperOnBuffer.
  destruct (negb _); [simpl; unfold MAX_RETRIES; lia|].
  apply whisperLoop_fetch_bound.
Qed.

(** A response with status 400 ends the loop at once. *)
Lemma runWhisperOnBuffer_400 svc buffer body payload s :
  hasVoiceActivity svc buffer = true →
  whisperFetch svc buffer 1 = Response 400 body payload →
  runWhisperOnBuffer svc buffer s
  = (Throw (whisperErrorMessage 400 body), s, [WhisperFetch 1 buffer]).
Proof.
  intros Hvoice Hfetch.
  assert (Hinc : includes (whisperErrorMessage 400 body) (js "400") = true)
    by (by vm_compute).
  unfold runWhisperOnBuffer. rewrite Hvoice.
  cbn [negb MAX_RETRIES whisperLoop].
  unfold mbind, M_bind, emit. rewrite Hfetch.
  change (whisperAttempt (Response 400 body payload))
    with (inr (A:=jsstring) (whisperErrorMessage 400 body)).
  cbv beta iota. rewrite Hinc. reflexivity.
Qed.

(** C5, at a response with status 401: the client waits two seconds and
    sends the request again, and gives up only after the second 401. *)
Theorem runWhisperOnBuffer_retries_401 (s : WSState) :
  runWhisperOnBuffer unauthorizedServices loudAudio s
  = (Throw (js "Whisper API error 401: Unauthorized"), s,
     [WhisperFetch 1 loudAudio; Sleep 2000; WhisperFetch 2 loudAudio]).
Proof. by vm_compute. Qed.

End TranscriptionFacts.

(** ** The language-model clients *)

Section ParseGptFacts.
Import JsString ParseGpt.

Lemma reviseTranscription_preserves {X} (f : WSState → X) svc rawText :
  preserves f (reviseTranscription svc rawText).
Proof.
  unfold reviseTranscription. destruct (_ <? _); [auto with handlers|].
  apply preserves_bind; [auto with handlers|]. intros _.
  destruct (reviseModel svc rawText) as [e| | |[t|]]; auto with handlers.
  destruct (bool_decide _); auto with handlers.
Qed.

Lemma reviseTranscription_emitsOnly svc rawText :
  emitsOnly isServiceCall (reviseTranscription svc rawText).
Proof.
  unfold reviseTranscription. destruct (_ <? _); [auto with handlers|].
  apply emitsOnly_bind; [by apply emitsOnly_emit|]. intros _.
  destruct (reviseModel svc rawText) as [e| | |[t|]]; auto with handlers.
  destruct (bool_decide _); auto with handlers.
Qed.

Lemma extractAttributesFromText_preserves {X} (f : WSState → X) svc text tpl
  attrs :
  preserves f (extractAttributesFromText svc text tpl attrs).
Proof.
  unfold extractAttributesFromText. destruct (_ || _); [auto with handlers|].
  apply preserves_bind; [auto with handlers|]. intros _.
  destruct (extractModel svc tpl attrs text); auto with handlers.
Qed.

Lemma extractAttributesFromText_emitsOnly svc text tpl attrs :
  emitsOnly isServiceCall (extractAttributesFromText svc text tpl attrs).
Proof.
  unfold extractAttributesFromText. destruct (_ || _); [auto with handlers|].
  apply emitsOnly_bind; [by apply emitsOnly_emit|]. intros _.
  destruct (extractModel svc tpl attrs text); auto with handlers.
Qed.

(** [parseFinalAttributes] never throws: it announces itself, makes at most
    one request and returns a map. *)
Lemma parseFinalAttributes_run svc t tpl cand s :
  ∃ result post,
    parseFinalAttributes svc t tpl cand s
    = (Ok result, s, FinalSweep t tpl cand :: post)
    ∧ forallb isServiceCall post = true.
Proof.
  unfold parseFinalAttributes, mbind, M_bind, emit, mret, M_ret.
  destruct (_ <? _); [by eexists _, []|].
  destruct (finalModel svc tpl cand _); by eexists _, [_].
Qed.

(** So it is when the candidates object is written to while it waits; what
    it returns is that object, or the merge into a copy of it. *)
Lemma parseFinalAttributesAmid_run svc names t tpl cand s :
  ∃ result post,
    parseFinalAttributesAmid svc names t tpl cand s
    = (Ok result, s, FinalSweep t tpl cand :: post)
    ∧ forallb isServiceCall post = true
    ∧ (result = startAttributes names cand
       ∨ ∃ finalAttrs,
           result = mergeFinalAttributes (startAttributes names cand)
                      finalAttrs).
Proof.
  unfold parseFinalAttributesAmid, mbind, M_bind, emit, mret, M_ret.
  cbv zeta.
  destruct (_ <? _); [eexists _, []; split; [done|]; split; [done|by left]|].
  destruct (finalModel svc tpl cand _);
    eexists _, [_]; (split; [done|]; split; [done|]); eauto.
Qed.

Lemma parseFinalAttributesAmid_stateless svc names t tpl cand s s' :
  parseFinalAttributesAmid svc names t tpl cand s'
  = (resultOf (parseFinalAttributesAmid svc names t tpl cand s), s',
     traceOf (parseFinalAttributesAmid svc names t tpl cand s)).
Proof.
  unfold parseFinalAttributesAmid, mbind, M_bind, emit, mret, M_ret.
  cbv zeta. destruct (_ <? _); [done|].
  by destruct (finalModel svc tpl cand _).
Qed.

Lemma parseFinalAttributesAmid_nil svc t tpl cand :
  parseFinalAttributesAmid svc [] t tpl cand
  = parseFinalAttributes svc t tpl cand.
Proof. done. Qed.

End ParseGptFacts.

(** ** The [stop] handler *)

Section StopFacts.
Import JsString Stitcher Transcription ParseGpt App.

Lemma emitsOnly_getState (P : Event → bool) : emitsOnly P getState.
Proof. by intros s. Qed.

Lemma emitsOnly_modify (P : Event → bool) g : emitsOnly P (modify g).
Proof. by intros s. Qed.

Lemma transcribeResidue_emitsOnly cfg svc d :
  emitsOnly isServiceCall (transcribeResidue cfg svc d).
Proof.
  unfold transcribeResidue. destruct (negb _); [auto with handlers|].
  apply emitsOnly_bind; [apply runWhisperOnBuffer_emitsOnly|]. intros raw.
  destruct (_ <=? _); [|auto with handlers].
  apply emitsOnly_bind; [apply reviseTranscription_emitsOnly|]. intros fin.
  apply emitsOnly_bind; [apply emitsOnly_getState|]. intros s.
  destruct (appendWithOverlap _ _).
  apply emitsOnly_bind; [apply emitsOnly_modify|]. intros _.
  apply emitsOnly_modify.
Qed.

Lemma stop_try_ok svc (A : M unit) s0 s1 ta :
  A s0 = (Ok tt, s1, ta) →
  ∃ result post,
    tryCatch (A;; sweepAndRespond svc) respondFailed s0
    = (Ok tt, set_currAttributes result s1,
       ta ++ FinalSweep (transcript s1) (template s1) (currAttributes s1)
             :: post ++ [Send (MsgUpdate (transcript s1) result None)])
    ∧ forallb isServiceCall post = true.
Proof.
  intros HA.
  destruct (parseFinalAttributes_run svc (transcript s1) (template s1)
              (currAttributes s1) s1) as (result & post & Hrun & Hpost).
  exists result, post. split; [|done].
  unfold tryCatch, sweepAndRespond, mbind, M_bind, modify, getState, send,
    emit.
  rewrite HA, Hrun. reflexivity.
Qed.

Lemma stop_try_throw svc (A : M unit) s0 s1 ta e :
  A s0 = (Throw e, s1, ta) →
  tryCatch (A;; sweepAndRespond svc) respondFailed s0
  = (Ok tt, s1,
     ta ++ [Send (MsgUpdate (transcript s1) (currAttributes s1)
                    (Some final_processing_failed))]).
Proof.
  intros HA.
  unfold tryCatch, respondFailed, mbind, M_bind, modify, getState, send, emit.
  rewrite HA. reflexivity.
Qed.

Lemma handleStop_empty cfg svc s :
  audioBuffer s = [] →
  handleStop cfg svc s
  = (Ok tt, s, [Send (MsgUpdate (transcript s) (currAttributes s) None)]).
Proof.
  intros Hempty. unfold handleStop, mbind, M_bind, getState, send, emit.
  by rewrite Hempty.
Qed.

(** The handler on a non-empty buffer, in terms of the three blocks. *)
Lemma handleStop_unfold cfg svc s :
  audioBuffer s ≠ [] →
  let s0 := set_webmHeader None (set_nchunks 0 (set_audioBuffer [] s)) in
  let d := repairHeader (webmHeader s) (audioBuffer s) in
  let out := tryCatch (transcribeResidue cfg svc d;; sweepAndRespond svc)
               respondFailed s0 in
  handleStop cfg svc s
  = (resultOf out, stateOf out, [SetAudioBuffer []] ++ traceOf out).
Proof.
  intros Hne s0 d out. unfold handleStop.
  unfold mbind at 1. unfold M_bind at 1. unfold getState at 1.
  destruct (length (audioBuffer s) =? 0) eqn:Hlen.
  { apply Nat.eqb_eq, nil_length_inv in Hlen. done. }
  unfold mbind at 1. unfold M_bind at 1. unfold assignAudioBuffer at 1.
  unfold mbind at 1. unfold M_bind at 1. unfold modify at 1.
  unfold mbind at 1. unfold M_bind at 1. unfold modify at 1.
  match goal with
  | |- context [tryCatch ?b ?h ?st] => change (tryCatch b h st) with out
  end.
  by destruct out as [[r s2] t2].
Qed.

(** The awaited service calls neither read nor write the session state:
    their result and their trace are the same from every state. *)
Lemma whisperLoop_stateless svc buffer attempt remaining lastError s s' :
  whisperLoop svc buffer attempt remaining lastError s'
  = (resultOf (whisperLoop svc buffer attempt remaining lastError s), s',
     traceOf (whisperLoop svc buffer attempt remaining lastError s)).
Proof.
  revert attempt lastError.
  induction remaining as [|n IH]; intros attempt lastError; [done|].
  cbn [whisperLoop]. unfold mbind, M_bind, emit, mret, M_ret, throw.
  destruct (whisperAttempt _) as [text|message]; [done|].
  destruct (includes _ _); [done|].
  specialize (IH (S attempt) (Some message)).
  unfold resultOf, traceOf in *.
  destruct (attempt <? MAX_RETRIES); cbn; rewrite IH;
    by destruct (whisperLoop svc buffer (S attempt) n (Some message) s)
      as [[r s2] t2].
Qed.

Lemma runWhisperOnBuffer_stateless svc buffer s s' :
  runWhisperOnBuffer svc buffer s'
  = (resultOf (runWhisperOnBuffer svc buffer s), s',
     traceOf (runWhisperOnBuffer svc buffer s)).
Proof.
  unfold runWhisperOnBuffer. destruct (negb _); [done|].
  apply whisperLoop_stateless.
Qed.

Lemma reviseTranscription_stateless svc rawText s s' :
  reviseTranscription svc rawText s'
  = (resultOf (reviseTranscription svc rawText s), s',
     traceOf (reviseTranscription svc rawText s)).
Proof.
  unfold reviseTranscription, mbind, M_bind, emit, mret, M_ret, throw.
  destruct (_ <? _); [done|].
  destruct (reviseModel svc rawText) as [e| | |[t|]]; try done.
  by destruct (bool_decide _).
Qed.

Lemma extractAttributesFromText_stateless svc text tpl attrs s s' :
  extractAttributesFromText svc text tpl attrs s'
  = (resultOf (extractAttributesFromText svc text tpl attrs s), s',
     traceOf (extractAttributesFromText svc text tpl attrs s)).
Proof.
  unfold extractAttributesFromText, mbind, M_bind, emit, mret, M_ret, throw.
  destruct (_ || _); [done|].
  by destruct (extractModel svc tpl attrs text).
Qed.

Lemma parseFinalAttributes_stateless svc t tpl cand s s' :
  parseFinalAttributes svc t tpl cand s'
  = (resultOf (parseFinalAttributes svc t tpl cand s), s',
     traceOf (parseFinalAttributes svc t tpl cand s)).
Proof.
  unfold parseFinalAttributes, mbind, M_bind, emit, mret, M_ret.
  destruct (_ <? _); [done|].
  by destruct (finalModel svc tpl cand _).
Qed.

(** An awaited call returns in the state the other handlers left. *)
Lemma await_run {A} (ι : Interference) k (m : M A) s r s1 t :
  m s = (r, s1, t) → await ι k m s = (r, ι k s1, t).
Proof. intros Hm. unfold await. by rewrite Hm. Qed.

(** Processing the residue, by the outcome of the two service calls. *)
Lemma transcribeResidueAmid_run ι cfg svc d s0 :
  transcribeResidueAmid ι cfg svc d s0
  = if negb (hasVoiceActivity svc d) then (Ok tt, s0, [])
    else
      let w := runWhisperOnBuffer svc d initialState in
      match resultOf w with
      | Throw e => (Throw e, ι 0 s0, traceOf w)
      | Ok raw =>
          if MIN_WORD_COUNT cfg <=? wordCount raw
          then
            let rv := reviseTranscription svc raw initialState in
            match resultOf rv with
            | Throw e => (Throw e, ι 1 (ι 0 s0), traceOf w ++ traceOf rv)
            | Ok fin =>
                (Ok tt, stitched (ι 1 (ι 0 s0)) fin, traceOf w ++ traceOf rv)
            end
          else (Ok tt, ι 0 s0, traceOf w)
      end.
Proof.
  unfold transcribeResidueAmid. destruct (negb _); [done|]. cbv zeta.
  unfold mbind at 1. unfold M_bind at 1.
  rewrite (await_run ι 0 _ s0 _ _ _
             (runWhisperOnBuffer_stateless svc d initialState s0)).
  destruct (resultOf (runWhisperOnBuffer svc d initialState))
    as [raw|e]; [|done].
  destruct (_ <=? _); [|cbn; by rewrite app_nil_r].
  unfold mbind at 1. unfold M_bind at 1.
  rewrite (await_run ι 1 _ (ι 0 s0) _ _ _
             (reviseTranscription_stateless svc raw initialState (ι 0 s0))).
  destruct (resultOf (reviseTranscription svc raw initialState))
    as [fin|e]; [|done].
  unfold stitched, mbind, M_bind, getState, modify.
  destruct (appendWithOverlap (transcript (ι 1 (ι 0 s0))) fin)
    as [merged growth].
  cbn. by rewrite app_nil_r.
Qed.

Lemma transcribeResidueAmid_calls ι cfg svc d s0 :
  forallb isServiceCall (traceOf (transcribeResidueAmid ι cfg svc d s0))
  = true.
Proof.
  rewrite transcribeResidueAmid_run. destruct (negb _); [done|]. cbv zeta.
  pose proof (runWhisperOnBuffer_emitsOnly svc d initialState) as Hw.
  destruct (resultOf (runWhisperOnBuffer svc d initialState))
    as [raw|e]; [|done].
  destruct (_ <=? _); [|done].
  pose proof (reviseTranscription_emitsOnly svc raw initialState) as Hr.
  destruct (resultOf (reviseTranscription svc raw initialState));
    unfold traceOf at 1; cbn [snd]; by rewrite forallb_app, Hw, Hr.
Qed.

(** The final sweep and the response never throw. *)
Lemma sweepAndRespondAmid_run ι svc s1 :
  ∃ result post,
    resultOf (parseFinalAttributesAmid svc (inPlace ι) (transcript s1)
                (template s1) (currAttributes s1) s1) = Ok result
    ∧ sweepAndRespondAmid ι svc s1
      = (Ok tt, set_currAttributes result (ι 2 s1),
         FinalSweep (transcript s1) (template s1) (currAttributes s1) :: post
         ++ [Send (MsgUpdate (transcript (ι 2 s1)) result None)])
    ∧ forallb isServiceCall post = true.
Proof.
  destruct (parseFinalAttributesAmid_run svc (inPlace ι) (transcript s1)
              (template s1) (currAttributes s1) s1)
    as (result & post & Hrun & Hpost & _).
  exists result, post. split; [by rewrite Hrun|]. split; [|done].
  unfold sweepAndRespondAmid, mbind, M_bind, getState, modify, send, emit.
  by rewrite (await_run ι 2 _ s1 _ _ _ Hrun).
Qed.

(** The handler on a non-empty buffer, by the outcome of processing the
    residue. *)
Lemma handleStopAmid_unfold ι cfg svc s :
  audioBuffer s ≠ [] →
  let s0 := set_webmHeader None (set_nchunks 0 (set_audioBuffer [] s)) in
  let d := repairHeader (webmHeader s) (audioBuffer s) in
  handleStopAmid ι cfg svc s
  = match transcribeResidueAmid ι cfg svc d s0 with
    | (Ok _, s1, calls) =>
        let '(r, s2, t2) := sweepAndRespondAmid ι svc s1 in
        (r, s2, SetAudioBuffer [] :: calls ++ t2)
    | (Throw _, s1, calls) =>
        (Ok tt, s1,
         SetAudioBuffer [] :: calls
         ++ [Send (MsgUpdate (transcript s1) (currAttributes s1)
                     (Some final_processing_failed))])
    end.
Proof.
  intros Hne s0 d. unfold handleStopAmid.
  unfold mbind at 1. unfold M_bind at 1. unfold getState at 1.
  destruct (length (audioBuffer s) =? 0) eqn:Hlen.
  { apply Nat.eqb_eq, nil_length_inv in Hlen. done. }
  unfold mbind at 1. unfold M_bind at 1. unfold assignAudioBuffer at 1.
  unfold mbind at 1. unfold M_bind at 1. unfold modify at 1.
  unfold mbind at 1. unfold M_bind at 1. unfold modify at 1.
  fold s0. fold d. unfold tryCatch, mbind, M_bind.
  destruct (transcribeResidueAmid ι cfg svc d s0) as [[[[]|e] s1] calls].
  - destruct (sweepAndRespondAmid_run ι svc s1)
      as (result & post & _ & -> & _). done.
  - unfold respondFailed, mbind, M_bind, getState, send, emit. done.
Qed.

Lemma handleStopAmid_empty ι cfg svc s :
  audioBuffer s = [] →
  handleStopAmid ι cfg svc s
  = (Ok tt, s, [Send (MsgUpdate (transcript s) (currAttributes s) None)]).
Proof.
  intros Hempty. unfold handleStopAmid, mbind, M_bind, getState, send, emit.
  by rewrite Hempty.
Qed.

(** C2, as amended.  With an empty residual buffer [stop] sends the current
    transcript and attributes at once.  With a non-empty one it processes
    the residue; if that returns, it runs [parseFinalAttributes] over the
    transcript the session holds at that moment and then sends the one
    unmarked response; if that throws, it sends the one response marked
    [final-processing-failed] without a sweep.  Processing throws exactly
    when the voice gate lets the residue pass and the transcription call or
    the correction call throws; when the gate rejects the residue nothing is
    transcribed and the sweep runs over the transcript as it was.  This
    holds whatever other handlers do while [stop] awaits. *)
Theorem stop_final_sweep (ι : Interference) (cfg : Config) (svc : Services)
  (s : WSState) :
  (audioBuffer s = [] →
   handleStopAmid ι cfg svc s
   = (Ok tt, s, [Send (MsgUpdate (transcript s) (currAttributes s) None)]))
  ∧ (audioBuffer s ≠ [] →
     let s0 := set_webmHeader None (set_nchunks 0 (set_audioBuffer [] s)) in
     let d := repairHeader (webmHeader s) (audioBuffer s) in
     let out := handleStopAmid ι cfg svc s in
     ∃ r s1 calls,
       transcribeResidueAmid ι cfg svc d s0 = (r, s1, calls)
       ∧ forallb isServiceCall calls = true
       ∧ match r with
         | Ok _ => sweptResponse svc ι s1 calls out
         | Throw _ => failedResponse s1 calls out
         end
       ∧ (∀ e, r = Throw e ↔ residueFails cfg svc d e)
       ∧ (hasVoiceActivity svc d = false → s1 = s0 ∧ calls = [])).
Proof.
  split; [apply handleStopAmid_empty|].
  intros Hne s0 d out. subst out.
  rewrite (handleStopAmid_unfold ι cfg svc s Hne). fold s0. fold d.
  pose proof (transcribeResidueAmid_calls ι cfg svc d s0) as Hcalls.
  pose proof (transcribeResidueAmid_run ι cfg svc d s0) as Hrun.
  destruct (transcribeResidueAmid ι cfg svc d s0) as [[r s1] calls].
  exists r, s1, calls. split; [done|]. split; [done|]. split; [|split].
  - destruct r as [[]|e]; [|done].
    destruct (sweepAndRespondAmid_run ι svc s1)
      as (result & post & Hres & -> & Hpost).
    exists result, post. by repeat split.
  - intros e. unfold residueFails. cbv zeta in Hrun.
    destruct (hasVoiceActivity svc d); cbn [negb] in Hrun.
    2:{ injection Hrun as -> _ _. split; [done|]. by intros [? _]. }
    destruct (resultOf (runWhisperOnBuffer svc d initialState))
      as [raw|e1].
    2:{ injection Hrun as -> _ _. split.
        - intros [= ->]. split; [done|]. by left.
        - intros [_ [[= ->]|(raw & ? & _)]]; done. }
    destruct (Nat.leb_spec (MIN_WORD_COUNT cfg) (wordCount raw))
      as [Hmin|Hfew].
    2:{ injection Hrun as -> _ _. split; [done|].
        intros [_ [?|(raw' & [= <-] & ? & _)]]; [done|lia]. }
    destruct (resultOf (reviseTranscription svc raw initialState))
      as [fin|e2] eqn:Hrv; injection Hrun as -> _ _.
    + split; [done|].
      intros [_ [?|(raw' & [= <-] & _ & Hthrow)]]; [done|].
      rewrite Hrv in Hthrow. done.
    + split.
      * intros [= ->]. split; [done|]. right. by exists raw.
      * intros [_ [?|(raw' & [= <-] & _ & Hthrow)]]; [done|].
        rewrite Hrv in Hthrow. by injection Hthrow as ->.
  - intros Hgate. rewrite Hgate in Hrun. cbn [negb] in Hrun.
    by injection Hrun as _ -> ->.
Qed.

Lemma stop_final_sweep_witness :
  ∃ s1 calls,
    sweptResponse answeringServices undisturbed s1 calls
      (handleStopAmid undisturbed pairConfig answeringServices
         (state sessionWithResidue))
    ∧ transcript s1 = spokenText.
Proof.
  destruct (stop_final_sweep undisturbed pairConfig answeringServices
              (state sessionWithResidue)) as [_ Hresidue].
  destruct Hresidue as (r & s1 & calls & Hrun & _ & Hout & _).
  { intros Hempty. vm_compute in Hempty. discriminate Hempty. }
  exists s1, calls.
  assert (Hr : r = Ok tt ∧ transcript s1 = spokenText).
  { vm_compute in Hrun. injection Hrun as <- <- _. by vm_compute. }
  destruct Hr as [-> Ht]. split; [exact Hout|exact Ht].
Defined.

(** C2 as stated fails on an empty residual buffer: after [start], one chunk
    and its transcription job the buffer is empty and the transcript is not,
    and [stop] answers without a final sweep. *)
Lemma stop_on_empty_buffer_skips_sweep :
  audioBuffer (state sessionBeforeStop) = []
  ∧ transcript (state sessionBeforeStop) = spokenText
  ∧ ¬ sweepBeforeEveryResponse
        (traceOf (handleStop testConfig answeringServices
                    (state sessionBeforeStop))).
Proof.
  assert (Htr :
    traceOf (handleStop testConfig answeringServices (state sessionBeforeStop))
    = [Send (MsgUpdate spokenText
               (currAttributes (state sessionBeforeStop)) None)])
    by (by vm_compute).
  split; [by vm_compute|]. split; [by vm_compute|].
  intros Hclaim. rewrite Htr in Hclaim.
  destruct (Hclaim [] _ [] eq_refl) as (t & tpl & c & Hin).
  by apply not_elem_of_nil in Hin.
Qed.

End StopFacts.

(** ** Sessions: what handlers and jobs leave alone *)

Lemma preserves_assignAudioBuffer {X} (f : WSState → X) b :
  (∀ s, f (set_audioBuffer b s) = f s) → preserves f (assignAudioBuffer b).
Proof. intros Hf s. apply Hf. Qed.

Lemma parseFinalAttributes_preserves {X} (f : WSState → X) svc t tpl cand :
  preserves f (ParseGpt.parseFinalAttributes svc t tpl cand).
Proof.
  intros s. destruct (parseFinalAttributes_run svc t tpl cand s)
    as (result & post & -> & _). done.
Qed.

Ltac preserves_step :=
  match goal with
  | |- preserves _ (_ ≫= _) => apply preserves_bind; [|intros ?]
  | |- preserves _ (tryCatch _ _) => apply preserves_tryCatch; [|intros ?]
  | |- preserves _ (mret _) => apply preserves_mret
  | |- preserves _ (throw _) => apply preserves_throw
  | |- preserves _ getState => apply preserves_getState
  | |- preserves _ (emit _) => apply preserves_emit
  | |- preserves _ (send _) => apply preserves_emit
  | |- preserves _ (modify _) => apply preserves_modify; intros ?; reflexivity
  | |- preserves _ (assignAudioBuffer _) =>
      apply preserves_assignAudioBuffer; intros ?; reflexivity
  | |- preserves _ (Transcription.runWhisperOnBuffer _ _) =>
      apply runWhisperOnBuffer_preserves
  | |- preserves _ (ParseGpt.reviseTranscription _ _) =>
      apply reviseTranscription_preserves
  | |- preserves _ (ParseGpt.extractAttributesFromText _ _ _ _) =>
      apply extractAttributesFromText_preserves
  | |- preserves _ (ParseGpt.parseFinalAttributes _ _ _ _) =>
      apply parseFinalAttributes_preserves
  | |- preserves _ (if ?c then _ else _) => destruct c
  | |- preserves _ (match ?x with _ => _ end) => destruct x
  end.

Section SessionFacts.
Import JsString Stitcher Transcription ParseGpt App.

(** A job touches neither the audio buffer nor the template. *)
Lemma transcriptionJob_preserves_audioBuffer cfg svc job :
  preserves audioBuffer (transcriptionJob cfg svc job).
Proof. unfold transcriptionJob. repeat preserves_step. Qed.

Lemma transcriptionJob_preserves_template cfg svc job :
  preserves template (transcriptionJob cfg svc job).
Proof. unfold transcriptionJob. repeat preserves_step. Qed.

Lemma handleStop_preserves_template cfg svc :
  preserves template (handleStop cfg svc).
Proof. unfold handleStop. repeat preserves_step. Qed.

Lemma handleBinary_preserves_template cfg svc chunk :
  preserves template (handleBinary cfg svc chunk).
Proof. unfold handleBinary. repeat preserves_step. Qed.

Lemma initFields_preserves_audioBuffer temp_block block :
  preserves audioBuffer (initFields temp_block block).
Proof. induction block; simpl; repeat preserves_step. done. Qed.

Lemma initBlocks_preserves_audioBuffer blocks :
  preserves audioBuffer (initBlocks blocks).
Proof.
  induction blocks as [|[b [fs|]] rest IH]; simpl; repeat preserves_step;
    try done.
  apply initFields_preserves_audioBuffer.
Qed.

Lemma handleStart_preserves_audioBuffer blocks :
  preserves audioBuffer (handleStart blocks).
Proof.
  unfold handleStart. repeat preserves_step.
  apply initBlocks_preserves_audioBuffer.
Qed.

(** *** Invariants of a connection *)

Lemma runHandler_state (m : M unit) (σ : Session) :
  state (runHandler m σ) = stateOf (m (state σ)).
Proof.
  unfold runHandler, stateOf. by destruct (m (state σ)) as [[r s] tr].
Qed.

Lemma drain_invariant (P : WSState → Prop) cfg svc :
  (∀ job s, P s → P (stateOf (transcriptionJob cfg svc job s))) →
  ∀ σ, P (state σ) → P (state (drain cfg svc σ)).
Proof.
  intros Hjob σ. unfold drain. simpl.
  generalize (pending σ) as jobs. intros jobs. revert σ.
  induction jobs as [|job jobs IH]; intros σ HP; simpl; [done|].
  apply IH. rewrite runHandler_state. by apply Hjob.
Qed.

Lemma step_invariant (P : WSState → Prop) cfg svc :
  (∀ frame s, P s → P (stateOf (onMessage cfg svc frame s))) →
  (∀ job s, P s → P (stateOf (transcriptionJob cfg svc job s))) →
  ∀ σ st, P (state σ) → P (state (step cfg svc σ st)).
Proof.
  intros Hmsg Hjob σ st HP. destruct st as [frame|i]; simpl.
  - destruct frame; rewrite runHandler_state;
      try (by apply (Hmsg (TextStart _)) || by apply (Hmsg (Binary _))).
    + by apply (Hmsg TextBadJson).
    + by apply (Hmsg TextNull).
    + apply (Hmsg TextStop). by apply drain_invariant.
    + by apply (Hmsg TextOther).
  - destruct (pending σ !! i); [|done].
    rewrite runHandler_state. by apply Hjob.
Qed.

Lemma run_invariant (P : WSState → Prop) cfg svc :
  P initialState →
  (∀ frame s, P s → P (stateOf (onMessage cfg svc frame s))) →
  (∀ job s, P s → P (stateOf (transcriptionJob cfg svc job s))) →
  ∀ steps, P (state (run cfg svc steps)).
Proof.
  intros Hinit Hmsg Hjob steps. unfold run.
  induction steps as [|st steps IH] using rev_ind; [done|].
  rewrite foldl_app. simpl. by apply step_invariant.
Qed.

End SessionFacts.

(** ** Binary frames and the buffer limit *)

Section BinaryFacts.
Import JsString Stitcher Transcription ParseGpt App.

(** The buffer a binary frame leaves behind. *)
Lemma handleBinary_audioBuffer cfg svc chunk s :
  let s' := stateOf (handleBinary cfg svc chunk s) in
  audioBuffer s' = audioBuffer s
  ∨ (audioBuffer s' = audioBuffer s ++ chunk
     ∧ length (audioBuffer s) + length chunk ≤ MAX_AUDIO_BUFFER_SIZE cfg)
  ∨ audioBuffer s' = [].
Proof.
  unfold handleBinary, mbind, M_bind, getState, assignAudioBuffer, modify,
    emit, mret, M_ret, stateOf.
  destruct (Nat.ltb_spec (MAX_AUDIO_BUFFER_SIZE cfg)
              (length (audioBuffer s) + length chunk)) as [Hover|Hfits].
  { by left. }
  repeat (cbn [fst snd app audioBuffer nchunks webmHeader set_audioBuffer
               set_nchunks set_webmHeader];
          match goal with
          | |- context [if ?c then _ else _] => destruct c
          | |- context [match ?h with Some _ => _ | None => _ end] =>
              destruct h
          end);
    cbn [fst snd app audioBuffer nchunks webmHeader set_audioBuffer
         set_nchunks set_webmHeader];
    first [by left | by right; left | by right; right].
Qed.

Lemma handleBinary_within_limit cfg svc chunk s :
  length (audioBuffer s) ≤ MAX_AUDIO_BUFFER_SIZE cfg →
  length (audioBuffer (stateOf (handleBinary cfg svc chunk s)))
  ≤ MAX_AUDIO_BUFFER_SIZE cfg.
Proof.
  intros Hs.
  destruct (handleBinary_audioBuffer cfg svc chunk s) as [->|[[-> ?]| ->]].
  - done.
  - rewrite length_app. lia.
  - simpl. lia.
Qed.

Lemma handleStop_audioBuffer cfg svc s :
  length (audioBuffer (stateOf (handleStop cfg svc s)))
  ≤ length (audioBuffer s).
Proof.
  destruct (decide (audioBuffer s = [])) as [Hempty|Hne].
  - by rewrite handleStop_empty.
  - rewrite (handleStop_unfold cfg svc s Hne). unfold stateOf at 1. simpl.
    match goal with
    | |- context [tryCatch ?b ?h ?st] =>
        assert (Hp : preserves audioBuffer (tryCatch b h))
    end.
    { unfold transcribeResidue, sweepAndRespond, respondFailed.
      repeat preserves_step. }
    rewrite Hp. simpl. lia.
Qed.

(** C3, as amended.  A chunk that would take the buffer over the limit is
    dropped: the handler sends one [audio-buffer-overflow] error, adds no job
    and leaves the session state as it was.  Consequently the buffer held in
    the session state is within the limit whenever a handler or a job has
    returned, at every step of every connection. *)
Theorem binary_overflow_and_limit (cfg : Config) (svc : Services) :
  (∀ chunk s,
     MAX_AUDIO_BUFFER_SIZE cfg < length (audioBuffer s) + length chunk →
     handleBinary cfg svc chunk s
     = (Ok tt, s, [Send (MsgError audio_buffer_overflow)]))
  ∧ (∀ steps,
       length (audioBuffer (state (run cfg svc steps)))
       ≤ MAX_AUDIO_BUFFER_SIZE cfg).
Proof.
  split.
  - intros chunk s Hover.
    unfold handleBinary, mbind, M_bind, getState, send, emit.
    destruct (Nat.ltb_spec (MAX_AUDIO_BUFFER_SIZE cfg)
                (length (audioBuffer s) + length chunk)); [done|lia].
  - apply (run_invariant
             (λ s, length (audioBuffer s) ≤ MAX_AUDIO_BUFFER_SIZE cfg)).
    + simpl. lia.
    + intros frame s Hs. destruct frame; simpl; try done.
      * by rewrite handleStart_preserves_audioBuffer.
      * etrans; [apply handleStop_audioBuffer|done].
      * by apply handleBinary_within_limit.
    + intros job s Hs. by rewrite transcriptionJob_preserves_audioBuffer.
Qed.

Lemma binary_overflow_and_limit_witness :
  handleBinary testConfig answeringServices ["001"%byte] fullBufferState
  = (Ok tt, fullBufferState, [Send (MsgError audio_buffer_overflow)]).
Proof.
  apply (binary_overflow_and_limit testConfig answeringServices).
  apply (Nat.ltb_lt 1000 1001). by vm_compute.
Defined.

(** C3 as stated fails inside the cutover: once the header has been
    captured, a later segment that lacks it gets the header prepended in
    [state.audioBuffer] itself, and that value is over the limit. *)
Lemma header_prepend_exceeds_limit :
  ¬ bufferAlwaysWithinLimit testConfig
      (log (run testConfig answeringServices
              [Deliver (Binary webmChunk); Deliver (Binary loudAudio)])).
Proof.
  intros Hclaim.
  assert (Hin : SetAudioBuffer (webmChunk ++ loudAudio)
                ∈ log (run testConfig answeringServices
                         [Deliver (Binary webmChunk);
                          Deliver (Binary loudAudio)])).
  { apply (list_elem_of_lookup_2 _ 3). by vm_compute. }
  apply Hclaim, Nat.leb_le in Hin. vm_compute in Hin. discriminate.
Qed.

End BinaryFacts.

(** ** The [start] handler *)

Section StartFacts.
Import JsString Stitcher Transcription ParseGpt App.

Lemma startedFrom_refl s : startedFrom s s [].
Proof. unfold startedFrom. rewrite app_nil_r. by repeat split. Qed.

Lemma startedFrom_trans s1 s2 s3 f1 f2 :
  startedFrom s1 s2 f1 → startedFrom s2 s3 f2 → startedFrom s1 s3 (f1 ++ f2).
Proof.
  intros (Ht1 & Ha1 & ? & ? & ? & ? & ?) (Ht2 & Ha2 & ? & ? & ? & ? & ?).
  unfold startedFrom. rewrite Ht2, Ht1, app_assoc.
  repeat split; try congruence.
  rewrite Ha2, Ha1. unfold startAttributes. by rewrite fmap_app, foldl_app.
Qed.

Lemma initFields_run temp_block names s :
  ∃ s', initFields temp_block (Some <$> names) s = (Ok tt, s', [])
        ∧ startedFrom s s' (mkFieldDef temp_block <$> names).
Proof.
  revert s. induction names as [|name rest IH]; intros s.
  - exists s. split; [done|]. apply startedFrom_refl.
  - set (s1 := set_currAttributes (objectAssign name [] (currAttributes s))
                 (set_template (template s ++ [mkFieldDef temp_block name])
                    s)).
    destruct (IH s1) as (s' & Hrun & Hfrom). exists s'. split.
    + cbn [fmap list_fmap initFields]. unfold mbind, M_bind, modify.
      change (initFields temp_block (Some <$> rest) _)
        with (initFields temp_block (Some <$> rest) s1).
      by rewrite Hrun.
    + change (mkFieldDef temp_block <$> name :: rest)
        with ([mkFieldDef temp_block name]
              ++ (mkFieldDef temp_block <$> rest)).
      apply (startedFrom_trans s s1 s'); [|done].
      unfold startedFrom, s1. cbn. by repeat split.
Qed.

Lemma initBlocks_run blocks s :
  ∃ s', initBlocks (plainBlocks blocks) s = (Ok tt, s', [])
        ∧ startedFrom s s' (fieldsOf blocks).
Proof.
  revert s. induction blocks as [|[b [block|]] rest IH]; intros s.
  - exists s. split; [done|]. apply startedFrom_refl.
  - destruct (initFields_run b block s) as (s1 & Hrun1 & Hfrom1).
    destruct (IH s1) as (s' & Hrun & Hfrom). exists s'. split.
    + unfold plainBlocks in *. cbn [fmap list_fmap initBlocks fst snd].
      unfold mbind, M_bind.
      change (list_fmap _ _ Some block) with (Some <$> block).
      by rewrite Hrun1, Hrun.
    + apply (startedFrom_trans s s1 s'); done.
  - destruct (IH s) as (s' & Hrun & Hfrom). by exists s'.
Qed.

Lemma handleStart_initialised blocks s :
  template s ≠ [] →
  handleStart blocks s
  = (Ok tt, s, [Send (MsgStarted (length (template s)))]).
Proof.
  intros Hne. unfold handleStart, tryCatch, mbind, M_bind, getState, send,
    emit, mret, M_ret.
  destruct (length (template s) =? 0) eqn:Hlen; [|reflexivity].
  by apply Nat.eqb_eq, nil_length_inv in Hlen.
Qed.

(** The attribute under [name] after the assignments of a [start]: a field
    name gets [""], except that ["__proto__"] gets nothing unless the
    attributes already have an entry of that name. *)
Lemma startAttributes_lookup names attributes name :
  startAttributes names attributes !! name
  = if bool_decide (name ∈ names)
       && negb (bool_decide (name = protoKey)
                && negb (bool_decide (is_Some (attributes !! name))))
    then Some [] else attributes !! name.
Proof.
  unfold startAttributes. revert attributes.
  induction names as [|n rest IH]; intros attributes.
  - cbn [foldl].
    by rewrite (bool_decide_eq_false_2 (name ∈ [])) by apply not_elem_of_nil.
  - cbn [foldl]. rewrite IH, objectAssign_lookup.
    destruct (decide (name = n)) as [->|Hne].
    + rewrite (bool_decide_eq_true_2 (n = n)) by done.
      rewrite (bool_decide_eq_true_2 (n ∈ n :: rest))
        by (apply elem_of_cons; by left).
      cbn [andb].
      destruct (negb (bool_decide (n = protoKey)
                      && negb (bool_decide (is_Some (attributes !! n)))))
        eqn:Hp.
      * by destruct (bool_decide (n ∈ rest) && _).
      * apply negb_false_iff in Hp. rewrite Hp. cbn [negb].
        by rewrite andb_false_r.
    + rewrite (bool_decide_eq_false_2 (name = n)) by done. cbn [andb].
      assert (Hin : bool_decide (name ∈ n :: rest) = bool_decide (name ∈ rest)).
      { apply bool_decide_ext. rewrite elem_of_cons.
        split; [by intros [?|?]|by right]. }
      by rewrite Hin.
Qed.

(** C4, at a field named ["__proto__"]: [start] puts both fields into the
    template and acknowledges a template of size 2, but the assignment
    [state.currAttributes["__proto__"] = ""] creates no entry, so that field
    is left without an attribute.  And at a field without a string form:
    the first [start] is answered with [bad-start-payload] but has already
    put the field before it into the template, so the next [start], whose
    blocks are valid, finds the template set and installs nothing.  The
    earlier server makes the same assignment and leaves the same field
    without an attribute. *)
Theorem start_proto_field_without_attribute :
  (∃ s',
     handleStart (plainBlocks protoBlocks) initialState
     = (Ok tt, s', [Send (MsgStarted 2)])
     ∧ template s'
       = [mkFieldDef (js "id") protoKey; mkFieldDef (js "id") (js "name")]
     ∧ currAttributes s' !! js "name" = Some []
     ∧ currAttributes s' !! protoKey = None)
  ∧ (∃ s',
       handleStart brokenBlocks initialState
       = (Ok tt, s', [Send (MsgError bad_start_payload)])
       ∧ template s' = [mkFieldDef (js "id") (js "name")]
       ∧ handleStart (plainBlocks startBlocks) s'
         = (Ok tt, s', [Send (MsgStarted 1)])
       ∧ currAttributes s' !! js "dob" = None)
  ∧ (∃ s',
       AppEarlier.handleStart (Some (plainBlocks protoBlocks)) initialState
       = (Ok tt, s', [])
       ∧ template s'
         = [mkFieldDef (js "id") protoKey; mkFieldDef (js "id") (js "name")]
       ∧ currAttributes s' !! protoKey = None).
Proof.
  split; [|split].
  - eexists. split; [by vm_compute|]. by vm_compute.
  - eexists. split; [by vm_compute|]. by vm_compute.
  - eexists. split; [by vm_compute|]. by vm_compute.
Qed.

End StartFacts.

(** ** The transcription job *)

Section JobFacts.
Import JsString Stitcher Transcription ParseGpt App.

(** C8, as amended.  A job always hands the raw transcription to the
    correction client, which asks the model whenever the trimmed raw text has
    at least 15 code units.  If the corrected text has fewer words than the
    minimum the job ends silently: state untouched, nothing sent.  Otherwise
    the corrected text is stitched into the transcript, incremental
    extraction runs over the window of the last two growths, its result is
    merged over the attributes and the update is sent. *)
Theorem transcriptionJob_gate (cfg : Config) (svc : Services) (job : Buffer)
  (s : WSState) (raw : jsstring) (tw : list Event) (revised : jsstring)
  (trv : list Event) :
  runWhisperOnBuffer svc job s = (Ok raw, s, tw) →
  reviseTranscription svc raw s = (Ok revised, s, trv) →
  gatedOnRevisedWordCount cfg svc job s raw tw revised trv.
Proof.
  intros Hw Hr. split; [|split].
  - intros Hlong. revert Hr. unfold reviseTranscription.
    destruct (Nat.ltb_spec (length (trim raw)) 15) as [Hshort|_]; [lia|].
    unfold mbind, M_bind, emit.
    destruct (match reviseModel svc raw with _ => _ end s)
      as [[r s2] t2].
    intros [= _ _ <-]. apply elem_of_cons. by left.
  - intros Hfew. unfold transcriptionJob, tryCatch, mbind, M_bind.
    rewrite Hw, Hr.
    destruct (Nat.ltb_spec (wordCount revised) (MIN_WORD_COUNT cfg));
      [|lia].
    cbn. by rewrite app_nil_r.
  - intros Henough.
    destruct (appendWithOverlap (transcript s) revised) as [merged growth]
      eqn:Hstitch.
    exists merged, growth. split; [done|]. intros window s1 extracted te He.
    unfold transcriptionJob, tryCatch, mbind, M_bind.
    rewrite Hw, Hr.
    destruct (Nat.ltb_spec (wordCount revised) (MIN_WORD_COUNT cfg));
      [lia|].
    unfold getState at 1. rewrite Hstitch.
    unfold modify, getState, send, emit. cbn [transcript currTranscriptSize
      set_transcript set_currTranscriptSize template currAttributes].
    fold window. fold s1. rewrite He. reflexivity.
Qed.

Lemma transcriptionJob_gate_witness :
  gatedOnRevisedWordCount testConfig answeringServices loudAudio initialState
    spokenText [WhisperFetch 1 loudAudio]
    spokenText [ReviseRequest spokenText].
Proof.
  apply transcriptionJob_gate; reflexivity.
Defined.

(** C8 as stated fails: the speech service returns two words, fewer than the
    minimum of three, yet the correction model is asked, and since the
    corrected text has four words the transcript grows and an update is
    sent. *)
Lemma transcriptionJob_not_gated_on_raw :
  wordCount mumbledText < MIN_WORD_COUNT testConfig
  ∧ ReviseRequest mumbledText ∈ traceOf mumbledJob
  ∧ transcript (stateOf mumbledJob) = js "transcription of the world"
  ∧ sent (traceOf mumbledJob)
    = [MsgUpdate (js "transcription of the world") ∅ None]
  ∧ ¬ gatedOnRawWordCount testConfig mumbledText initialState
        (stateOf mumbledJob) (traceOf mumbledJob).
Proof.
  assert (Hfew : wordCount mumbledText < MIN_WORD_COUNT testConfig).
  { apply (Nat.ltb_lt 2 3). by vm_compute. }
  assert (Hasked : ReviseRequest mumbledText ∈ traceOf mumbledJob).
  { apply (list_elem_of_lookup_2 _ 1). by vm_compute. }
  split; [done|]. split; [done|].
  split; [by vm_compute|]. split; [by vm_compute|].
  intros [_ Hgate]. apply Hgate in Hasked. lia.
Qed.

End JobFacts.

(** ** The transcript only grows *)

Section TranscriptFacts.
Import JsString Stitcher Transcription ParseGpt App.

Lemma appendWithOverlap_extends (base addition : jsstring) :
  base `prefix_of` (appendWithOverlap base addition).1.
Proof.
  destruct (appendWithOverlap_at_largest base addition) as (k & _ & _ & ->).
  by apply prefix_app_r.
Qed.

(** The state after a service call is the state before it. *)
Lemma preserves_state {A} (m : M A) (s : WSState) r s' tr :
  preserves (λ s, s) m → m s = (r, s', tr) → s' = s.
Proof.
  intros Hm Hrun. specialize (Hm s). unfold stateOf in Hm.
  by rewrite Hrun in Hm.
Qed.

Lemma transcriptionJob_transcript cfg svc job s :
  transcript s
  `prefix_of` transcript (stateOf (transcriptionJob cfg svc job s)).
Proof.
  unfold transcriptionJob, tryCatch, mbind, M_bind, stateOf.
  destruct (runWhisperOnBuffer svc job s) as [[[raw|e] s1] tw] eqn:Hw;
    apply preserves_state in Hw as ->;
    try apply runWhisperOnBuffer_preserves; [|done].
  destruct (reviseTranscription svc raw s) as [[[revised|e] s1] trv] eqn:Hr;
    apply preserves_state in Hr as ->;
    try apply reviseTranscription_preserves; [|done].
  destruct (_ <? _); [done|].
  unfold getState at 1.
  pose proof (appendWithOverlap_extends (transcript s) revised) as Hext.
  destruct (appendWithOverlap (transcript s) revised) as [merged growth].
  unfold modify, getState, send, emit. cbn.
  match goal with
  | |- context [extractAttributesFromText ?a ?b ?c ?d ?st] =>
      destruct (extractAttributesFromText a b c d st)
        as [[[extracted|e] s1] te] eqn:He;
      apply preserves_state in He as ->;
      try apply extractAttributesFromText_preserves
  end; done.
Qed.

Lemma handleStop_transcript cfg svc s :
  transcript s `prefix_of` transcript (stateOf (handleStop cfg svc s)).
Proof.
  destruct (decide (audioBuffer s = [])) as [Hempty|Hne].
  { by rewrite handleStop_empty. }
  rewrite (handleStop_unfold cfg svc s Hne). unfold stateOf at 1. cbn [fst snd].
  set (s0 := set_webmHeader None (set_nchunks 0 (set_audioBuffer [] s))).
  set (d := repairHeader (webmHeader s) (audioBuffer s)).
  change (transcript s) with (transcript s0).
  assert (Hres : transcript s0
            `prefix_of` transcript (stateOf (transcribeResidue cfg svc d s0))).
  { unfold transcribeResidue, mbind, M_bind, stateOf.
    destruct (negb _); [done|].
    destruct (runWhisperOnBuffer svc d s0) as [[[raw|e] s1] tw] eqn:Hw;
      apply preserves_state in Hw as ->;
      try apply runWhisperOnBuffer_preserves; [|done].
    destruct (_ <=? _); [|done].
    destruct (reviseTranscription svc raw s0) as [[[fin|e] s1] trv] eqn:Hr;
      apply preserves_state in Hr as ->;
      try apply reviseTranscription_preserves; [|done].
    unfold getState.
    pose proof (appendWithOverlap_extends (transcript s0) fin) as Hext.
    by destruct (appendWithOverlap (transcript s0) fin) as [merged growth]. }
  destruct (transcribeResidue cfg svc d s0) as [[[[]|e] s1] ta] eqn:HA.
  - destruct (stop_try_ok svc _ s0 s1 ta HA) as (result & post & -> & _).
    done.
  - by rewrite (stop_try_throw svc _ s0 s1 ta e HA).
Qed.

(** No frame and no job makes the transcript shorter or rewrites what is
    already there: the transcript before a step is a prefix of the transcript
    after it. *)
Lemma step_transcript_grows cfg svc σ st :
  transcript (state σ) `prefix_of` transcript (state (step cfg svc σ st)).
Proof.
  apply (step_invariant
           (λ s, transcript (state σ) `prefix_of` transcript s) cfg svc);
    [| |done].
  - intros frame s Hs. destruct frame; simpl; try done.
    + assert (Hp : preserves transcript (handleStart blocks)).
      { unfold handleStart. repeat preserves_step.
        clear. induction blocks as [|[b [fs|]] rest IH]; simpl;
          repeat preserves_step; try done.
        clear. induction fs; simpl; repeat preserves_step. done. }
      by rewrite Hp.
    + etrans; [done|apply handleStop_transcript].
    + assert (Hp : preserves transcript (handleBinary cfg svc chunk)).
      { unfold handleBinary. repeat preserves_step. }
      by rewrite Hp.
  - intros job s Hs. etrans; [done|apply transcriptionJob_transcript].
Qed.

End TranscriptFacts.

(* ===================================================================== *)
(** * Part III: further properties of the code                            *)
(* ===================================================================== *)

(** ** Bytes, the header check and base64 *)

Section ByteFacts.
Import JsString AudioCache Transcription.
Local Open Scope N_scope.

Lemma lor_shiftl_add (a b k : N) :
  b < 2 ^ k → N.lor (N.shiftl a k) b = a * 2 ^ k + b.
Proof.
  intros Hb. rewrite <- N.shiftl_mul_pow2.
  assert (Hdisj : N.land (N.shiftl a k) b = 0).
  { apply N.bits_inj. intros n. rewrite N.land_spec, N.bits_0.
    destruct (N.lt_ge_cases n k) as [Hlt|Hge].
    - by rewrite N.shiftl_spec_low.
    - destruct (N.eq_0_gt_0_cases b) as [->|Hpos].
      + by rewrite N.bits_0, andb_false_r.
      + rewrite (N.bits_above_log2 b n), andb_false_r; [done|].
        apply N.log2_lt_pow2 in Hb; [lia|done]. }
  by rewrite N.add_nocarry_lxor, N.lxor_lor.
Qed.

Lemma readUInt32BE_sum b0 b1 b2 b3 rest :
  Transcription.readUInt32BE (b0 :: b1 :: b2 :: b3 :: rest)
  = Some (Byte.to_N b0 * 16777216 + Byte.to_N b1 * 65536
          + Byte.to_N b2 * 256 + Byte.to_N b3).
Proof.
  pose proof (Byte.to_N_bounded b1). pose proof (Byte.to_N_bounded b2).
  pose proof (Byte.to_N_bounded b3).
  unfold Transcription.readUInt32BE.
  rewrite (lor_shiftl_add (Byte.to_N b2) (Byte.to_N b3) 8) by (simpl; lia).
  rewrite (lor_shiftl_add (Byte.to_N b1) _ 16) by (simpl; lia).
  rewrite (lor_shiftl_add (Byte.to_N b0) _ 24) by (simpl; lia).
  f_equal. simpl. lia.
Qed.

Lemma to_N_inj (x y : byte) : Byte.to_N x = Byte.to_N y → x = y.
Proof.
  intros H. pose proof (Byte.of_to_N x) as Hx. rewrite H, Byte.of_to_N in Hx.
  congruence.
Qed.

Lemma base64Digit_inj (i j : N) :
  i < 64 → j < 64 → base64Digit i = base64Digit j → i = j.
Proof.
  intros Hi Hj Heq.
  assert (Hall : forallb (λ a, forallb (λ b,
            implb (base64Digit (N.of_nat a) =? base64Digit (N.of_nat b))
                  (Nat.eqb a b)) (seq 0 64)) (seq 0 64) = true)
    by (by vm_compute).
  rewrite forallb_forall in Hall.
  specialize (Hall (N.to_nat i)). rewrite forallb_forall in Hall.
  assert (Hin : ∀ k, k < 64 → In (N.to_nat k) (seq 0 64)).
  { intros k Hk. apply in_seq. lia. }
  specialize (Hall (Hin i Hi) (N.to_nat j) (Hin j Hj)).
  rewrite !N2Nat.id, Heq, N.eqb_refl in Hall. simpl in Hall.
  apply Nat.eqb_eq in Hall. lia.
Qed.

Lemma base64Digit_not_pad (i : N) : i < 64 → base64Digit i ≠ base64Pad.
Proof.
  intros Hi Heq.
  assert (Hall : forallb (λ a, negb (base64Digit (N.of_nat a) =? base64Pad))
            (seq 0 64) = true) by (by vm_compute).
  rewrite forallb_forall in Hall.
  specialize (Hall (N.to_nat i)). rewrite N2Nat.id, Heq, N.eqb_refl in Hall.
  assert (Hin : In (N.to_nat i) (seq 0 64)) by (apply in_seq; lia).
  by specialize (Hall Hin).
Qed.

(** The four sextets of three bytes, in arithmetic. *)
Lemma sextet1 n : N.shiftr n 2 = n / 4.
Proof. by rewrite N.shiftr_div_pow2. Qed.
Lemma sextet2 n m : m < 256 →
  N.lor (N.shiftl (N.land n 3) 4) (N.shiftr m 4) = (n mod 4) * 16 + m / 16.
Proof.
  intros Hm. change 3 with (N.ones 2). rewrite N.land_ones, N.shiftr_div_pow2.
  rewrite lor_shiftl_add; [done|].
  change (2 ^ 4) with 16. apply N.Div0.div_lt_upper_bound. lia.
Qed.
Lemma sextet3 m o : o < 256 →
  N.lor (N.shiftl (N.land m 15) 2) (N.shiftr o 6) = (m mod 16) * 4 + o / 64.
Proof.
  intros Ho. change 15 with (N.ones 4). rewrite N.land_ones, N.shiftr_div_pow2.
  rewrite lor_shiftl_add; [done|].
  change (2 ^ 6) with 64. change (2^2) with 4.
  apply N.Div0.div_lt_upper_bound. lia.
Qed.
Lemma sextet4 o : N.land o 63 = o mod 64.
Proof. change 63 with (N.ones 6). by rewrite N.land_ones. Qed.
Lemma sextet2_last n : N.shiftl (N.land n 3) 4 = (n mod 4) * 16.
Proof. change 3 with (N.ones 2). by rewrite N.land_ones, N.shiftl_mul_pow2. Qed.
Lemma sextet3_last m : N.shiftl (N.land m 15) 2 = (m mod 16) * 4.
Proof.
  change 15 with (N.ones 4). by rewrite N.land_ones, N.shiftl_mul_pow2.
Qed.

Ltac byte_facts :=
  repeat match goal with
  | b : byte |- _ =>
      lazymatch goal with
      | _ : Byte.to_N b <= 255 |- _ => fail
      | _ =>
          pose proof (Byte.to_N_bounded b);
          pose proof (N.div_mod (Byte.to_N b) 4 ltac:(done));
          pose proof (N.mod_lt (Byte.to_N b) 4 ltac:(done));
          pose proof (N.div_mod (Byte.to_N b) 16 ltac:(done));
          pose proof (N.mod_lt (Byte.to_N b) 16 ltac:(done));
          pose proof (N.div_mod (Byte.to_N b) 64 ltac:(done));
          pose proof (N.mod_lt (Byte.to_N b) 64 ltac:(done))
      end
  end.

(** Linear arithmetic with quotients and remainders as unknowns. *)
Ltac dlia :=
  repeat match goal with
  | |- context [?a / ?d] =>
      let q := fresh "q" in set (q := a / d) in *; clearbody q
  | |- context [?a mod ?d] =>
      let r := fresh "r" in set (r := a mod d) in *; clearbody r
  | H : context [?a / ?d] |- _ =>
      let q := fresh "q" in set (q := a / d) in *; clearbody q
  | H : context [?a mod ?d] |- _ =>
      let r := fresh "r" in set (r := a mod d) in *; clearbody r
  end; lia.

Ltac digits_eq :=
  repeat match goal with
  | H : base64Digit _ = base64Pad |- _ =>
      exfalso; revert H; apply base64Digit_not_pad; dlia
  | H : base64Pad = base64Digit _ |- _ =>
      exfalso; symmetry in H; revert H; apply base64Digit_not_pad; dlia
  | H : base64Digit _ = base64Digit _ |- _ =>
      apply base64Digit_inj in H; [|dlia|dlia]
  end.

Lemma base64_inj (b1 b2 : Buffer) : base64 b1 = base64 b2 → b1 = b2.
Proof.
  remember (length b1) as len eqn:Hlen. revert b1 b2 Hlen.
  induction len as [len IH] using lt_wf_ind. intros b1 b2 Hlen Heq.
  destruct b1 as [|x [|y [|z r1]]]; destruct b2 as [|x' [|y' [|z' r2]]];
    cbn [base64] in Heq; try reflexivity;
    try (exfalso; apply (f_equal length) in Heq; cbn [length] in Heq; lia);
    byte_facts;
    rewrite ?sextet1, ?sextet2, ?sextet3, ?sextet4, ?sextet2_last,
      ?sextet3_last in Heq by lia;
    injection Heq as ?; digits_eq.
  - f_equal. apply to_N_inj. dlia.
  - assert (Byte.to_N x = Byte.to_N x') by dlia.
    assert (Byte.to_N y = Byte.to_N y') by dlia.
    f_equal; [by apply to_N_inj|]. f_equal. by apply to_N_inj.
  - assert (Byte.to_N x = Byte.to_N x') by dlia.
    assert (Byte.to_N y = Byte.to_N y') by dlia.
    assert (Byte.to_N z = Byte.to_N z') by dlia.
    f_equal; [by apply to_N_inj|]. f_equal; [by apply to_N_inj|].
    f_equal; [by apply to_N_inj|].
    apply (IH (length r1)); [simpl in Hlen; lia|done|done].
Qed.

(** Only one sequence of four bytes reads as the magic number. *)
Lemma magic_bytes b0 b1 b2 b3 rest :
  match readUInt32BE (b0 :: b1 :: b2 :: b3 :: rest) with
  | Some v => v =? 0x1a45dfa3
  | None => false
  end = true →
  b0 = x1a ∧ b1 = x45 ∧ b2 = xdf ∧ b3 = xa3.
Proof.
  rewrite readUInt32BE_sum. intros H. apply N.eqb_eq in H.
  pose proof (Byte.to_N_bounded b0). pose proof (Byte.to_N_bounded b1).
  pose proof (Byte.to_N_bounded b2). pose proof (Byte.to_N_bounded b3).
  assert (Byte.to_N b0 = Byte.to_N x1a) by (simpl; lia).
  assert (Byte.to_N b1 = Byte.to_N x45) by (simpl; lia).
  assert (Byte.to_N b2 = Byte.to_N xdf) by (simpl; lia).
  assert (Byte.to_N b3 = Byte.to_N xa3) by (simpl; lia).
  repeat split; by apply to_N_inj.
Qed.

End ByteFacts.

(** ** Audio cache keys and the header check *)

Section AudioKeyFacts.
Import JsString AudioCache Transcription.

Lemma base64_length (b : Buffer) :
  length (base64 b) = 4 * ((length b + 2) / 3).
Proof.
  remember (length b) as len eqn:Hlen. revert b Hlen.
  induction len as [len IH] using lt_wf_ind. intros b Hlen.
  destruct b as [|x [|y [|z r]]]; cbn [base64 length] in *; subst len;
    try reflexivity.
  rewrite (IH (length r)) by (done || lia).
  replace (S (S (S (length r))) + 2) with (1 * 3 + (length r + 2)) by lia.
  rewrite Nat.div_add_l by done. lia.
Qed.

(** The key is the encoding of the first 48 bytes, whatever the length. *)
Lemma createAudioKey_head (b : Buffer) :
  createAudioKey b = base64 (take 48 b).
Proof.
  destruct (Nat.le_gt_cases 48 (length b)) as [Hlong|Hshort].
  - by apply createAudioKey_take48.
  - rewrite take_ge by lia. unfold createAudioKey.
    change 64%Z with (Z.of_nat 64). rewrite slice_prefix.
    apply take_ge. rewrite base64_length.
    assert ((length b + 2) / 3 < 17); [|lia].
    apply Nat.Div0.div_lt_upper_bound. lia.
Qed.

(** X1. [checkWebMIntegrity] accepts exactly the buffers that begin with the
    four bytes 1A 45 DF A3; anything shorter than four bytes is refused. *)
Theorem checkWebMIntegrity_magic (data : Buffer) :
  checkWebMIntegrity data = true ↔ [x1a; x45; xdf; xa3] `prefix_of` data.
Proof.
  unfold checkWebMIntegrity. split.
  - intros H. apply andb_true_iff in H as [_ H].
    destruct data as [|b0 [|b1 [|b2 [|b3 rest]]]]; try done.
    apply magic_bytes in H as (-> & -> & -> & ->). by exists rest.
  - intros [rest ->]. reflexivity.
Qed.

(** X2. Two buffers get the same audio cache key exactly when their first 48
    bytes are the same (all of the buffer, when it is shorter): base64 is
    injective, so nothing but the cut at 64 digits makes keys collide. *)
Theorem createAudioKey_eq_iff (b1 b2 : Buffer) :
  createAudioKey b1 = createAudioKey b2 ↔ take 48 b1 = take 48 b2.
Proof.
  rewrite !createAudioKey_head. split; [apply base64_inj|by intros ->].
Qed.

(** X3. The key has [min(64, 4 * ceil(len / 3))] code units: 64 for every
    buffer of 46 bytes or more, and the empty string for the empty buffer
    only. *)
Theorem createAudioKey_length (b : Buffer) :
  length (createAudioKey b) = Nat.min 64 (4 * ((length b + 2) / 3))
  ∧ (createAudioKey b = [] ↔ b = []).
Proof.
  split.
  - unfold createAudioKey. change 64%Z with (Z.of_nat 64).
    by rewrite slice_prefix, length_take, base64_length.
  - split; [|by intros ->].
    intros Hkey. rewrite createAudioKey_head in Hkey.
    apply (base64_inj _ []) in Hkey. by destruct b.
Qed.

End AudioKeyFacts.

(** ** More on the stitcher and the word count *)

Section StitcherMore.
Import JsString Stitcher.

(** When [base] already ends with [addition], nothing is appended. *)
Lemma appendWithOverlap_of_suffix (base addition : jsstring) :
  addition `suffix_of` base → appendWithOverlap base addition = (base, 0).
Proof.
  intros [pre ->].
  destruct (appendWithOverlap_at_largest (pre ++ addition) addition)
    as (k & [Hk _] & Hmax & ->).
  assert (Hfull : overlap (pre ++ addition) addition (length addition)).
  { split.
    - rewrite length_app. lia.
    - rewrite length_app, Nat.add_sub, drop_app_length. by rewrite take_ge. }
  apply Hmax in Hfull.
  assert (k = length addition) as -> by lia.
  by rewrite drop_all, app_nil_r, Nat.sub_diag.
Qed.

Lemma appendWithOverlap_ends_with (base addition : jsstring) :
  addition `suffix_of` (appendWithOverlap base addition).1.
Proof.
  destruct (appendWithOverlap_at_largest base addition)
    as (k & [Hk Heq] & _ & ->).
  exists (take (length base - k) base). cbn [fst].
  transitivity (take (length base - k) base
                ++ take k addition ++ drop k addition).
  - by rewrite <- Heq, app_assoc, take_drop.
  - by rewrite take_drop.
Qed.

(** X4. The stitch reports growth 0 exactly when the transcript already ends
    with the fragment, and then the transcript is returned as it was. *)
Theorem appendWithOverlap_no_growth (base addition : jsstring) :
  ((appendWithOverlap base addition).2 = 0 ↔ addition `suffix_of` base)
  ∧ (addition `suffix_of` base → (appendWithOverlap base addition).1 = base).
Proof.
  split; [split|].
  - destruct (appendWithOverlap_at_largest base addition)
      as (k & [Hk Heq] & _ & ->). cbn [snd]. intros Hzero.
    assert (k = length addition) as -> by lia.
    rewrite take_ge in Heq by lia. rewrite <- Heq. apply suffix_drop.
  - intros Hsuf. by rewrite appendWithOverlap_of_suffix.
  - intros Hsuf. by rewrite appendWithOverlap_of_suffix.
Qed.

(** X5. Stitching the same fragment a second time changes nothing: a segment
    that is transcribed twice is not duplicated in the transcript. *)
Theorem appendWithOverlap_twice (base addition : jsstring) :
  appendWithOverlap (appendWithOverlap base addition).1 addition
  = ((appendWithOverlap base addition).1, 0).
Proof.
  apply appendWithOverlap_of_suffix, appendWithOverlap_ends_with.
Qed.

Lemma splitWhiteSpace_nonempty (inGap : bool) (cur s : jsstring) :
  1 ≤ length (splitWhiteSpace inGap cur s).
Proof.
  revert inGap cur. induction s as [|c s IH]; intros inGap cur; simpl.
  - lia.
  - destruct (isWhiteSpace c); [destruct inGap|]; simpl; try apply IH. lia.
Qed.

Lemma trimStart_blank (s : jsstring) :
  forallb isWhiteSpace s = true → trimStart s = [].
Proof.
  induction s as [|c s IH]; simpl; [done|].
  intros H. apply andb_true_iff in H as [-> Hs]. by apply IH.
Qed.

(** X6. The word count is never 0: the empty string and every string of
    white space count as one word, because splitting the empty string gives
    one empty piece. *)
Theorem wordCount_at_least_one (s : jsstring) :
  1 ≤ wordCount s ∧ (forallb isWhiteSpace s = true → wordCount s = 1).
Proof.
  split; [apply splitWhiteSpace_nonempty|].
  intros Hblank. unfold wordCount, trim.
  by rewrite (trimStart_blank s Hblank).
Qed.

End StitcherMore.

(** ** More on the transcription client *)

Section WhisperMore.
Import JsString Transcription.

(** One pass of the retry loop from the first attempt, by the outcome of the
    first request. *)
Lemma runWhisperOnBuffer_cases svc buffer s :
  let run := runWhisperOnBuffer svc buffer s in
  let first := whisperAttempt (whisperFetch svc buffer 1) in
  let second := whisperAttempt (whisperFetch svc buffer 2) in
  (hasVoiceActivity svc buffer = false ∧ run = (Ok [], s, []))
  ∨ (hasVoiceActivity svc buffer = true ∧
     ((∃ text, first = inl text
               ∧ run = (Ok text, s, [WhisperFetch 1 buffer]))
      ∨ (∃ message, first = inr message
                    ∧ includes message (js "400") = true
                    ∧ run = (Throw message, s, [WhisperFetch 1 buffer]))
      ∨ (∃ message, first = inr message
                    ∧ includes message (js "400") = false
                    ∧ ((∃ text, second = inl text
                          ∧ run = (Ok text, s,
                                   [WhisperFetch 1 buffer; Sleep 2000;
                                    WhisperFetch 2 buffer]))
                       ∨ (∃ message2, second = inr message2
                          ∧ run = (Throw message2, s,
                                   [WhisperFetch 1 buffer; Sleep 2000;
                                    WhisperFetch 2 buffer])))))).
Proof.
  cbv zeta. unfold runWhisperOnBuffer.
  destruct (hasVoiceActivity svc buffer); [right|by left].
  split; [done|]. cbn [negb MAX_RETRIES whisperLoop].
  unfold mbind, M_bind, emit, mret, M_ret, throw.
  destruct (whisperAttempt (whisperFetch svc buffer 1)) as [text|message].
  { left. by exists text. }
  right. destruct (includes message (js "400")) eqn:Hinc.
  { left. by exists message. }
  right. exists message. split; [done|]. split; [done|].
  cbn [Nat.ltb Nat.leb Nat.pow Nat.mul Nat.add app].
  destruct (whisperAttempt (whisperFetch svc buffer 2)) as [text|message2].
  { left. by exists text. }
  right. exists message2. split; [done|].
  by destruct (includes message2 (js "400")).
Qed.

(** X7. A call to the transcription client leaves the session state alone
    and talks to the service in one of three ways: not at all, one request,
    or two requests with one wait of 2000 ms between them.  It never waits
    after its last request. *)
Theorem runWhisperOnBuffer_traces (svc : Services) (buffer : Buffer)
  (s : WSState) :
  stateOf (runWhisperOnBuffer svc buffer s) = s
  ∧ (traceOf (runWhisperOnBuffer svc buffer s) = []
     ∨ traceOf (runWhisperOnBuffer svc buffer s) = [WhisperFetch 1 buffer]
     ∨ traceOf (runWhisperOnBuffer svc buffer s)
       = [WhisperFetch 1 buffer; Sleep 2000; WhisperFetch 2 buffer]).
Proof.
  destruct (runWhisperOnBuffer_cases svc buffer s)
    as [[_ ->]|[_ [(? & _ & ->)|[(? & _ & _ & ->)
        |(? & _ & _ & [(? & _ & ->)|(? & _ & ->)])]]]];
    (split; [done|]); auto.
Qed.

(** X8. What the client returns is what its last request gave: the text of
    the last response on success, the error of the last request on failure.
    The message ["All transcription attempts failed"] is thrown only if the
    last request failed with that very message. *)
Theorem runWhisperOnBuffer_last_attempt (svc : Services) (buffer : Buffer)
  (s : WSState) :
  match resultOf (runWhisperOnBuffer svc buffer s) with
  | Ok text =>
      (text = [] ∧ traceOf (runWhisperOnBuffer svc buffer s) = [])
      ∨ ∃ attempt,
          last (fetches (traceOf (runWhisperOnBuffer svc buffer s)))
          = Some attempt
          ∧ whisperAttempt (whisperFetch svc buffer attempt) = inl text
  | Throw message =>
      ∃ attempt,
        last (fetches (traceOf (runWhisperOnBuffer svc buffer s)))
        = Some attempt
        ∧ whisperAttempt (whisperFetch svc buffer attempt) = inr message
  end.
Proof.
  destruct (runWhisperOnBuffer_cases svc buffer s)
    as [[_ ->]|[_ [(? & ? & ->)|[(? & ? & _ & ->)
        |(? & _ & _ & [(? & ? & ->)|(? & ? & ->)])]]]];
    unfold resultOf, traceOf; simpl; eauto.
Qed.

(** X9. A second request is made exactly when the buffer passes the voice
    gate, the first request fails, and the text of its error does not
    contain ["400"] anywhere: not in the status, and not in the body the
    service sent either. *)
Theorem runWhisperOnBuffer_second_request (svc : Services) (buffer : Buffer)
  (s : WSState) :
  WhisperFetch 2 buffer ∈ traceOf (runWhisperOnBuffer svc buffer s)
  ↔ hasVoiceActivity svc buffer = true
    ∧ ∃ message, whisperAttempt (whisperFetch svc buffer 1) = inr message
                 ∧ includes message (js "400") = false.
Proof.
  destruct (runWhisperOnBuffer_cases svc buffer s)
    as [[Hv ->]|[Hv [(? & Hf & ->)|[(? & Hf & Hi & ->)
        |(? & Hf & Hi & [(? & _ & ->)|(? & _ & ->)])]]]];
    unfold traceOf; simpl; rewrite Hv; try rewrite Hf; split.
  all: try (intros Hin; by apply not_elem_of_nil in Hin).
  all: try (intros [? _]; done).
  all: try (intros Hin; apply list_elem_of_singleton in Hin; done).
  all: try (intros [_ (? & [= <-] & ?)]; congruence).
  all: try (intros _; split; [done|]; eauto).
  all: try (intros _; set_solver).
Qed.

End WhisperMore.

(** ** More on the language-model clients *)

Section ParseGptMore.
Import JsString ParseGpt.


(** The incremental extraction returns informative values only. *)
Lemma extractAttributesFromText_informative svc text tpl attrs s extracted :
  resultOf (extractAttributesFromText svc text tpl attrs s) = Ok extracted →
  ∀ field value, extracted !! field = Some value → isInformative value = true.
Proof.
  unfold extractAttributesFromText, mbind, M_bind, emit, mret, M_ret, throw,
    resultOf.
  destruct (_ || _); simpl; [by intros [= <-] ? ? ?|].
  destruct (extractModel svc tpl attrs text) as [e| | |parsedAttributes];
    simpl; [done|by intros [= <-] ? ? ?..|].
  intros [= <-] field value Hlook.
  apply map_lookup_filter_Some in Hlook as [_ Hinf]. simpl in Hinf.
  by destruct (isInformative value).
Qed.

(** X11. Every entry the incremental extraction returns was returned by the
    model and is informative: not empty, not ["N/A"], not white space only.
    For a text of fewer than 20 code units after trimming, or an empty
    template, it returns the empty object without a request. *)
Theorem extractAttributesFromText_result (svc : Services)
  (correctedText : jsstring) (tpl : list FieldDef)
  (currAttrs : gmap jsstring jsstring) (s : WSState) :
  (length (trim correctedText) < 20 ∨ tpl = [] →
   extractAttributesFromText svc correctedText tpl currAttrs s = (Ok ∅, s, []))
  ∧ (∀ extracted,
       resultOf (extractAttributesFromText svc correctedText tpl currAttrs s)
       = Ok extracted →
       ∀ field value, extracted !! field = Some value →
         isInformative value = true
         ∧ ∃ parsedAttributes,
             extractModel svc tpl currAttrs correctedText
             = Parsed (Some parsedAttributes)
             ∧ parsedAttributes !! field = Some value).
Proof.
  unfold extractAttributesFromText, mbind, M_bind, emit, mret, M_ret, throw,
    resultOf.
  split.
  - intros [Hshort| ->].
    + apply Nat.ltb_lt in Hshort. by rewrite Hshort.
    + by rewrite orb_true_r.
  - intros extracted.
    destruct (_ || _); simpl; [by intros [= <-] ? ? ?|].
    destruct (extractModel svc tpl currAttrs correctedText)
      as [e| | |[pa|]]; simpl; [done|by intros [= <-] ? ? ?..| |].
    + intros [= <-] field value Hlook.
      apply map_lookup_filter_Some in Hlook as [Hin Hinf]. simpl in Hinf.
      split; [by destruct (isInformative value)|]. by exists pa.
    + intros [= <-] field value Hlook.
      by apply map_lookup_filter_Some in Hlook as [Hin _].
Qed.

(** A key of the candidates is a key of the merge, and a non-empty candidate
    is never replaced by the empty string. *)
Lemma mergeFinalAttributes_keeps (cand finalAttrs : gmap jsstring jsstring)
  (field value : jsstring) :
  cand !! field = Some value →
  ∃ value', mergeFinalAttributes cand finalAttrs !! field = Some value'
            ∧ (value ≠ [] → value' ≠ []).
Proof.
  intros Hcand. rewrite mergeFinalAttributes_lookup, Hcand.
  destruct (finalAttrs !! field) as [v|]; [|by exists value].
  rewrite (bool_decide_eq_true_2 (is_Some (Some value))) by eauto.
  cbn [negb]. rewrite andb_false_r. cbn [negb]. rewrite andb_true_r.
  destruct (isInformative v) eqn:Hinf; [|by exists value].
  exists v. split; [done|]. intros _. by apply isInformative_true.
Qed.

(** X12. The final sweep never throws.  It returns the candidates unchanged
    when the transcript has fewer than 30 code units after trimming or the
    model gives no parsable answer, and in every case each candidate key is
    still a key of the result, holding a non-empty value if it held one. *)
Theorem parseFinalAttributes_result (svc : Services) (fullTranscript : jsstring)
  (tpl : list FieldDef) (candidateAttributes : gmap jsstring jsstring)
  (s : WSState) :
  ∃ result,
    resultOf (parseFinalAttributes svc fullTranscript tpl candidateAttributes s)
    = Ok result
    ∧ (length (trim fullTranscript) < 30
       ∨ (∀ finalAttributes,
            finalModel svc tpl candidateAttributes
              (truncateTranscript fullTranscript 6000)
            ≠ Parsed (Some finalAttributes)) →
       result = candidateAttributes)
    ∧ (∀ field value, candidateAttributes !! field = Some value →
         ∃ value', result !! field = Some value' ∧ (value ≠ [] → value' ≠ [])).
Proof.
  unfold parseFinalAttributes, mbind, M_bind, emit, mret, M_ret, resultOf.
  destruct (Nat.ltb_spec (length (trim fullTranscript)) 30) as [Hlt|Hge].
  { exists candidateAttributes. simpl. eauto. }
  destruct (finalModel svc tpl candidateAttributes _) as [e| | |[fa|]];
    simpl; try (exists candidateAttributes; by eauto).
  eexists. split; [done|]. split.
  - intros [?|Hno]; [lia|]. by destruct (Hno fa).
  - intros field value. apply mergeFinalAttributes_keeps.
Qed.

End ParseGptMore.

(** ** More on transcription jobs *)

Section JobMore.
Import JsString Stitcher Transcription ParseGpt App.

Lemma emitsOnly_trace {A} (P : Event → bool) (m : M A) s r s' tr :
  emitsOnly P m → m s = (r, s', tr) → forallb P tr = true.
Proof.
  intros Hm Hrun. specialize (Hm s). unfold traceOf in Hm.
  by rewrite Hrun in Hm.
Qed.

(** The four ways a job can end. *)
Lemma transcriptionJob_cases cfg svc job s :
  ∃ calls, forallb isServiceCall calls = true ∧
    (transcriptionJob cfg svc job s = (Ok tt, s, calls)
     ∨ transcriptionJob cfg svc job s
       = (Ok tt, s, calls ++ [Send (MsgError transcription_failed)])
     ∨ ∃ revised, MIN_WORD_COUNT cfg ≤ wordCount revised ∧
         (transcriptionJob cfg svc job s
          = (Ok tt, stitched s revised,
             calls ++ [Send (MsgError transcription_failed)])
          ∨ ∃ extracted,
              (∀ field value, extracted !! field = Some value →
                 isInformative value = true)
              ∧ transcriptionJob cfg svc job s
                = (Ok tt,
                   set_currAttributes (extracted ∪ currAttributes s)
                     (stitched s revised),
                   calls ++ [Send (MsgUpdate (updateWindow s revised)
                                     (extracted ∪ currAttributes s) None)]))).
Proof.
  remember (transcriptionJob cfg svc job s) as out eqn:Hout.
  unfold transcriptionJob, tryCatch, mbind, M_bind in Hout.
  destruct (runWhisperOnBuffer svc job s) as [[[raw|e] s1] tw] eqn:Hw;
    pose proof (emitsOnly_trace _ _ _ _ _ _
                  (runWhisperOnBuffer_emitsOnly svc job) Hw) as Htw;
    apply preserves_state in Hw as ->;
    try apply runWhisperOnBuffer_preserves.
  2:{ exists tw. split; [done|]. right. left. by rewrite Hout. }
  destruct (reviseTranscription svc raw s) as [[[revised|e] s1] trv] eqn:Hr;
    pose proof (emitsOnly_trace _ _ _ _ _ _
                  (reviseTranscription_emitsOnly svc raw) Hr) as Htrv;
    apply preserves_state in Hr as ->;
    try apply reviseTranscription_preserves.
  2:{ exists (tw ++ trv). rewrite forallb_app, Htw, Htrv.
      split; [done|]. right. left. rewrite Hout. cbn.
      by rewrite <- !app_assoc. }
  destruct (Nat.ltb_spec (wordCount revised) (MIN_WORD_COUNT cfg))
    as [Hfew|Henough].
  { exists (tw ++ trv). rewrite forallb_app, Htw, Htrv.
    split; [done|]. left. rewrite Hout. cbn. by rewrite app_nil_r. }
  unfold getState at 1 in Hout.
  destruct (appendWithOverlap (transcript s) revised) as [merged growth]
    eqn:Hstitch.
  unfold modify, getState, send, emit in Hout.
  cbn [transcript currTranscriptSize set_transcript set_currTranscriptSize
       template currAttributes] in Hout.
  match type of Hout with
  | context [extractAttributesFromText svc ?a ?b ?c ?st] =>
      pose proof (extractAttributesFromText_informative svc a b c st) as Hinf;
      destruct (extractAttributesFromText svc a b c st)
        as [[[extracted|e] s1] te] eqn:He;
      pose proof (emitsOnly_trace _ _ _ _ _ _
                    (extractAttributesFromText_emitsOnly svc a b c) He)
        as Hte;
      apply preserves_state in He as ->;
      try apply extractAttributesFromText_preserves
  end.
  - exists (tw ++ trv ++ te). rewrite !forallb_app, Htw, Htrv, Hte.
    split; [done|]. right. right. exists revised. split; [done|]. right.
    exists extracted. split.
    + intros field value Hlook. by apply (Hinf extracted eq_refl field value).
    + unfold updateWindow, stitched. rewrite Hstitch, Hout. cbn.
      by rewrite <- !app_assoc.
  - exists (tw ++ trv ++ te). rewrite !forallb_app, Htw, Htrv, Hte.
    split; [done|]. right. right. exists revised. split; [done|]. left.
    unfold stitched. rewrite Hstitch, Hout. cbn.
    by rewrite <- !app_assoc.
Qed.

End JobMore.

(** ** What a job and a [stop] send, and what they keep *)

Section OutcomeFacts.
Import JsString Stitcher Transcription ParseGpt App.

Lemma slice_tail_suffix (s : jsstring) (n : nat) :
  slice s (- Z.of_nat n) None `suffix_of` s.
Proof.
  destruct n as [|n].
  - change (- Z.of_nat 0)%Z with (Z.of_nat 0). by rewrite slice_from.
  - rewrite slice_last by lia. apply suffix_drop.
Qed.

Lemma sent_calls_then (calls : list Event) (m : ServerMsg) :
  forallb isServiceCall calls = true → sent (calls ++ [Send m]) = [m].
Proof. intros Hcalls. by rewrite sent_app, serviceCalls_sent. Qed.

(** A job among other handlers, by the outcome of its three service
    calls. *)
Lemma transcriptionJobAmid_run ι cfg svc job s :
  transcriptionJobAmid ι cfg svc job s
  = let w := runWhisperOnBuffer svc job initialState in
    match resultOf w with
    | Throw _ =>
        (Ok tt, ι 0 s, traceOf w ++ [Send (MsgError transcription_failed)])
    | Ok raw =>
        let rv := reviseTranscription svc raw initialState in
        let s1 := ι 1 (ι 0 s) in
        match resultOf rv with
        | Throw _ =>
            (Ok tt, s1,
             traceOf w ++ traceOf rv
             ++ [Send (MsgError transcription_failed)])
        | Ok revised =>
            if wordCount revised <? MIN_WORD_COUNT cfg
            then (Ok tt, s1, traceOf w ++ traceOf rv)
            else
              let ex :=
                extractAttributesFromText svc (updateWindow s1 revised)
                  (template s1) (currAttributes s1) initialState in
              let s2 := ι 2 (stitched s1 revised) in
              match resultOf ex with
              | Throw _ =>
                  (Ok tt, s2,
                   traceOf w ++ traceOf rv ++ traceOf ex
                   ++ [Send (MsgError transcription_failed)])
              | Ok extracted =>
                  (Ok tt,
                   set_currAttributes (extracted ∪ currAttributes s2) s2,
                   traceOf w ++ traceOf rv ++ traceOf ex
                   ++ [Send (MsgUpdate (updateWindow s1 revised)
                               (extracted ∪ currAttributes s2) None)])
              end
        end
    end.
Proof.
  cbv zeta. unfold transcriptionJobAmid, tryCatch.
  unfold mbind at 1. unfold M_bind at 1.
  rewrite (await_run ι 0 _ s _ _ _
             (runWhisperOnBuffer_stateless svc job initialState s)).
  destruct (resultOf (runWhisperOnBuffer svc job initialState))
    as [raw|e]; [|done].
  unfold mbind at 1. unfold M_bind at 1.
  rewrite (await_run ι 1 _ (ι 0 s) _ _ _
             (reviseTranscription_stateless svc raw initialState (ι 0 s))).
  destruct (resultOf (reviseTranscription svc raw initialState))
    as [revised|e]; [|cbn; by rewrite <- app_assoc].
  destruct (wordCount revised <? MIN_WORD_COUNT cfg);
    [cbn; by rewrite app_nil_r|].
  unfold updateWindow, stitched.
  unfold mbind at 1. unfold M_bind at 1. unfold getState at 1.
  destruct (appendWithOverlap (transcript (ι 1 (ι 0 s))) revised)
    as [merged growth].
  unfold mbind, M_bind, modify, getState, send, emit.
  cbn [transcript currTranscriptSize set_transcript set_currTranscriptSize
       template currAttributes].
  match goal with
  | |- context [await ι 2 ?m ?st] =>
      rewrite (await_run ι 2 m st _ _ _
                 (extractAttributesFromText_stateless svc _ _ _ initialState
                    st))
  end.
  destruct (resultOf (extractAttributesFromText svc _ _ _ initialState));
    cbn; by rewrite <- ?app_assoc, ?app_nil_r.
Qed.

(** X13. A transcription job never throws, whatever other handlers do while
    it awaits.  It writes nothing to the socket, or the one error
    [transcription-failed], or one update.  The update carries the
    attributes the session holds when it is sent, and a window that is a
    suffix of the transcript as the job's own stitch of the corrected text
    left it; if the other handlers only append to the transcript while the
    job awaits the extraction, the window is still a part of the transcript
    when the update is sent, followed by what they appended. *)
Theorem transcriptionJob_outcome (ι : Interference) (cfg : Config)
  (svc : Services) (job : Buffer) (s : WSState) :
  let out := transcriptionJobAmid ι cfg svc job s in
  resultOf out = Ok tt
  ∧ (sent (traceOf out) = []
     ∨ sent (traceOf out) = [MsgError transcription_failed]
     ∨ ∃ window raw revised,
         resultOf (runWhisperOnBuffer svc job initialState) = Ok raw
         ∧ resultOf (reviseTranscription svc raw initialState) = Ok revised
         ∧ sent (traceOf out)
           = [MsgUpdate window (currAttributes (stateOf out)) None]
         ∧ window `suffix_of` transcript (stitched (ι 1 (ι 0 s)) revised)
         ∧ transcript (stateOf out)
           = transcript (ι 2 (stitched (ι 1 (ι 0 s)) revised))
         ∧ ((∀ s', transcript s' `prefix_of` transcript (ι 2 s')) →
            ∃ before later,
              transcript (stateOf out) = before ++ window ++ later)).
Proof.
  cbv zeta. rewrite transcriptionJobAmid_run. cbv zeta.
  pose proof (runWhisperOnBuffer_emitsOnly svc job initialState) as Hw.
  destruct (resultOf (runWhisperOnBuffer svc job initialState))
    as [raw|e] eqn:Hraw.
  2:{ split; [done|]. right. left. by apply sent_calls_then. }
  pose proof (reviseTranscription_emitsOnly svc raw initialState) as Hr.
  destruct (resultOf (reviseTranscription svc raw initialState))
    as [revised|e] eqn:Hrevised.
  2:{ split; [done|]. right. left. unfold traceOf at 1. cbn [snd].
      rewrite app_assoc. apply sent_calls_then.
      by rewrite forallb_app, Hw, Hr. }
  destruct (wordCount revised <? MIN_WORD_COUNT cfg).
  { split; [done|]. left. apply serviceCalls_sent.
    unfold traceOf at 1. cbn [snd]. by rewrite forallb_app, Hw, Hr. }
  match goal with
  | |- context [extractAttributesFromText svc ?a ?b ?c initialState] =>
      pose proof (extractAttributesFromText_emitsOnly svc a b c initialState)
        as He;
      destruct (resultOf (extractAttributesFromText svc a b c initialState))
        as [extracted|e]
  end.
  2:{ split; [done|]. right. left. unfold traceOf at 1. cbn [snd].
      rewrite !app_assoc. apply sent_calls_then.
      by rewrite !forallb_app, Hw, Hr, He. }
  split; [done|]. right. right.
  exists (updateWindow (ι 1 (ι 0 s)) revised), raw, revised.
  split; [done|]. split; [done|].
  unfold traceOf at 1, stateOf. cbn [fst snd].
  assert (Hsuf : updateWindow (ι 1 (ι 0 s)) revised
                 `suffix_of` transcript (stitched (ι 1 (ι 0 s)) revised))
    by (unfold updateWindow; apply slice_tail_suffix).
  split; [|split; [done|split; [done|]]].
  - rewrite !app_assoc. apply sent_calls_then.
    by rewrite !forallb_app, Hw, Hr, He.
  - intros Hgrow. cbn [transcript set_currAttributes].
    destruct (Hgrow (stitched (ι 1 (ι 0 s)) revised)) as [later ->].
    destruct Hsuf as [before ->]. exists before, later.
    by rewrite <- app_assoc.
Qed.

Lemma parseFinalAttributes_keeps svc t tpl cand s result field value :
  resultOf (parseFinalAttributes svc t tpl cand s) = Ok result →
  cand !! field = Some value →
  ∃ value', result !! field = Some value' ∧ (value ≠ [] → value' ≠ []).
Proof.
  intros Hres Hcand.
  destruct (parseFinalAttributes_merges svc t tpl cand s)
    as [Hsame|(fa & _ & Hmerged)]; rewrite Hres in *.
  - injection Hsame as ->. eauto.
  - injection Hmerged as ->. by apply mergeFinalAttributes_keeps.
Qed.

Lemma serviceCalls_queued (tr : list Event) :
  forallb isServiceCall tr = true → queued tr = [].
Proof.
  induction tr as [|ev tr IH]; [done|]. simpl. intros H.
  apply andb_true_iff in H as [Hev Htr]. unfold queued in *. simpl.
  destruct ev; try done; by apply IH.
Qed.

(** Transcribing the residue touches the transcript only. *)
Lemma transcribeResidue_keeps cfg svc d s0 r s1 ta :
  transcribeResidue cfg svc d s0 = (r, s1, ta) →
  audioBuffer s1 = audioBuffer s0 ∧ nchunks s1 = nchunks s0
  ∧ webmHeader s1 = webmHeader s0 ∧ template s1 = template s0
  ∧ currAttributes s1 = currAttributes s0.
Proof.
  intros HA.
  assert (H1 : preserves audioBuffer (transcribeResidue cfg svc d))
    by (unfold transcribeResidue; repeat preserves_step).
  assert (H2 : preserves nchunks (transcribeResidue cfg svc d))
    by (unfold transcribeResidue; repeat preserves_step).
  assert (H3 : preserves webmHeader (transcribeResidue cfg svc d))
    by (unfold transcribeResidue; repeat preserves_step).
  assert (H4 : preserves template (transcribeResidue cfg svc d))
    by (unfold transcribeResidue; repeat preserves_step).
  assert (H5 : preserves currAttributes (transcribeResidue cfg svc d))
    by (unfold transcribeResidue; repeat preserves_step).
  specialize (H1 s0). specialize (H2 s0). specialize (H3 s0).
  specialize (H4 s0). specialize (H5 s0).
  unfold stateOf in *. by rewrite HA in *.
Qed.

(** The state and what is sent when [stop] finds audio in the buffer. *)
Lemma handleStop_residue cfg svc s :
  audioBuffer s ≠ [] →
  ∃ s1 calls marker,
    forallb isServiceCall calls = true
    ∧ audioBuffer s1 = [] ∧ nchunks s1 = 0 ∧ webmHeader s1 = None
    ∧ template s1 = template s
    ∧ (∀ field value, currAttributes s !! field = Some value →
         ∃ value', currAttributes s1 !! field = Some value'
                   ∧ (value ≠ [] → value' ≠ []))
    ∧ ∃ sweep,
        handleStop cfg svc s
        = (Ok tt, s1,
           SetAudioBuffer [] :: calls ++ sweep
           ++ [Send (MsgUpdate (transcript s1) (currAttributes s1) marker)])
        ∧ sent sweep = [] ∧ queued sweep = [].
Proof.
  intros Hne. rewrite (handleStop_unfold cfg svc s Hne).
  set (s0 := set_webmHeader None (set_nchunks 0 (set_audioBuffer [] s))).
  set (d := repairHeader (webmHeader s) (audioBuffer s)).
  destruct (transcribeResidue cfg svc d s0) as [[[[]|e] s1] ta] eqn:HA.
  - pose proof (emitsOnly_trace _ _ _ _ _ _
                  (transcribeResidue_emitsOnly cfg svc d) HA) as Hta.
    destruct (transcribeResidue_keeps cfg svc d s0 _ s1 ta HA)
      as (Hb & Hn & Hh & Ht & Hc).
    change (audioBuffer s0) with (@nil byte) in Hb.
    change (nchunks s0) with 0 in Hn.
    change (webmHeader s0) with (@None Buffer) in Hh.
    change (template s0) with (template s) in Ht.
    change (currAttributes s0) with (currAttributes s) in Hc.
    unfold tryCatch, sweepAndRespond, mbind, M_bind, modify, getState, send,
      emit.
    rewrite HA.
    destruct (parseFinalAttributes_run svc (transcript s1) (template s1)
                (currAttributes s1) s1) as (result & post & Hrun & Hpost).
    pose proof (parseFinalAttributes_keeps svc (transcript s1) (template s1)
                  (currAttributes s1) s1 result) as Hkeep.
    rewrite Hrun in Hkeep |- *.
    exists (set_currAttributes result s1), ta, None.
    split; [done|]. repeat (split; [done|]).
    split.
    { intros field value Hlook. rewrite <- Hc in Hlook.
      by apply (Hkeep field value eq_refl). }
    exists (FinalSweep (transcript s1) (template s1) (currAttributes s1)
            :: post).
    unfold resultOf, stateOf, traceOf. cbn.
    split; [done|]. split.
    + by apply serviceCalls_sent.
    + by apply serviceCalls_queued.
  - pose proof (emitsOnly_trace _ _ _ _ _ _
                  (transcribeResidue_emitsOnly cfg svc d) HA) as Hta.
    destruct (transcribeResidue_keeps cfg svc d s0 _ s1 ta HA)
      as (Hb & Hn & Hh & Ht & Hc).
    change (audioBuffer s0) with (@nil byte) in Hb.
    change (nchunks s0) with 0 in Hn.
    change (webmHeader s0) with (@None Buffer) in Hh.
    change (template s0) with (template s) in Ht.
    change (currAttributes s0) with (currAttributes s) in Hc.
    rewrite (stop_try_throw svc _ s0 s1 ta e HA).
    exists s1, ta, (Some final_processing_failed).
    split; [done|]. repeat (split; [done|]).
    split.
    { intros field value Hlook. rewrite Hc. eauto. }
    exists []. unfold resultOf, stateOf, traceOf. cbn. done.
Qed.

(** With no interference the handlers among others are the handlers
    above. *)
Lemma await_undisturbed {A} k (m : M A) s : await undisturbed k m s = m s.
Proof. unfold await, undisturbed. by destruct (m s) as [[r s1] t]. Qed.

Lemma transcriptionJobAmid_undisturbed cfg svc job s :
  transcriptionJobAmid undisturbed cfg svc job s
  = transcriptionJob cfg svc job s.
Proof.
  rewrite transcriptionJobAmid_run. cbv zeta.
  unfold undisturbed, transcriptionJob, tryCatch. cbn [between].
  unfold mbind at 1. unfold M_bind at 1.
  rewrite (runWhisperOnBuffer_stateless svc job initialState s).
  destruct (resultOf (runWhisperOnBuffer svc job initialState))
    as [raw|e]; [|done].
  unfold mbind at 1. unfold M_bind at 1.
  rewrite (reviseTranscription_stateless svc raw initialState s).
  destruct (resultOf (reviseTranscription svc raw initialState))
    as [revised|e]; [|cbn; by rewrite <- ?app_assoc].
  destruct (wordCount revised <? MIN_WORD_COUNT cfg);
    [cbn; by rewrite app_nil_r|].
  unfold updateWindow, stitched.
  unfold mbind at 1. unfold M_bind at 1. unfold getState at 1.
  destruct (appendWithOverlap (transcript s) revised) as [merged growth].
  unfold mbind, M_bind, modify, getState, send, emit.
  cbn [transcript currTranscriptSize set_transcript set_currTranscriptSize
       template currAttributes].
  match goal with
  | |- context [extractAttributesFromText svc ?a ?b ?c ?st] =>
      lazymatch st with
      | initialState => fail
      | _ => rewrite (extractAttributesFromText_stateless svc a b c
                        initialState st)
      end
  end.
  destruct (resultOf (extractAttributesFromText svc _ _ _ initialState));
    cbn; by rewrite <- ?app_assoc, ?app_nil_r.
Qed.

Lemma handleStopAmid_undisturbed cfg svc s :
  handleStopAmid undisturbed cfg svc s = handleStop cfg svc s.
Proof.
  destruct (decide (audioBuffer s = [])) as [Hempty|Hne].
  { by rewrite handleStopAmid_empty, handleStop_empty. }
  rewrite (handleStopAmid_unfold undisturbed cfg svc s Hne).
  rewrite (handleStop_unfold cfg svc s Hne).
  set (s0 := set_webmHeader None (set_nchunks 0 (set_audioBuffer [] s))).
  set (d := repairHeader (webmHeader s) (audioBuffer s)).
  assert (Hres : transcribeResidueAmid undisturbed cfg svc d s0
                 = transcribeResidue cfg svc d s0).
  { rewrite transcribeResidueAmid_run. cbv zeta.
    unfold undisturbed, transcribeResidue. cbn [between].
    destruct (negb _); [done|].
    unfold mbind at 1. unfold M_bind at 1.
    rewrite (runWhisperOnBuffer_stateless svc d initialState s0).
    destruct (resultOf (runWhisperOnBuffer svc d initialState))
      as [raw|e]; [|done].
    destruct (_ <=? _); [|cbn; by rewrite app_nil_r].
    unfold mbind at 1. unfold M_bind at 1.
    rewrite (reviseTranscription_stateless svc raw initialState s0).
    destruct (resultOf (reviseTranscription svc raw initialState))
      as [fin|e]; [|done].
    unfold stitched, mbind, M_bind, getState, modify.
    destruct (appendWithOverlap (transcript s0) fin) as [merged growth].
    cbn. by rewrite app_nil_r. }
  rewrite Hres. unfold tryCatch, mbind, M_bind.
  destruct (transcribeResidue cfg svc d s0) as [[[[]|e] s1] ta].
  - assert (Hsweep : sweepAndRespondAmid undisturbed svc s1
                     = sweepAndRespond svc s1).
    { unfold sweepAndRespondAmid, sweepAndRespond, mbind, M_bind, getState.
      by rewrite await_undisturbed. }
    destruct (sweepAndRespondAmid_run undisturbed svc s1)
      as (result & post & _ & Hrun & _).
    rewrite Hsweep in Hrun |- *. by rewrite Hrun.
  - done.
Qed.

(** X14. [stop] never throws and adds no job, whatever other handlers do
    while it awaits.  It answers with exactly one update, which carries the
    transcript and the attributes the session holds when it is sent.  When
    there is audio in the buffer, the buffer is cleared before the first
    service call. *)
Theorem handleStop_outcome (ι : Interference) (cfg : Config) (svc : Services)
  (s : WSState) :
  let out := handleStopAmid ι cfg svc s in
  resultOf out = Ok tt
  ∧ (∃ marker,
       sent (traceOf out)
       = [MsgUpdate (transcript (stateOf out)) (currAttributes (stateOf out))
            marker])
  ∧ queued (traceOf out) = []
  ∧ (audioBuffer s ≠ [] → ∃ rest, traceOf out = SetAudioBuffer [] :: rest).
Proof.
  cbv zeta. destruct (decide (audioBuffer s = [])) as [Hempty|Hne].
  - rewrite handleStopAmid_empty by done.
    unfold resultOf, stateOf, traceOf. cbn.
    split; [done|]. split; [by exists None|]. by split.
  - rewrite (handleStopAmid_unfold ι cfg svc s Hne).
    set (s0 := set_webmHeader None (set_nchunks 0 (set_audioBuffer [] s))).
    set (d := repairHeader (webmHeader s) (audioBuffer s)).
    pose proof (transcribeResidueAmid_calls ι cfg svc d s0) as Hcalls.
    destruct (transcribeResidueAmid ι cfg svc d s0) as [[[[]|e] s1] calls];
      unfold traceOf in Hcalls; cbn [snd] in Hcalls.
    + destruct (sweepAndRespondAmid_run ι svc s1)
        as (result & post & _ & -> & Hpost).
      unfold resultOf, stateOf, traceOf. cbn [fst snd].
      split; [done|]. split; [|split; [|eauto]].
      * exists None.
        change (sent (SetAudioBuffer [] :: ?tr)) with (sent tr).
        rewrite sent_app, serviceCalls_sent by done.
        change (sent (FinalSweep ?a ?b ?c :: ?tr)) with (sent tr).
        by rewrite sent_calls_then.
      * change (queued (SetAudioBuffer [] :: ?tr)) with (queued tr).
        unfold queued. rewrite omap_app. fold (queued calls).
        rewrite serviceCalls_queued by done.
        change (omap ?f (FinalSweep ?a ?b ?c :: ?tr)) with (omap f tr).
        rewrite omap_app. fold (queued post).
        by rewrite serviceCalls_queued.
    + unfold resultOf, stateOf, traceOf. cbn [fst snd].
      split; [done|]. split; [|split; [|eauto]].
      * exists (Some final_processing_failed).
        change (sent (SetAudioBuffer [] :: ?tr)) with (sent tr).
        by rewrite sent_calls_then.
      * change (queued (SetAudioBuffer [] :: ?tr)) with (queued tr).
        unfold queued. rewrite omap_app. fold (queued calls).
        by rewrite serviceCalls_queued.
Qed.

Lemma startAttributes_keeps names cand field value :
  cand !! field = Some value →
  ∃ value', startAttributes names cand !! field = Some value'
            ∧ (field ∉ names → value' = value).
Proof.
  intros Hcand. rewrite startAttributes_lookup, Hcand.
  destruct (decide (field ∈ names)) as [Hin|Hout].
  - rewrite (bool_decide_eq_true_2 (field ∈ names)) by done.
    rewrite (bool_decide_eq_true_2 (is_Some (Some value))) by eauto.
    cbn [negb]. rewrite andb_false_r. cbn [negb andb]. by exists [].
  - rewrite (bool_decide_eq_false_2 (field ∈ names)) by done.
    cbn [andb]. by exists value.
Qed.

(** X15. The last block of a job keeps every attribute of the state it runs
    in: what the update reports contains every entry the session held when
    the extraction returned, a non-empty value still non-empty.  [stop] is
    different: the attributes it leaves are the result of the final sweep
    on the object it passed before the sweep was awaited, so whatever
    another handler stored as the session's attributes in the meantime is
    overwritten.  Every candidate the sweep was given is still a key of the
    result, and holds a non-empty value if it held one, unless a [start]
    assigned [""] under that name in the object while the model was
    awaited. *)
Theorem attributes_after_job_and_stop (ι : Interference) (cfg : Config)
  (svc : Services) (s : WSState) :
  (∀ job window attributes,
     sent (traceOf (transcriptionJobAmid ι cfg svc job s))
     = [MsgUpdate window attributes None] →
     ∃ raw revised,
       resultOf (runWhisperOnBuffer svc job initialState) = Ok raw
       ∧ resultOf (reviseTranscription svc raw initialState) = Ok revised
       ∧ keepsAttributes
           (currAttributes (ι 2 (stitched (ι 1 (ι 0 s)) revised)))
           (currAttributes (stateOf (transcriptionJobAmid ι cfg svc job s))))
  ∧ (∀ t tpl cand,
       FinalSweep t tpl cand ∈ traceOf (handleStopAmid ι cfg svc s) →
       ∃ result,
         resultOf (parseFinalAttributesAmid svc (inPlace ι) t tpl cand s)
         = Ok result
         ∧ currAttributes (stateOf (handleStopAmid ι cfg svc s)) = result
         ∧ (∀ field value, cand !! field = Some value →
              ∃ value', result !! field = Some value'
                        ∧ (value ≠ [] → field ∉ inPlace ι → value' ≠ []))).
Proof.
  split.
  - intros job window attributes. rewrite transcriptionJobAmid_run. cbv zeta.
    pose proof (runWhisperOnBuffer_emitsOnly svc job initialState) as Hw.
    destruct (resultOf (runWhisperOnBuffer svc job initialState))
      as [raw|e] eqn:Hraw.
    2:{ unfold traceOf at 1. cbn [snd]. by rewrite sent_calls_then. }
    pose proof (reviseTranscription_emitsOnly svc raw initialState) as Hr.
    destruct (resultOf (reviseTranscription svc raw initialState))
      as [revised|e] eqn:Hrevised.
    2:{ unfold traceOf at 1. cbn [snd]. rewrite app_assoc.
        rewrite sent_calls_then; [done|].
        by rewrite forallb_app, Hw, Hr. }
    destruct (wordCount revised <? MIN_WORD_COUNT cfg).
    { unfold traceOf at 1. cbn [snd].
      rewrite serviceCalls_sent; [done|]. by rewrite forallb_app, Hw, Hr. }
    match goal with
    | |- context [extractAttributesFromText svc ?a ?b ?c initialState] =>
        pose proof (extractAttributesFromText_emitsOnly svc a b c
                      initialState) as He;
        pose proof (extractAttributesFromText_informative svc a b c
                      initialState) as Hinf;
        destruct (resultOf (extractAttributesFromText svc a b c
                              initialState)) as [extracted|e]
    end.
    2:{ unfold traceOf at 1. cbn [snd]. rewrite !app_assoc.
        rewrite sent_calls_then; [done|].
        by rewrite !forallb_app, Hw, Hr, He. }
    intros _. exists raw, revised. split; [done|]. split; [done|].
    unfold stateOf. cbn [fst snd].
    cbn [currAttributes set_currAttributes].
    intros field value Hlook.
    destruct (extracted !! field) as [v|] eqn:Hex.
    + exists v. split; [by apply lookup_union_Some_l|].
      intros _. by apply isInformative_true, (Hinf extracted eq_refl field).
    + exists value. split; [|done]. by rewrite lookup_union_r.
  - intros t tpl cand Hin.
    destruct (decide (audioBuffer s = [])) as [Hempty|Hne].
    { rewrite handleStopAmid_empty in Hin by done.
      apply list_elem_of_singleton in Hin. discriminate Hin. }
    revert Hin. rewrite (handleStopAmid_unfold ι cfg svc s Hne).
    set (s0 := set_webmHeader None (set_nchunks 0 (set_audioBuffer [] s))).
    set (d := repairHeader (webmHeader s) (audioBuffer s)).
    pose proof (transcribeResidueAmid_calls ι cfg svc d s0) as Hcalls.
    destruct (transcribeResidueAmid ι cfg svc d s0) as [[[[]|e] s1] calls];
      unfold traceOf in Hcalls; cbn [snd] in Hcalls.
    + destruct (sweepAndRespondAmid_run ι svc s1)
        as (result & post & Hres & -> & Hpost).
      unfold stateOf, traceOf. cbn [fst snd]. intros Hin.
      apply elem_of_cons in Hin as [Hin|Hin]; [discriminate Hin|].
      apply elem_of_app in Hin as [Hin|Hin].
      { by apply serviceCalls_no_sweep in Hin. }
      apply elem_of_cons in Hin as [Hin|Hin].
      2:{ apply elem_of_app in Hin as [Hin|Hin].
          - by apply serviceCalls_no_sweep in Hin.
          - apply list_elem_of_singleton in Hin. discriminate Hin. }
      injection Hin as -> -> ->. exists result.
      assert (Hsame : resultOf (parseFinalAttributesAmid svc (inPlace ι)
                                  (transcript s1) (template s1)
                                  (currAttributes s1) s)
                      = Ok result).
      { rewrite (parseFinalAttributesAmid_stateless svc _ _ _ _ s1 s).
        unfold resultOf at 1. by cbn [fst]. }
      split; [done|]. split; [done|].
      intros field value Hcand.
      destruct (startAttributes_keeps (inPlace ι) _ _ _ Hcand)
        as (later & Hlater & Hsame').
      destruct (parseFinalAttributesAmid_run svc (inPlace ι) (transcript s1)
                  (template s1) (currAttributes s1) s1)
        as (result' & post' & Hrun & _ & Hshape).
      rewrite Hrun in Hres. unfold resultOf in Hres. cbn [fst] in Hres.
      injection Hres as ->.
      destruct Hshape as [->|(finalAttrs & ->)].
      * exists later. split; [done|]. intros Hfull Hout.
        by rewrite (Hsame' Hout).
      * destruct (mergeFinalAttributes_keeps _ finalAttrs _ _ Hlater)
          as (value' & Hmerged & Hkept).
        exists value'. split; [done|]. intros Hfull Hout.
        apply Hkept. by rewrite (Hsame' Hout).
    + unfold traceOf. cbn [snd]. intros Hin.
      apply elem_of_cons in Hin as [Hin|Hin]; [discriminate Hin|].
      apply elem_of_app in Hin as [Hin|Hin].
      * by apply serviceCalls_no_sweep in Hin.
      * apply list_elem_of_singleton in Hin. discriminate Hin.
Qed.

Lemma attributes_after_job_and_stop_witness :
  FinalSweep spokenText (fieldsOf startBlocks)
    (currAttributes (state sessionWithResidue))
  ∈ traceOf (handleStopAmid lateWrite pairConfig answeringServices
               (state sessionWithResidue))
  ∧ lateWrite 2 (state sessionWithResidue) ≠ state sessionWithResidue
  ∧ currAttributes (stateOf (handleStopAmid lateWrite pairConfig
                               answeringServices (state sessionWithResidue)))
    = currAttributes (state sessionWithResidue).
Proof.
  assert (Hin : FinalSweep spokenText (fieldsOf startBlocks)
                  (currAttributes (state sessionWithResidue))
                ∈ traceOf (handleStopAmid lateWrite pairConfig
                             answeringServices (state sessionWithResidue))).
  { apply (list_elem_of_lookup_2 _ 3). by vm_compute. }
  split; [exact Hin|]. split.
  { intros Heq. apply (f_equal (λ st, currAttributes st !! js "name")) in Heq.
    vm_compute in Heq. discriminate Heq. }
  destruct (attributes_after_job_and_stop lateWrite pairConfig
              answeringServices (state sessionWithResidue))
    as [_ Hstop].
  destruct (Hstop _ _ _ Hin) as (result & Hres & -> & _).
  vm_compute in Hres. injection Hres as <-. by vm_compute.
Defined.

(** A [start] handled while the sweep is awaited is not lost: the sweep
    returns the object the handler wrote into. *)
Example stop_keeps_late_start :
  let out := handleStopAmid lateStart pairConfig answeringServices
               (state sessionWithoutStart) in
  currAttributes (state sessionWithoutStart) = ∅
  ∧ template (stateOf out) = fieldsOf startBlocks
  ∧ currAttributes (stateOf out) = {[ js "name" := []; js "dob" := [] ]}.
Proof. cbv zeta. split; [by vm_compute|]. split; by vm_compute. Qed.

End OutcomeFacts.

(** ** Binary frames: segments, the header and the queue *)

Section SegmentFacts.
Import JsString Stitcher Transcription ParseGpt App.

(** The four ways a binary frame is handled. *)
Lemma handleBinary_cases cfg svc chunk s :
  let s2 := bufferedState s chunk in
  let capture := repairHeader (webmHeader s2) (audioBuffer s2) in
  (MAX_AUDIO_BUFFER_SIZE cfg < length (audioBuffer s) + length chunk
   ∧ handleBinary cfg svc chunk s
     = (Ok tt, s, [Send (MsgError audio_buffer_overflow)]))
  ∨ (length (audioBuffer s) + length chunk ≤ MAX_AUDIO_BUFFER_SIZE cfg
     ∧ ((nchunks s2 < MIN_CHUNK_NUM cfg
         ∧ handleBinary cfg svc chunk s
           = (Ok tt, s2, [SetAudioBuffer (audioBuffer s2)]))
        ∨ (MIN_CHUNK_NUM cfg ≤ nchunks s2
           ∧ hasVoiceActivity svc (audioBuffer s2) = false
           ∧ handleBinary cfg svc chunk s
             = (Ok tt, resetCapture s2,
                [SetAudioBuffer (audioBuffer s2); SetAudioBuffer []]))
        ∨ (MIN_CHUNK_NUM cfg ≤ nchunks s2
           ∧ hasVoiceActivity svc (audioBuffer s2) = true
           ∧ ∃ sets, queued sets = [] ∧ sent sets = []
               ∧ handleBinary cfg svc chunk s
                 = (Ok tt, resetCapture s2, sets ++ [QueueAdd capture])))).
Proof.
  cbv zeta. unfold handleBinary, bufferedState.
  unfold mbind, M_bind, getState, assignAudioBuffer, modify, send, emit,
    mret, M_ret.
  cbv beta iota.
  destruct (Nat.ltb_spec (MAX_AUDIO_BUFFER_SIZE cfg)
              (length (audioBuffer s) + length chunk)) as [Hover|Hfits].
  { left. by split. }
  right. split; [done|].
  destruct (negb (bool_decide (is_Some (webmHeader s)))
            && checkWebMIntegrity chunk);
    cbn [fst snd app audioBuffer nchunks webmHeader set_audioBuffer
         set_nchunks set_webmHeader].
  all: match goal with
       | |- context [?n <? ?m] =>
           destruct (Nat.ltb_spec n m) as [Hfew|Hfull]
       end; [left; by split|right].
  all: match goal with
       | |- context [hasVoiceActivity ?v ?b] =>
           destruct (hasVoiceActivity v b) eqn:Hvoice
       end; cbn [negb]; [right|left; by repeat split].
  all: split; [done|]; split; [done|].
  all: unfold repairHeader;
       cbn [fst snd app audioBuffer nchunks webmHeader set_audioBuffer
            set_nchunks set_webmHeader].
  - destruct (negb (checkWebMIntegrity (audioBuffer s ++ chunk))).
    + by exists [SetAudioBuffer (audioBuffer s ++ chunk);
                 SetAudioBuffer (chunk ++ audioBuffer s ++ chunk);
                 SetAudioBuffer []].
    + by exists [SetAudioBuffer (audioBuffer s ++ chunk); SetAudioBuffer []].
  - destruct (webmHeader s) as [h|].
    + destruct (negb (checkWebMIntegrity (audioBuffer s ++ chunk))).
      * by exists [SetAudioBuffer (audioBuffer s ++ chunk);
                   SetAudioBuffer (h ++ audioBuffer s ++ chunk);
                   SetAudioBuffer []].
      * by exists [SetAudioBuffer (audioBuffer s ++ chunk);
                   SetAudioBuffer []].
    + by exists [SetAudioBuffer (audioBuffer s ++ chunk); SetAudioBuffer []].
Qed.

Lemma elem_of_queued (tr : list Event) (b : Buffer) :
  QueueAdd b ∈ tr ↔ b ∈ queued tr.
Proof.
  unfold queued. rewrite list_elem_of_omap. split.
  - intros Hin. by exists (QueueAdd b).
  - intros (e & Hin & He). destruct e; try done. by injection He as ->.
Qed.

(** X16. When a binary frame adds a job to the queue, the job's buffer is
    the whole buffered audio including the new chunk, with at most the
    stored header in front of it, and has at least 1000 bytes; the capture
    state is reset; and if the stored header passes the header check, so
    does the job's buffer whenever a header is stored. *)
Theorem handleBinary_queued (cfg : Config) (svc : Services) (chunk : Buffer)
  (s : WSState) (job : Buffer) :
  headerValid s →
  job ∈ queued (traceOf (handleBinary cfg svc chunk s)) →
  let s' := stateOf (handleBinary cfg svc chunk s) in
  queued (traceOf (handleBinary cfg svc chunk s)) = [job]
  ∧ (audioBuffer s ++ chunk) `suffix_of` job
  ∧ MIN_AUDIO_SIZE_BYTES ≤ length job
  ∧ audioBuffer s' = [] ∧ nchunks s' = 0
  ∧ (is_Some (webmHeader s') → checkWebMIntegrity job = true).
Proof.
  intros Hvalid Hin. cbv zeta.
  assert (Hbuf : audioBuffer (bufferedState s chunk) = audioBuffer s ++ chunk).
  { unfold bufferedState. by destruct (_ && _). }
  assert (Hvalid' : headerValid (bufferedState s chunk)).
  { unfold headerValid, bufferedState.
    destruct (negb _ && checkWebMIntegrity chunk) eqn:Hcap; cbn; [|done].
    intros header [= <-]. by apply andb_true_iff in Hcap as [_ ?]. }
  pose proof (handleBinary_cases cfg svc chunk s) as Hcases.
  cbv zeta in Hcases.
  remember (bufferedState s chunk) as s2 eqn:Hs2. clear Hs2.
  destruct Hcases
    as [[_ Hrun]|[_ [[_ Hrun]|[(_ & _ & Hrun)
        |(_ & Hvoice & sets & Hq & _ & Hrun)]]]];
    rewrite Hrun in Hin |- *; unfold traceOf, stateOf in *;
    cbn [fst snd] in *.
  1-3: by apply elem_of_nil in Hin.
  unfold queued in Hin |- *. rewrite omap_app in Hin |- *.
  fold (queued sets) in Hin |- *. rewrite Hq in Hin |- *.
  cbn in Hin |- *. apply list_elem_of_singleton in Hin as ->.
  split; [done|]. rewrite Hbuf in *.
  assert (Hsuf : (audioBuffer s ++ chunk)
                 `suffix_of` repairHeader (webmHeader s2)
                               (audioBuffer s ++ chunk)).
  { unfold repairHeader. destruct (webmHeader s2) as [h|]; [|done].
    destruct (negb _); [by apply suffix_app_r|done]. }
  split; [done|]. split.
  { apply suffix_length in Hsuf. unfold hasVoiceActivity in Hvoice.
    destruct (Nat.ltb_spec (length (audioBuffer s ++ chunk))
                MIN_AUDIO_SIZE_BYTES); [done|lia]. }
  split; [done|]. split; [done|].
  intros [h Hh]. rewrite Hh. unfold repairHeader.
  destruct (checkWebMIntegrity (audioBuffer s ++ chunk)) eqn:Hcheck;
    cbn [negb]; [done|].
  assert (Hh' : checkWebMIntegrity h = true) by (by apply Hvalid').
  clear -Hh'. unfold checkWebMIntegrity in *.
  apply andb_true_iff in Hh' as [Hlen Hmagic]. apply Nat.leb_le in Hlen.
  destruct h as [|b0 [|b1 [|b2 [|b3 h]]]]; simpl in Hlen; try lia.
  apply andb_true_iff. split; [|done].
  apply Nat.leb_le. simpl. lia.
Qed.

Lemma handleBinary_queued_witness :
  queued (traceOf (handleBinary testConfig answeringServices loudAudio
                     headerKnownState)) = [voicedChunk ++ loudAudio]
  ∧ MIN_AUDIO_SIZE_BYTES ≤ length (voicedChunk ++ loudAudio)
  ∧ (is_Some (webmHeader (stateOf (handleBinary testConfig answeringServices
                                     loudAudio headerKnownState))) →
     checkWebMIntegrity (voicedChunk ++ loudAudio) = true).
Proof.
  destruct (handleBinary_queued testConfig answeringServices loudAudio
              headerKnownState (voicedChunk ++ loudAudio))
    as (Hq & _ & Hlen & _ & _ & Hcheck).
  - intros header Hh.
    assert (Hstored : webmHeader headerKnownState = Some voicedChunk)
      by (by vm_compute).
    rewrite Hstored in Hh. injection Hh as <-. by vm_compute.
  - apply (list_elem_of_lookup_2 _ 0). by vm_compute.
  - split; [exact Hq|]. split; [exact Hlen|exact Hcheck].
Defined.

End SegmentFacts.

(** ** Invariants of a connection, continued *)

Section SessionMore.
Import JsString Stitcher Transcription ParseGpt App.

Lemma initFields_quiet temp_block block s :
  traceOf (initFields temp_block block s) = [].
Proof.
  revert s. induction block as [|[name|] rest IH]; intros s; [done| |done].
  cbn [initFields]. unfold mbind, M_bind, modify, traceOf in *.
  match goal with
  | |- context [initFields temp_block rest ?st] =>
      specialize (IH st); destruct (initFields temp_block rest st)
        as [[r s2] t2]
  end.
  by cbn in *.
Qed.

Lemma initBlocks_quiet blocks s : traceOf (initBlocks blocks s) = [].
Proof.
  revert s. induction blocks as [|[b [block|]] rest IH]; intros s;
    [done| |apply IH].
  cbn [initBlocks]. unfold mbind, M_bind, traceOf in *.
  pose proof (initFields_quiet b block s) as Hf. unfold traceOf in Hf.
  destruct (initFields b block s) as [[[[]|e] s1] t1]; cbn in Hf |- *;
    [|done].
  specialize (IH s1). destruct (initBlocks rest s1) as [[r s2] t2].
  cbn in *. by rewrite Hf, IH.
Qed.

(** [start] touches the template and the attributes only. *)
Lemma initBlocks_preserves {X} (f : WSState → X) blocks :
  (∀ t s, f (set_template t s) = f s) →
  (∀ a s, f (set_currAttributes a s) = f s) →
  preserves f (initBlocks blocks).
Proof.
  intros Ht Ha.
  assert (Hfields : ∀ b block, preserves f (initFields b block)).
  { intros b block. induction block as [|[name|] rest IH]; cbn [initFields].
    - apply preserves_mret.
    - apply preserves_bind; [apply preserves_modify; intros; apply Ht|].
      intros _.
      apply preserves_bind; [apply preserves_modify; intros; apply Ha|].
      by intros _.
    - apply preserves_throw. }
  induction blocks as [|[b [block|]] rest IH]; cbn [initBlocks].
  - apply preserves_mret.
  - apply preserves_bind; [apply Hfields|by intros _].
  - done.
Qed.

(** [start] answers with one message, on either path, and leaves the audio
    capture and the transcript alone; on a template that is set it changes
    nothing. *)
Lemma handleStart_run blocks s :
  ∃ s' m,
    handleStart blocks s = (Ok tt, s', [Send m])
    ∧ nchunks s' = nchunks s ∧ audioBuffer s' = audioBuffer s
    ∧ webmHeader s' = webmHeader s ∧ transcript s' = transcript s
    ∧ (template s ≠ [] → s' = s).
Proof.
  destruct (decide (template s = [])) as [Hempty|Hne].
  - pose proof (initBlocks_quiet blocks s) as Hquiet.
    pose proof (initBlocks_preserves nchunks blocks
                  (λ _ _, eq_refl) (λ _ _, eq_refl) s) as Hn.
    pose proof (initBlocks_preserves audioBuffer blocks
                  (λ _ _, eq_refl) (λ _ _, eq_refl) s) as Hb.
    pose proof (initBlocks_preserves webmHeader blocks
                  (λ _ _, eq_refl) (λ _ _, eq_refl) s) as Hh.
    pose proof (initBlocks_preserves transcript blocks
                  (λ _ _, eq_refl) (λ _ _, eq_refl) s) as Htr.
    unfold handleStart, tryCatch, mbind, M_bind, getState, send, emit.
    rewrite Hempty. cbn [length Nat.eqb].
    unfold traceOf, stateOf in *.
    destruct (initBlocks blocks s) as [[[[]|e] s1] t1]; cbn in *; subst t1;
      eexists _, _; (split; [reflexivity|]); by repeat split.
  - exists s, (MsgStarted (length (template s))).
    rewrite handleStart_initialised by done. by repeat split.
Qed.

Lemma runHandler_log (m : M unit) (σ : Session) :
  log (runHandler m σ) = log σ ++ traceOf (m (state σ)).
Proof.
  unfold runHandler, traceOf. by destruct (m (state σ)) as [[r s] tr].
Qed.

(** A property of states together with a property of logged events, through
    every run: it is enough that each handler and each job keeps the first
    and, from a state that has it, emits only events with the second. *)
Lemma run_log_invariant (P : WSState → Prop) (Q : Event → Prop) cfg svc :
  P initialState →
  (∀ frame s, P s →
     P (stateOf (onMessage cfg svc frame s))
     ∧ ∀ e, e ∈ traceOf (onMessage cfg svc frame s) → Q e) →
  (∀ job s, P s →
     P (stateOf (transcriptionJob cfg svc job s))
     ∧ ∀ e, e ∈ traceOf (transcriptionJob cfg svc job s) → Q e) →
  ∀ steps,
    P (state (run cfg svc steps)) ∧ ∀ e, e ∈ log (run cfg svc steps) → Q e.
Proof.
  intros Hinit Hmsg Hjob steps. unfold run.
  set (I := λ σ : Session, P (state σ) ∧ ∀ e, e ∈ log σ → Q e).
  assert (Hrun : ∀ m σ,
            (∀ s, P s → P (stateOf (m s)) ∧ ∀ e, e ∈ traceOf (m s) → Q e) →
            I σ → I (runHandler m σ)).
  { intros m σ Hm [HP HQ]. destruct (Hm (state σ) HP) as [HP' HQ'].
    split; [by rewrite runHandler_state|].
    intros e. rewrite runHandler_log, elem_of_app. intros [?|?]; auto. }
  assert (Hdrain : ∀ σ, I σ → I (drain cfg svc σ)).
  { intros σ. unfold drain.
    generalize (pending σ) as jobs. intros jobs. revert σ.
    induction jobs as [|job jobs IH]; intros σ Hσ; [done|].
    simpl. apply IH. apply Hrun; [|done]. intros s. apply Hjob. }
  change (I (foldl (step cfg svc) newSession steps)).
  induction steps as [|st steps IH] using rev_ind.
  { split; [done|]. intros e Hin. by apply elem_of_nil in Hin. }
  rewrite foldl_app. simpl.
  set (σ := foldl (step cfg svc) newSession steps) in *.
  destruct st as [frame|i]; simpl.
  - destruct frame;
      try (apply Hrun; [|done]; intros s;
           first [apply (Hmsg TextBadJson) | apply (Hmsg TextNull)
                 | apply (Hmsg (TextStart _))
                 | apply (Hmsg TextOther) | apply (Hmsg (Binary _))]).
    apply Hrun; [|by apply Hdrain]. intros s. apply (Hmsg TextStop).
  - destruct (pending σ !! i); [|done].
    apply (Hrun _ {| state := state σ; pending := delete i (pending σ);
                     log := log σ |}); [|done].
    intros s. apply Hjob.
Qed.

Lemma transcriptionJob_queued cfg svc job s :
  queued (traceOf (transcriptionJob cfg svc job s)) = [].
Proof.
  destruct (transcriptionJob_cases cfg svc job s)
    as (calls & Hcalls & [->|[->|(revised & _ & [->|(extracted & _ & ->)])]]);
    unfold traceOf; cbn [snd]; unfold queued; rewrite ?omap_app;
    fold (queued calls); by rewrite serviceCalls_queued.
Qed.

(** A job that a binary frame adds to the queue passed the size test of the
    voice gate, before the header was put in front of it. *)
Lemma handleBinary_queued_size cfg svc chunk s job :
  job ∈ queued (traceOf (handleBinary cfg svc chunk s)) →
  MIN_AUDIO_SIZE_BYTES ≤ length job.
Proof.
  intros Hin. pose proof (handleBinary_cases cfg svc chunk s) as Hcases.
  cbv zeta in Hcases.
  remember (bufferedState s chunk) as s2 eqn:Hs2. clear Hs2.
  destruct Hcases
    as [[_ Hrun]|[_ [[_ Hrun]|[(_ & _ & Hrun)
        |(_ & Hvoice & sets & Hq & _ & Hrun)]]]];
    rewrite Hrun in Hin; unfold traceOf in Hin; cbn [snd] in Hin.
  1-3: by apply elem_of_nil in Hin.
  unfold queued in Hin. rewrite omap_app in Hin.
  fold (queued sets) in Hin. rewrite Hq in Hin.
  cbn in Hin. apply list_elem_of_singleton in Hin as ->.
  unfold hasVoiceActivity in Hvoice.
  destruct (Nat.ltb_spec (length (audioBuffer s2)) MIN_AUDIO_SIZE_BYTES)
    as [|Hlen]; [done|].
  unfold repairHeader. destruct (webmHeader s2) as [h|]; [|done].
  destruct (negb _); [|done]. rewrite length_app. lia.
Qed.

(** A field without a string form stops the loop of [start]: the fields
    before it are in the template, and the exception is on its way to the
    [catch]. *)
Lemma initFields_broken temp_block names rest s :
  ∃ message s',
    initFields temp_block ((Some <$> names) ++ None :: rest) s
    = (Throw message, s', [])
    ∧ startedFrom s s' (mkFieldDef temp_block <$> names).
Proof.
  revert s. induction names as [|name names IH]; intros s.
  - eexists _, s. split; [reflexivity|]. apply startedFrom_refl.
  - set (s1 := set_currAttributes (objectAssign name [] (currAttributes s))
                 (set_template (template s ++ [mkFieldDef temp_block name])
                    s)).
    destruct (IH s1) as (message & s' & Hrun & Hfrom). exists message, s'.
    split.
    + cbn [fmap list_fmap app initFields]. unfold mbind, M_bind, modify.
      change (initFields temp_block _ _)
        with (initFields temp_block ((Some <$> names) ++ None :: rest) s1).
      by rewrite Hrun.
    + change (mkFieldDef temp_block <$> name :: names)
        with ([mkFieldDef temp_block name]
              ++ (mkFieldDef temp_block <$> names)).
      apply (startedFrom_trans s s1 s'); [|done].
      unfold startedFrom, s1. cbn. by repeat split.
Qed.

Lemma fieldsOf_app blocks1 blocks2 :
  fieldsOf (blocks1 ++ blocks2) = fieldsOf blocks1 ++ fieldsOf blocks2.
Proof. unfold fieldsOf. apply flat_map_app. Qed.

Lemma initBlocks_broken pre temp_block names rest more s :
  ∃ message s',
    initBlocks (plainBlocks pre
                ++ (temp_block, Some ((Some <$> names) ++ None :: rest))
                   :: more) s
    = (Throw message, s', [])
    ∧ template s'
      = template s ++ fieldsOf pre ++ (mkFieldDef temp_block <$> names).
Proof.
  revert s. induction pre as [|[b [block|]] pre IH]; intros s.
  - destruct (initFields_broken temp_block names rest s)
      as (message & s' & Hrun & Ht & _).
    exists message, s'. split; [|done].
    cbn [plainBlocks fmap list_fmap app initBlocks]. unfold mbind, M_bind.
    by rewrite Hrun.
  - destruct (initFields_run b block s) as (s1 & Hrun1 & Ht1 & _).
    destruct (IH s1) as (message & s' & Hrun & Ht).
    exists message, s'. split.
    + unfold plainBlocks in *. cbn [fmap list_fmap app initBlocks fst snd].
      unfold mbind, M_bind.
      change (list_fmap _ _ Some block) with (Some <$> block).
      by rewrite Hrun1, Hrun.
    + rewrite Ht, Ht1. change (fieldsOf ((b, Some block) :: pre))
        with ((mkFieldDef b <$> block) ++ fieldsOf pre).
      by rewrite <- !app_assoc.
  - destruct (IH s) as (message & s' & Hrun & Ht). by exists message, s'.
Qed.

(** The handlers among other handlers write the template no more than the
    others do. *)
Lemma preserves_await {A X} (f : WSState → X) (ι : Interference) k (m : M A) :
  (∀ k s, f (ι k s) = f s) → preserves f m → preserves f (await ι k m).
Proof.
  intros Hι Hm s. specialize (Hm s). unfold await, stateOf in *.
  destruct (m s) as [[r s1] t]. cbn [fst snd] in *. by rewrite Hι.
Qed.

Lemma parseFinalAttributesAmid_preserves {X} (f : WSState → X) svc names t tpl
  cand :
  preserves f (parseFinalAttributesAmid svc names t tpl cand).
Proof.
  intros s. by rewrite (parseFinalAttributesAmid_stateless svc names t tpl
                          cand s s).
Qed.

Lemma handleStopAmid_preserves_template (ι : Interference) cfg svc :
  (∀ k s, template (ι k s) = template s) →
  preserves template (handleStopAmid ι cfg svc).
Proof.
  intros Hι.
  unfold handleStopAmid, transcribeResidueAmid, sweepAndRespondAmid,
    respondFailed.
  repeat first
    [ apply preserves_await; [exact Hι|]
    | apply parseFinalAttributesAmid_preserves
    | preserves_step ].
Qed.

Lemma transcriptionJobAmid_preserves_template (ι : Interference) cfg svc job :
  (∀ k s, template (ι k s) = template s) →
  preserves template (transcriptionJobAmid ι cfg svc job).
Proof.
  intros Hι. unfold transcriptionJobAmid.
  repeat first [ apply preserves_await; [exact Hι|] | preserves_step ].
Qed.

(** X17. What [start] does.  On an empty template, a payload whose fields
    all have a string form installs the fields of its array-valued blocks,
    in order, and is acknowledged with their number; every field gets the
    attribute [""], except that a field named ["__proto__"] gets an
    attribute only if the attributes already have an entry of that name;
    other attributes are left as they are.  On a template that is set,
    [start] changes nothing and reports no error.  A field without a string
    form ends the loop: the fields before it stay in the template and the
    answer is [bad-start-payload].  Nothing else writes the template: when
    the handlers that run while a job or a [stop] awaits leave the template
    as it is, so does the job or the [stop], and so does every frame that is
    not a [start]. *)
Theorem start_installs_template (cfg : Config) (svc : Services) :
  (∀ blocks s, template s = [] →
     ∃ s',
       handleStart (plainBlocks blocks) s
       = (Ok tt, s', [Send (MsgStarted (length (fieldsOf blocks)))])
       ∧ template s' = fieldsOf blocks
       ∧ (∀ field, field ∈ fieldsOf blocks →
            field_name field ≠ protoKey
            ∨ is_Some (currAttributes s !! protoKey) →
            currAttributes s' !! field_name field = Some [])
       ∧ (∀ name, name ∉ field_name <$> fieldsOf blocks →
            currAttributes s' !! name = currAttributes s !! name)
       ∧ (currAttributes s !! protoKey = None →
          currAttributes s' !! protoKey = None))
  ∧ (∀ blocks s, template s ≠ [] →
       handleStart blocks s
       = (Ok tt, s, [Send (MsgStarted (length (template s)))]))
  ∧ (∀ pre temp_block names rest more s, template s = [] →
       ∃ s',
         handleStart
           (plainBlocks pre
            ++ (temp_block, Some ((Some <$> names) ++ None :: rest)) :: more)
           s
         = (Ok tt, s', [Send (MsgError bad_start_payload)])
         ∧ template s' = fieldsOf pre ++ (mkFieldDef temp_block <$> names))
  ∧ (∀ (ι : Interference) s,
       (∀ k s', template (ι k s') = template s') →
       template (stateOf (handleStopAmid ι cfg svc s)) = template s
       ∧ (∀ job,
            template (stateOf (transcriptionJobAmid ι cfg svc job s))
            = template s)
       ∧ (∀ frame, (∀ blocks, frame ≠ TextStart blocks) →
            template (stateOf (onMessage cfg svc frame s)) = template s)).
Proof.
  split; [|split; [|split]].
  - intros blocks s Hempty.
    destruct (initBlocks_run blocks s) as (s' & Hrun & Ht & Ha & _).
    rewrite Hempty in Ht. simpl in Ht. exists s'.
    split; [|split; [done|]].
    { unfold handleStart, tryCatch, mbind, M_bind, getState, send, emit.
      rewrite Hempty. cbn [length Nat.eqb]. rewrite Hrun. by rewrite Ht. }
    rewrite Ha. split; [|split].
    + intros field Hin Hproto. rewrite startAttributes_lookup.
      rewrite bool_decide_eq_true_2 by (by apply list_elem_of_fmap_2).
      cbn [andb]. destruct Hproto as [Hne|Hown].
      * by rewrite (bool_decide_eq_false_2 (field_name field = protoKey)).
      * case_bool_decide as Hp; [|done]. rewrite Hp.
        by rewrite (bool_decide_eq_true_2 _ Hown).
    + intros name Hout. rewrite startAttributes_lookup.
      by rewrite (bool_decide_eq_false_2 _ Hout).
    + intros Hnone. rewrite startAttributes_lookup, Hnone.
      rewrite (bool_decide_eq_true_2 (protoKey = protoKey)) by done.
      rewrite (bool_decide_eq_false_2 (is_Some None)) by (by intros [? ?]).
      cbn [negb andb]. by rewrite andb_false_r.
  - apply handleStart_initialised.
  - intros pre temp_block names rest more s Hempty.
    destruct (initBlocks_broken pre temp_block names rest more s)
      as (message & s' & Hrun & Ht).
    rewrite Hempty in Ht. simpl in Ht. exists s'. split; [|done].
    unfold handleStart, tryCatch, mbind, M_bind, getState, send, emit.
    rewrite Hempty. cbn [length Nat.eqb]. by rewrite Hrun.
  - intros ι s Hι. split; [|split].
    + by apply handleStopAmid_preserves_template.
    + intros job. by apply transcriptionJobAmid_preserves_template.
    + intros frame Hframe. destruct frame; simpl; try done.
      * by destruct (Hframe blocks).
      * apply handleStop_preserves_template.
      * apply handleBinary_preserves_template.
Qed.

Lemma start_installs_template_witness :
  ∃ s',
    handleStart brokenBlocks initialState
    = (Ok tt, s', [Send (MsgError bad_start_payload)])
    ∧ template s' = [mkFieldDef (js "id") (js "name")].
Proof.
  destruct (start_installs_template testConfig answeringServices)
    as (_ & _ & Hbroken & _).
  destruct (Hbroken [] (js "id") [js "name"] [] [] initialState eq_refl)
    as (s' & Hrun & Ht).
  exists s'. split; [exact Hrun|exact Ht].
Defined.

(** X18. On every connection the chunk count stays below
    [MIN_CHUNK_NUM] (it is 0 when that constant is 0), and the audio buffer
    is empty whenever the count is 0: audio is held only while chunks are
    being counted. *)
Theorem run_chunk_count (cfg : Config) (svc : Services) (steps : list Step) :
  nchunks (state (run cfg svc steps)) ≤ MIN_CHUNK_NUM cfg - 1
  ∧ (nchunks (state (run cfg svc steps)) = 0 →
     audioBuffer (state (run cfg svc steps)) = []).
Proof.
  apply (run_invariant
           (λ s, nchunks s ≤ MIN_CHUNK_NUM cfg - 1
                 ∧ (nchunks s = 0 → audioBuffer s = []))).
  - simpl. split; [lia|done].
  - intros frame s Hs. destruct frame; simpl; try done.
    + destruct (handleStart_run blocks s)
        as (s' & m & Hrun & Hn & Hb & _).
      rewrite Hrun. unfold stateOf. cbn [fst snd]. by rewrite Hn, Hb.
    + destruct (decide (audioBuffer s = [])) as [Hempty|Hne].
      * by rewrite handleStop_empty.
      * destruct (handleStop_residue cfg svc s Hne)
          as (s1 & calls & marker & _ & Hb & Hn & _ & _ & _
              & sweep & -> & _).
        unfold stateOf. cbn [fst snd]. rewrite Hb, Hn. split; [lia|done].
    + pose proof (handleBinary_cases cfg svc chunk s) as Hcases.
      cbv zeta in Hcases.
      assert (Hn : nchunks (bufferedState s chunk) = S (nchunks s)).
      { unfold bufferedState. by destruct (_ && _). }
      destruct Hcases
        as [[_ ->]|[_ [[Hfew ->]|[(_ & _ & ->)|(_ & _ & sets & _ & _ & ->)]]]];
        unfold stateOf; cbn [fst snd]; try done.
      * rewrite Hn in *. split; [lia|done].
      * cbn. split; [lia|done].
      * cbn. split; [lia|done].
  - intros job s Hs.
    assert (Hn : preserves nchunks (transcriptionJob cfg svc job))
      by (unfold transcriptionJob; repeat preserves_step).
    by rewrite Hn, transcriptionJob_preserves_audioBuffer.
Qed.

(** X19. On every connection the stored header, if there is one, passes the
    header check, and every job that was ever added to the queue holds at
    least 1000 bytes of audio. *)
Theorem run_jobs_have_audio (cfg : Config) (svc : Services)
  (steps : list Step) :
  headerValid (state (run cfg svc steps))
  ∧ ∀ job, job ∈ queued (log (run cfg svc steps)) →
           MIN_AUDIO_SIZE_BYTES ≤ length job.
Proof.
  destruct (run_log_invariant headerValid
              (λ e, match e with
                    | QueueAdd job => MIN_AUDIO_SIZE_BYTES ≤ length job
                    | _ => True
                    end) cfg svc) with (steps := steps) as [Hvalid Hlog].
  - intros header Hh. discriminate Hh.
  - assert (Hnone : ∀ tr, queued tr = [] →
              ∀ e, e ∈ tr →
                   match e with
                   | QueueAdd job => MIN_AUDIO_SIZE_BYTES ≤ length job
                   | _ => True
                   end).
    { intros tr Hq e Hin. destruct e; try done.
      apply elem_of_queued in Hin. rewrite Hq in Hin.
      by apply elem_of_nil in Hin. }
    intros frame s Hs. destruct frame; simpl.
    + split; [done|]. by apply Hnone.
    + split; [done|]. by apply Hnone.
    + destruct (handleStart_run blocks s)
        as (s' & m & Hrun & _ & _ & Hh & _).
      split; [|apply Hnone; by rewrite Hrun].
      rewrite Hrun. unfold stateOf, headerValid. cbn [fst snd].
      by rewrite Hh.
    + split.
      * destruct (decide (audioBuffer s = [])) as [Hempty|Hne].
        -- by rewrite handleStop_empty.
        -- destruct (handleStop_residue cfg svc s Hne)
             as (s1 & calls & marker & _ & _ & _ & Hh & _ & _
                 & sweep & -> & _).
           unfold stateOf, headerValid. cbn [fst snd]. by rewrite Hh.
      * apply Hnone.
        destruct (decide (audioBuffer s = [])) as [Hempty|Hne].
        -- by rewrite handleStop_empty.
        -- destruct (handleStop_residue cfg svc s Hne)
             as (s1 & calls & marker & Hcalls & _ & _ & _ & _ & _
                 & sweep & -> & _ & Hq).
           unfold traceOf. cbn [snd].
           change (queued (SetAudioBuffer [] :: ?tr)) with (queued tr).
           unfold queued in *. rewrite !omap_app. fold (queued calls).
           by rewrite serviceCalls_queued, Hq.
    + split; [done|]. by apply Hnone.
    + split.
      * pose proof (handleBinary_cases cfg svc chunk s) as Hcases.
        cbv zeta in Hcases.
        assert (Hvalid : headerValid (bufferedState s chunk)).
        { unfold headerValid, bufferedState.
          destruct (negb _ && checkWebMIntegrity chunk) eqn:Hcap; cbn;
            [|done].
          intros header [= <-]. by apply andb_true_iff in Hcap as [_ ?]. }
        destruct Hcases
          as [[_ ->]|[_ [[_ ->]|[(_ & _ & ->)|(_ & _ & sets & _ & _ & ->)]]]];
          unfold stateOf; cbn [fst snd]; done.
      * intros e Hin. destruct e; try done.
        apply elem_of_queued in Hin.
        by apply (handleBinary_queued_size cfg svc chunk s).
  - intros job s Hs. split.
    + assert (Hh : preserves webmHeader (transcriptionJob cfg svc job))
        by (unfold transcriptionJob; repeat preserves_step).
      unfold headerValid. by rewrite Hh.
    + intros e Hin. destruct e; try done.
      apply elem_of_queued in Hin. rewrite transcriptionJob_queued in Hin.
      by apply elem_of_nil in Hin.
  - split; [done|]. intros job Hin. apply elem_of_queued in Hin.
    by apply Hlog in Hin.
Qed.

(** X20. On every connection the transcript only grows at its end: the
    transcript after any run is a prefix of the transcript after any
    continuation of that run. *)
Theorem run_transcript_grows (cfg : Config) (svc : Services)
  (steps more : list Step) :
  transcript (state (run cfg svc steps))
  `prefix_of` transcript (state (run cfg svc (steps ++ more))).
Proof.
  unfold run. rewrite foldl_app.
  generalize (foldl (step cfg svc) newSession steps) as σ.
  induction more as [|st more IH] using rev_ind; intros σ; [done|].
  rewrite foldl_app. simpl.
  etrans; [apply IH|apply step_transcript_grows].
Qed.

End SessionMore.

(** ** The transcription cache of the earlier server *)

Section CacheFacts.
Import JsString AudioCache AppEarlier.

Lemma mapGet_mapSet_eq key value m :
  mapGet key (mapSet key value m) = Some value.
Proof.
  induction m as [|[k v] m IH]; simpl.
  - by rewrite bool_decide_eq_true_2.
  - destruct (bool_decide (k = key)) eqn:Hk; simpl; by rewrite Hk.
Qed.

Lemma mapGet_mapDelete_eq key m : mapGet key (mapDelete key m) = None.
Proof.
  unfold mapDelete. induction m as [|[k v] m IH]; [done|].
  rewrite filter_cons. simpl. destruct (decide (k ≠ key)) as [Hne|Heq].
  - simpl. by rewrite bool_decide_eq_false_2.
  - done.
Qed.

Lemma mapGet_mapDelete_ne key key' m :
  key ≠ key' → mapGet key' (mapDelete key m) = mapGet key' m.
Proof.
  intros Hne. unfold mapDelete. induction m as [|[k v] m IH]; [done|].
  rewrite filter_cons. simpl. destruct (decide (k ≠ key)) as [Hk|Hk].
  - simpl. by rewrite IH.
  - apply dec_stable in Hk as ->. by rewrite bool_decide_eq_false_2.
Qed.

Lemma mapSet_length key value m :
  length (mapSet key value m) ≤ S (length m).
Proof.
  induction m as [|[k v] m IH]; simpl; [lia|].
  destruct (bool_decide (k = key)); simpl; lia.
Qed.

Lemma mapSet_keys key value m k :
  k ∈ (mapSet key value m).*1 → k = key ∨ k ∈ m.*1.
Proof.
  induction m as [|[k0 v] m IH]; simpl.
  - intros Hin. apply list_elem_of_singleton in Hin. by left.
  - destruct (bool_decide (k0 = key)); simpl; rewrite !elem_of_cons;
      intros [->|Hin]; auto.
    destruct (IH Hin); auto.
Qed.

Lemma mapDelete_keys key m k : k ∈ (mapDelete key m).*1 → k ∈ m.*1.
Proof.
  unfold mapDelete. rewrite !list_elem_of_fmap.
  intros (kv & -> & Hin). apply list_elem_of_filter in Hin as [_ Hin].
  by exists kv.
Qed.

Lemma mapDelete_head_length key value m :
  length (mapDelete key ((key, value) :: m)) ≤ length m.
Proof.
  unfold mapDelete. rewrite filter_cons. simpl.
  destruct (decide (key ≠ key)); [done|]. apply length_filter.
Qed.

(** X21. A lookup after a store of the same key, [now'] after [now]: inside
    the time to live it returns the stored transcription and leaves the map
    alone; otherwise it returns [null] and removes the entry, and no other.
    A clock that ran backwards counts as inside the time to live. *)
Theorem cache_lookup_after_store (now now' : Z) (cacheKey text : jsstring)
  (cache : JsMap) :
  let stored := cacheTranscription now cacheKey text cache in
  getCachedTranscription now' cacheKey stored
  = (if (now' - now <? TRANSCRIPTION_CACHE_TTL)%Z
     then (Some text, stored) else (None, mapDelete cacheKey stored))
  ∧ mapGet cacheKey (mapDelete cacheKey stored) = None
  ∧ ∀ other, other ≠ cacheKey →
      mapGet other (mapDelete cacheKey stored) = mapGet other stored.
Proof.
  cbv zeta. split; [|split].
  - unfold getCachedTranscription, cacheTranscription.
    by rewrite mapGet_mapSet_eq.
  - apply mapGet_mapDelete_eq.
  - intros other Hne. by apply mapGet_mapDelete_ne.
Qed.

(** One store keeps the size bound and the keys non-empty. *)
Lemma cacheTranscription_bound now cacheKey text cache :
  cacheKey ≠ [] →
  length cache ≤ 101 ∧ (∀ k, k ∈ cache.*1 → k ≠ []) →
  length (cacheTranscription now cacheKey text cache) ≤ 101
  ∧ (∀ k, k ∈ (cacheTranscription now cacheKey text cache).*1 → k ≠ []).
Proof.
  intros Hkey [Hlen Hkeys]. unfold cacheTranscription.
  assert (Hbound : 101 = S 100) by (by vm_compute).
  destruct (Nat.ltb_spec 100 (length cache)) as [Hfull|Hroom].
  - destruct cache as [|[oldestKey v] cache]; [simpl in Hfull; lia|].
    assert (Hold : oldestKey ≠ []).
    { apply Hkeys. simpl. apply elem_of_cons. by left. }
    rewrite bool_decide_eq_true_2 by done. split.
    + etrans; [apply mapSet_length|].
      pose proof (mapDelete_head_length oldestKey v cache).
      simpl in Hlen. lia.
    + intros k Hin. apply mapSet_keys in Hin as [->|Hin]; [done|].
      by apply Hkeys, (mapDelete_keys oldestKey).
  - split.
    + etrans; [apply mapSet_length|]. lia.
    + intros k Hin. apply mapSet_keys in Hin as [->|Hin]; [done|].
      by apply Hkeys.
Qed.

(** A lookup adds nothing. *)
Lemma getCachedTranscription_bound now cacheKey cache :
  length cache ≤ 101 ∧ (∀ k, k ∈ cache.*1 → k ≠ []) →
  length (getCachedTranscription now cacheKey cache).2 ≤ 101
  ∧ (∀ k, k ∈ (getCachedTranscription now cacheKey cache).2.*1 → k ≠ []).
Proof.
  intros [Hlen Hkeys]. unfold getCachedTranscription.
  destruct (mapGet cacheKey cache) as [cached|]; [|done].
  destruct (_ <? _)%Z; [done|]. cbn [snd]. split.
  - etrans; [apply length_filter|done].
  - intros k Hin. by apply Hkeys, (mapDelete_keys cacheKey).
Qed.

(** X22. As long as nothing is stored under the empty key, the cache never
    holds more than 101 entries, whatever is stored and looked up in
    whatever order. *)
Theorem cache_size_bound (calls : list CacheCall) :
  storesNamed calls → length (cacheAfter calls) ≤ 101.
Proof.
  intros Hcalls. unfold cacheAfter.
  cut (length (foldl cacheCall [] calls) ≤ 101
       ∧ ∀ k, k ∈ (foldl cacheCall [] calls).*1 → k ≠ []).
  { by intros [? _]. }
  induction calls as [|c calls IH] using rev_ind.
  - simpl. split; [lia|]. intros k Hin. by apply elem_of_nil in Hin.
  - rewrite foldl_app. simpl.
    assert (Hrest : storesNamed calls).
    { intros now text Hin. apply (Hcalls now text), elem_of_app. by left. }
    destruct c as [now cacheKey text|now cacheKey]; simpl.
    + apply cacheTranscription_bound; [|by apply IH].
      intros ->. apply (Hcalls now text), elem_of_app. right.
      by apply list_elem_of_singleton.
    + apply getCachedTranscription_bound. by apply IH.
Qed.

Lemma cache_size_bound_witness :
  length (cacheAfter [Store 0 (createCacheKey sampleAudioA) (js "one");
                      Lookup 70000 (createCacheKey sampleAudioA);
                      Store 70005 (createCacheKey sampleAudioB) (js "two")])
  ≤ 101.
Proof.
  apply (cache_size_bound
           [Store 0 (createCacheKey sampleAudioA) (js "one");
            Lookup 70000 (createCacheKey sampleAudioA);
            Store 70005 (createCacheKey sampleAudioB) (js "two")]).
  intros now text Hin. rewrite !elem_of_cons, elem_of_nil in Hin.
  destruct Hin as [Hin|[Hin|[Hin|[]]]]; vm_compute in Hin; discriminate Hin.
Defined.

(** X23. Eviction stops when the oldest key is the empty string, the key of
    an empty buffer: a full cache then grows with every new key. *)
Theorem cache_empty_key_blocks_eviction (now : Z) (cacheKey text : jsstring)
  (oldest : Cached) (cache : JsMap) :
  100 ≤ length cache →
  cacheKey ≠ [] → cacheKey ∉ cache.*1 →
  cacheTranscription now cacheKey text (([], oldest) :: cache)
  = ([], oldest) :: cache ++ [(cacheKey, mkCached text now)].
Proof.
  intros Hfull Hkey Hfresh. unfold cacheTranscription.
  destruct (Nat.ltb_spec 100 (length (([], oldest) :: cache))) as [_|Hlen];
    [|simpl in Hlen; lia].
  rewrite bool_decide_eq_false_2 by (by intros ?).
  assert (Hset : ∀ m, cacheKey ∉ m.*1 →
                      mapSet cacheKey (mkCached text now) m
                      = m ++ [(cacheKey, mkCached text now)]).
  { induction m as [|[k v] m IH]; simpl; [done|].
    intros Hnot. apply not_elem_of_cons in Hnot as [Hne Hnot].
    rewrite bool_decide_eq_false_2 by done. by rewrite IH. }
  apply (Hset (([], oldest) :: cache)). simpl.
  apply not_elem_of_cons. by split.
Qed.

Lemma cache_empty_key_blocks_eviction_witness :
  length (cacheTranscription 7 (createCacheKey sampleAudioA) (js "new")
            staleCache) = 102.
Proof.
  unfold staleCache.
  rewrite (cache_empty_key_blocks_eviction 7 (createCacheKey sampleAudioA)
             (js "new")).
  - by vm_compute.
  - apply (Nat.leb_le 100). by vm_compute.
  - by vm_compute.
  - intros Hin. apply (bool_decide_pack _) in Hin. by vm_compute in Hin.
Defined.

End CacheFacts.

(** ** Edges of the final request, the voice gate and the update window *)

Section EdgeFacts.
Import JsString Stitcher Transcription ParseGpt App.

Lemma omittedMarker_length : length omittedMarker = 47.
Proof. by vm_compute. Qed.

(** X24. [truncateTranscript] returns a text within the limit as it is.  A
    longer text becomes [2 * floor(maxChars / 2) + 47] code units long, which
    is more than it had if it exceeded the limit by less than the marker.
    For a limit below 2 nothing is cut at all: the marker is put in front of
    the whole text. *)
Theorem truncateTranscript_length (text : jsstring) (maxChars : nat) :
  (length text ≤ maxChars → truncateTranscript text maxChars = text)
  ∧ (2 ≤ maxChars < length text →
     length (truncateTranscript text maxChars) = 2 * (maxChars / 2) + 47)
  ∧ (maxChars < 2 ∧ maxChars < length text →
     truncateTranscript text maxChars = omittedMarker ++ text).
Proof.
  unfold truncateTranscript. split; [|split].
  - intros Hfit. by destruct (Nat.leb_spec (length text) maxChars); [|lia].
  - intros [Hmax Hlong].
    destruct (Nat.leb_spec (length text) maxChars); [lia|].
    assert (Hhalf : 0 < maxChars / 2) by (apply Nat.div_str_pos; lia).
    assert (Hle : maxChars / 2 ≤ maxChars)
      by (apply Nat.Div0.div_le_upper_bound; lia).
    rewrite slice_prefix, slice_last by done.
    rewrite !length_app, length_take, length_drop, omittedMarker_length. lia.
  - intros [Hmax Hlong].
    destruct (Nat.leb_spec (length text) maxChars); [lia|].
    assert (Hhalf : maxChars / 2 = 0) by (apply Nat.div_small; lia).
    rewrite Hhalf, slice_prefix. change (- Z.of_nat 0)%Z with (Z.of_nat 0).
    by rewrite slice_from.
Qed.

Lemma truncateTranscript_length_witness :
  length (truncateTranscript (repeat 120%N 6001) 6000) = 2 * (6000 / 2) + 47.
Proof.
  apply (truncateTranscript_length (repeat 120%N 6001) 6000).
  split.
  - apply (Nat.leb_le 2 6000). by vm_compute.
  - apply (Nat.ltb_lt 6000). by vm_compute.
Defined.

(** X25. A request of the final sweep carries the template and the
    candidates it was called with, is made only for a transcript of at least
    30 code units after trimming, and its text has at most 6047 code units,
    starts with the first 3000 code units of the transcript and ends with
    the last 3000. *)
Theorem final_request_text (svc : Services) (t : jsstring)
  (tpl : list FieldDef) (cand : gmap jsstring jsstring) (s : WSState)
  (tpl' : list FieldDef) (cand' : gmap jsstring jsstring) (text : jsstring) :
  FinalRequest tpl' cand' text
  ∈ traceOf (parseFinalAttributes svc t tpl cand s) →
  tpl' = tpl ∧ cand' = cand ∧ 30 ≤ length (trim t)
  ∧ length text ≤ 6047
  ∧ take 3000 t `prefix_of` text
  ∧ drop (length t - 3000) t `suffix_of` text.
Proof.
  intros Hin.
  destruct (Nat.lt_ge_cases (length (trim t)) 30) as [Hshort|Hlong].
  { exfalso. revert Hin. unfold parseFinalAttributes, mbind, M_bind, emit,
      mret, M_ret, traceOf.
    destruct (Nat.ltb_spec (length (trim t)) 30); [|lia]. cbn.
    intros Hin. apply list_elem_of_singleton in Hin. discriminate. }
  destruct (final_request_covers_transcript svc t tpl cand s Hlong)
    as (result & sentText & Hrun & Hfit & Hcut).
  rewrite Hrun in Hin. unfold traceOf in Hin. cbn [snd] in Hin.
  apply elem_of_cons in Hin as [Hin|Hin]; [discriminate|].
  apply list_elem_of_singleton in Hin. injection Hin as -> -> ->.
  split; [done|]. split; [done|]. split; [done|].
  assert (H6000 : 6000 = 3000 + 3000) by (by vm_compute).
  assert (H6047 : 6047 = 3000 + 47 + 3000) by (by vm_compute).
  destruct (Nat.le_gt_cases (length t) 6000) as [Hle|Hgt].
  - rewrite (Hfit Hle). split; [lia|]. split.
    + apply prefix_take.
    + apply suffix_drop.
  - rewrite (Hcut Hgt). split; [|split].
    + rewrite !length_app, length_take, length_drop, omittedMarker_length.
      lia.
    + by apply prefix_app_r.
    + rewrite app_assoc. by apply suffix_app_r.
Qed.

Lemma final_request_text_witness :
  length spokenText ≤ 6047 ∧ take 3000 spokenText `prefix_of` spokenText.
Proof.
  destruct (final_request_text answeringServices spokenText [] ∅ initialState
              [] ∅ spokenText) as (_ & _ & _ & Hlen & Hpre & _).
  - apply (list_elem_of_lookup_2 _ 1). by vm_compute.
  - split; [exact Hlen|exact Hpre].
Defined.

(** X26. A buffer that the voice gate rejects, which includes every buffer
    of fewer than 1000 bytes, costs a job nothing when [MIN_WORD_COUNT] is
    at least 2: no request to any service, no message, no change of state.
    The empty transcription counts as one word. *)
Theorem transcriptionJob_silent (cfg : Config) (svc : Services)
  (job : Buffer) (s : WSState) :
  length job < MIN_AUDIO_SIZE_BYTES ∨ varianceAbove100 svc job = false →
  2 ≤ MIN_WORD_COUNT cfg →
  transcriptionJob cfg svc job s = (Ok tt, s, []).
Proof.
  intros Hgate Hmin.
  assert (Hvoice : hasVoiceActivity svc job = false).
  { unfold hasVoiceActivity. destruct Hgate as [Hshort| ->].
    - apply Nat.ltb_lt in Hshort. by rewrite Hshort.
    - by destruct (_ <? _). }
  unfold transcriptionJob, runWhisperOnBuffer. rewrite Hvoice.
  unfold tryCatch, mbind, M_bind, mret, M_ret. cbn.
  destruct (MIN_WORD_COUNT cfg) as [|[|n]]; [lia|lia|done].
Qed.

Lemma transcriptionJob_silent_witness :
  transcriptionJob testConfig answeringServices [] initialState
  = (Ok tt, initialState, []).
Proof.
  apply (transcriptionJob_silent testConfig answeringServices [] initialState).
  - left. apply (Nat.ltb_lt 0 1000). by vm_compute.
  - apply (Nat.leb_le 2 3). by vm_compute.
Defined.

(** X27. When the previous job added nothing to the transcript and this one
    adds nothing either, the window [slice(-(0 + 0))] is the whole
    transcript: the update a job then sends reports all of it. *)
Theorem transcriptionJob_window_of_no_growth (cfg : Config) (svc : Services)
  (job : Buffer) (s : WSState) (window : jsstring)
  (attributes : gmap jsstring jsstring) :
  currTranscriptSize s = 0 →
  transcript (stateOf (transcriptionJob cfg svc job s)) = transcript s →
  sent (traceOf (transcriptionJob cfg svc job s))
  = [MsgUpdate window attributes None] →
  window = transcript s.
Proof.
  intros Hprev.
  destruct (transcriptionJob_cases cfg svc job s)
    as (calls & Hcalls & [->|[->|(revised & _ & [->|(extracted & _ & ->)])]]);
    unfold stateOf, traceOf; cbn [fst snd].
  - intros _. by rewrite serviceCalls_sent.
  - intros _. by rewrite sent_calls_then.
  - intros _. by rewrite sent_calls_then.
  - rewrite sent_calls_then by done. intros Hsame [= <- _].
    revert Hsame. unfold updateWindow, stitched.
    destruct (appendWithOverlap_at_largest (transcript s) revised)
      as (k & [Hk _] & _ & ->).
    cbn [transcript currTranscriptSize set_transcript set_currTranscriptSize
         set_currAttributes].
    intros Hsame. rewrite Hprev.
    assert (Hnone : length revised - k = 0).
    { apply (f_equal length) in Hsame.
      rewrite length_app, length_drop in Hsame. lia. }
    rewrite Hnone. change (- Z.of_nat (0 + 0))%Z with (Z.of_nat 0).
    by rewrite slice_from.
Qed.

Lemma transcriptionJob_window_of_no_growth_witness :
  spokenText = transcript repeatedState.
Proof.
  apply (transcriptionJob_window_of_no_growth testConfig answeringServices
           loudAudio repeatedState spokenText ∅).
  - reflexivity.
  - by vm_compute.
  - by vm_compute.
Defined.

End EdgeFacts.

(** ** The stored header, and a job that fails half way *)

Section LifecycleFacts.
Import JsString Stitcher Transcription ParseGpt App.

(** X28. The life of the stored header.  A binary frame that fits stores its
    chunk as the header only if none is stored and the chunk passes the
    header check; an overflowing frame never does.  [stop] clears the header
    when it finds audio in the buffer and keeps it when the buffer is empty.
    Jobs and [start] leave it alone. *)
Theorem webmHeader_lifecycle (cfg : Config) (svc : Services) (s : WSState) :
  (∀ chunk,
     webmHeader (stateOf (handleBinary cfg svc chunk s))
     = if MAX_AUDIO_BUFFER_SIZE cfg <? length (audioBuffer s) + length chunk
       then webmHeader s
       else match webmHeader s with
            | Some header => Some header
            | None => if checkWebMIntegrity chunk then Some chunk else None
            end)
  ∧ webmHeader (stateOf (handleStop cfg svc s))
    = (if bool_decide (audioBuffer s = []) then webmHeader s else None)
  ∧ (∀ job, webmHeader (stateOf (transcriptionJob cfg svc job s))
            = webmHeader s)
  ∧ (∀ blocks, webmHeader (stateOf (handleStart blocks s)) = webmHeader s).
Proof.
  split; [|split; [|split]].
  - intros chunk.
    pose proof (handleBinary_cases cfg svc chunk s) as Hcases.
    cbv zeta in Hcases.
    assert (Hh : webmHeader (bufferedState s chunk)
                 = match webmHeader s with
                   | Some header => Some header
                   | None =>
                       if checkWebMIntegrity chunk then Some chunk else None
                   end).
    { unfold bufferedState. destruct (webmHeader s) as [h|] eqn:Hs.
      - rewrite bool_decide_eq_true_2 by eauto. cbn. by rewrite Hs.
      - rewrite bool_decide_eq_false_2 by (by intros [? ?]). cbn [negb andb].
        destruct (checkWebMIntegrity chunk); cbn; by rewrite ?Hs. }
    destruct (Nat.ltb_spec (MAX_AUDIO_BUFFER_SIZE cfg)
                (length (audioBuffer s) + length chunk)) as [Hover|Hfits];
      destruct Hcases
        as [[? ->]|[? [[_ ->]|[(_ & _ & ->)|(_ & _ & sets & _ & _ & ->)]]]];
      unfold stateOf; cbn [fst snd]; try lia; try done.
  - case_bool_decide as Hempty.
    + by rewrite handleStop_empty.
    + destruct (handleStop_residue cfg svc s Hempty)
        as (s1 & calls & marker & _ & _ & _ & Hh & _ & _ & sweep & -> & _).
      done.
  - intros job.
    assert (Hp : preserves webmHeader (transcriptionJob cfg svc job))
      by (unfold transcriptionJob; repeat preserves_step).
    apply Hp.
  - intros blocks.
    destruct (handleStart_run blocks s) as (s' & m & Hrun & _ & _ & Hh & _).
    by rewrite Hrun.
Qed.

(** X29. A job is not all or nothing.  When transcription and correction
    succeed and the corrected text passes the word-count gate, the text is
    stitched into the transcript before the extraction call; if that call
    throws, the client gets [transcription-failed] and the transcript keeps
    the new text. *)
Theorem transcriptionJob_fails_after_stitch (cfg : Config) (svc : Services)
  (job : Buffer) (s : WSState) (raw revised message : jsstring)
  (tw trv te : list Event) :
  runWhisperOnBuffer svc job s = (Ok raw, s, tw) →
  reviseTranscription svc raw s = (Ok revised, s, trv) →
  MIN_WORD_COUNT cfg ≤ wordCount revised →
  extractAttributesFromText svc (updateWindow s revised) (template s)
    (currAttributes s) (stitched s revised)
  = (Throw message, stitched s revised, te) →
  transcriptionJob cfg svc job s
  = (Ok tt, stitched s revised,
     tw ++ trv ++ te ++ [Send (MsgError transcription_failed)])
  ∧ revised `suffix_of` transcript (stitched s revised).
Proof.
  intros Hw Hr Henough He. split.
  - unfold transcriptionJob, tryCatch, mbind, M_bind.
    rewrite Hw, Hr.
    destruct (Nat.ltb_spec (wordCount revised) (MIN_WORD_COUNT cfg)); [lia|].
    unfold getState at 1. revert He. unfold updateWindow, stitched.
    destruct (appendWithOverlap (transcript s) revised) as [merged growth].
    unfold modify, getState, send, emit.
    cbn [transcript currTranscriptSize set_transcript set_currTranscriptSize
         template currAttributes].
    intros ->. cbn. by rewrite <- !app_assoc.
  - unfold stitched.
    pose proof (appendWithOverlap_ends_with (transcript s) revised) as Hsuf.
    by destruct (appendWithOverlap (transcript s) revised).
Qed.

Lemma transcriptionJob_fails_after_stitch_witness :
  transcriptionJob testConfig extractionFailsServices loudAudio namedState
  = (Ok tt, stitched namedState spokenText,
     [WhisperFetch 1 loudAudio] ++ [ReviseRequest spokenText]
     ++ [ExtractRequest (template namedState) (currAttributes namedState)
           spokenText]
     ++ [Send (MsgError transcription_failed)])
  ∧ spokenText `suffix_of` transcript (stitched namedState spokenText).
Proof.
  apply (transcriptionJob_fails_after_stitch testConfig
           extractionFailsServices loudAudio namedState spokenText spokenText
           (js "rate limited")).
  - reflexivity.
  - reflexivity.
  - apply (Nat.leb_le 3). by vm_compute.
  - by vm_compute.
Defined.

End LifecycleFacts.
